(** * Race Challenge: the simulation core, embedded and verified

    A shallow embedding of the physics, track and race-progress code of the
    game (Vehicule.js, PlayerCar.js, FollowerCar.js, Track.js, sketch.js).

    Numbers.  A JavaScript number that holds a coordinate, a speed, a force
    or a fuel level is modelled as a real number: arithmetic is exact, there
    is no rounding, no NaN and no Infinity.  Counters and array indices
    (laps, checkpoints, timers, waypoint indices) only ever hold small
    non-negative integers and are modelled as [nat]; the level is a [Z].

    Errors.  Reading [waypoints[i]] outside of the array gives [undefined]
    in JavaScript, and handing [undefined] to [p5.Vector.dist] or
    [p5.Vector.sub] throws a TypeError.  A function that can throw returns
    an [option]; [None] is the thrown TypeError.

    Rendering ([show], particles, the pre-rendered buffer, the HUD) has no
    effect on the simulated state and is left out. *)

From Stdlib Require Import Reals Lra Lia List ZArith Bool Psatz Sorting Permutation.
Import ListNotations.
Open Scope R_scope.

(** ** Comparisons of numbers as booleans *)

Definition Rltb (x y : R) : bool := if Rlt_dec x y then true else false.
Definition Rgtb (x y : R) : bool := Rltb y x.
Definition Rleb (x y : R) : bool := negb (Rltb y x).
Definition Rgeb (x y : R) : bool := negb (Rltb x y).
Definition Reqb (x y : R) : bool := if Req_dec_T x y then true else false.

(** ** The error monad of a throwing function *)

Definition bind {A B : Type} (m : option A) (k : A -> option B) : option B :=
  match m with
  | Some a => k a
  | None => None
  end.

Notation "x <- m ;; k" := (bind m (fun x => k))
  (at level 61, m at next level, right associativity).

(** ** p5: the vector and helper functions of the p5.js library

    The library is not part of the repository; its functions are written
    here as the library documents them. *)

Record Vector : Type := createVector { vx : R; vy : R }.

Module p5.

(** [map(value, start1, stop1, start2, stop2)]: linear re-mapping, not
    clamped to the target range. *)
Definition map (value start1 stop1 start2 stop2 : R) : R :=
  (value - start1) / (stop1 - start1) * (stop2 - start2) + start2.

Definition add (a b : Vector) : Vector := createVector (vx a + vx b) (vy a + vy b).
Definition sub (a b : Vector) : Vector := createVector (vx a - vx b) (vy a - vy b).
Definition mult (a : Vector) (n : R) : Vector := createVector (vx a * n) (vy a * n).

(** [div] by zero leaves the vector as it is (the library warns and
    returns). *)
Definition div (a : Vector) (n : R) : Vector :=
  if Reqb n 0 then a else createVector (vx a / n) (vy a / n).

Definition magSq (a : Vector) : R := vx a * vx a + vy a * vy a.
Definition mag (a : Vector) : R := sqrt (magSq a).
Definition dot (a b : Vector) : R := vx a * vx b + vy a * vy b.

(** [dist(a, b)] is [b.copy().sub(a).mag()]. *)
Definition dist (a b : Vector) : R := mag (sub b a).

(** [normalize]: a zero vector stays zero. *)
Definition normalize (a : Vector) : Vector :=
  let len := mag a in
  if Reqb len 0 then a else mult a (1 / len).

(** [limit(max)]: rescale to length [max] when longer than [max]. *)
Definition limit (a : Vector) (max : R) : Vector :=
  let mSq := magSq a in
  if Rgtb mSq (max * max) then mult (div a (sqrt mSq)) max else a.

Definition setMag (a : Vector) (n : R) : Vector := mult (normalize a) n.

Definition fromAngle (angle : R) : Vector := createVector (cos angle) (sin angle).

(** [heading] is [Math.atan2(y, x)]. *)
Definition atan2 (y x : R) : R :=
  if Rltb 0 x then atan (y / x)
  else if Rltb x 0 then (if Rltb y 0 then atan (y / x) - PI else atan (y / x) + PI)
  else if Rltb 0 y then PI / 2
  else if Rltb y 0 then - (PI / 2)
  else 0.
Definition heading (a : Vector) : R := atan2 (vy a) (vx a).

(** [a.lerp(b, amt)]: move [a] towards [b] by the fraction [amt]. *)
Definition lerp (a b : Vector) (amt : R) : Vector :=
  createVector (vx a + (vx b - vx a) * amt) (vy a + (vy b - vy a) * amt).

Definition zero : Vector := createVector 0 0.

End p5.

(** ** Track.js

    The queries on a track.  The generation of the circuit and of the
    obstacles (trigonometry over the canvas and random placement) is not
    modelled: a track is any list of waypoints and any list of obstacles,
    with the width that the constructor takes from [getTrackWidth]. *)

Inductive ObstacleType : Type := cone | barrier | oil.

(** An obstacle; the fields used only for drawing (colour, the barrier's
    width, height and angle) are left out. *)
Record Obstacle : Type := mkObstacle {
  o_type : ObstacleType;
  o_position : Vector;
  o_radius : R;
  o_waypointIndex : nat
}.

(** The result object of [checkObstacleCollision]:
    [{ hit, type, obstacle }], with [null] as [None]. *)
Record Collision : Type := mkCollision {
  hit : bool;
  c_type : option ObstacleType;
  c_obstacle : option Obstacle
}.

Module Track.

Record t : Type := mk {
  level : Z;
  waypoints : list Vector;
  trackWidth : R;
  obstacles : list Obstacle
}.

(** [getTrackWidth]: [max(100, 160 - this.level * 6)]. *)
Definition getTrackWidth (level : Z) : Z := Z.max 100 (160 - level * 6).

(** [checkObstacleCollision]: the first obstacle, in array order, whose
    centre is closer than its radius. *)
Fixpoint checkObstacleCollision_loop (obs : list Obstacle) (position : Vector) : Collision :=
  match obs with
  | [] => mkCollision false None None
  | o :: rest =>
      let dist := p5.dist position (o_position o) in
      if Rltb dist (o_radius o)
      then mkCollision true (Some (o_type o)) (Some o)
      else checkObstacleCollision_loop rest position
  end.

Definition checkObstacleCollision (tr : t) (position : Vector) : Collision :=
  checkObstacleCollision_loop (obstacles tr) position.

(** One iteration of the loop of [getObstacleAvoidanceForce].  With
    [lookAhead = 0] the factor [map(dist, 0, 0, 1.5, 0.3)] divides by zero
    and is no finite number; [mult] of p5 then warns and leaves the vector
    as it is. *)
Definition avoidStep (position velocity : Vector) (lookAhead : R)
    (avoidForce : Vector) (obs : Obstacle) : Vector :=
  let toObs := p5.sub (o_position obs) position in
  let dist := p5.mag toObs in
  if Rltb dist (lookAhead + o_radius obs) then
    let dotProduct := p5.dot (p5.normalize velocity) (p5.normalize toObs) in
    if Rgtb dotProduct 0.3 then
      let perpForce := createVector (- vy toObs) (vx toObs) in
      let perpForce := p5.normalize perpForce in
      let perpForce :=
        if Reqb lookAhead 0 then perpForce
        else p5.mult perpForce (p5.map dist 0 lookAhead 1.5 0.3) in
      p5.add avoidForce perpForce
    else avoidForce
  else avoidForce.

Definition getObstacleAvoidanceForce (tr : t) (position velocity : Vector)
    (lookAhead : R) : Vector :=
  fold_left (avoidStep position velocity lookAhead) (obstacles tr) (createVector 0 0).

(** The loop of [getClosestWaypointIndex]; [closestDist] starts at
    [Infinity], which is [None]. *)
Fixpoint closest_loop (pos : Vector) (wps : list Vector) (i : nat)
    (closestDist : option R) (closestIndex : nat) : nat :=
  match wps with
  | [] => closestIndex
  | w :: rest =>
      let d := p5.dist pos w in
      let closer := match closestDist with
                    | None => true
                    | Some c => Rltb d c
                    end in
      if closer
      then closest_loop pos rest (S i) (Some d) i
      else closest_loop pos rest (S i) closestDist closestIndex
  end.

Definition getClosestWaypointIndex (tr : t) (pos : Vector) : nat :=
  closest_loop pos (waypoints tr) 0 None 0.

(** [getTrackBoundaryForce]; with no waypoint [waypoints[0]] is
    [undefined] and [p5.Vector.dist] throws. *)
Definition getTrackBoundaryForce (tr : t) (position velocity : Vector) : option Vector :=
  let closestIdx := getClosestWaypointIndex tr position in
  trackCenter <- nth_error (waypoints tr) closestIdx ;;
  let distFromCenter := p5.dist position trackCenter in
  let maxDist := trackWidth tr / 2 - 15 in
  if Rgtb distFromCenter maxDist then
    let steer := p5.sub trackCenter position in
    let steer := p5.normalize steer in
    let steer := p5.mult steer (p5.map (distFromCenter - maxDist) 0 25 0.3 1.0) in
    Some steer
  else Some (createVector 0 0).

End Track.

(** ** The canvas: [createCanvas(1000, 700)] in [setup] *)

Definition width : R := 1000.
Definition height : R := 700.

(** ** Vehicule.js: the base physics class *)

Module Vehicule.

Record t : Type := mk {
  position : Vector;
  velocity : Vector;
  acceleration : Vector;
  r : R;
  maxforce : R;
  maxspeed : R
}.

Definition new (x y : R) : t :=
  mk (createVector x y) (createVector 0 0) (createVector 0 0) 10 0.2 4.

Definition set_position (v : t) (p : Vector) : t :=
  mk p (velocity v) (acceleration v) (r v) (maxforce v) (maxspeed v).
Definition set_velocity (v : t) (w : Vector) : t :=
  mk (position v) w (acceleration v) (r v) (maxforce v) (maxspeed v).
Definition set_acceleration (v : t) (a : Vector) : t :=
  mk (position v) (velocity v) a (r v) (maxforce v) (maxspeed v).

Definition applyForce (v : t) (force : Vector) : t :=
  set_acceleration v (p5.add (acceleration v) force).

(** [update]: Euler integration. *)
Definition update (v : t) : t :=
  let v := set_velocity v (p5.add (velocity v) (acceleration v)) in
  let v := set_velocity v (p5.limit (velocity v) (maxspeed v)) in
  let v := set_position v (p5.add (position v) (velocity v)) in
  set_acceleration v (p5.mult (acceleration v) 0).

(** [edges]: bounce off the borders of the canvas. *)
Definition edges (v : t) : t :=
  let margin := r v in
  let v :=
    if Rltb (vx (position v)) margin then
      let v := set_position v (createVector margin (vy (position v))) in
      set_velocity v (createVector (vx (velocity v) * -0.5) (vy (velocity v)))
    else if Rgtb (vx (position v)) (width - margin) then
      let v := set_position v (createVector (width - margin) (vy (position v))) in
      set_velocity v (createVector (vx (velocity v) * -0.5) (vy (velocity v)))
    else v in
  if Rltb (vy (position v)) margin then
    let v := set_position v (createVector (vx (position v)) margin) in
    set_velocity v (createVector (vx (velocity v)) (vy (velocity v) * -0.5))
  else if Rgtb (vy (position v)) (height - margin) then
    let v := set_position v (createVector (vx (position v)) (height - margin)) in
    set_velocity v (createVector (vx (velocity v)) (vy (velocity v) * -0.5))
  else v.

Definition seek (v : t) (target : Vector) : Vector :=
  let desired := p5.sub target (position v) in
  let desired := p5.setMag desired (maxspeed v) in
  let steer := p5.sub desired (velocity v) in
  p5.limit steer (maxforce v).

Definition arrive (v : t) (target : Vector) (slowRadius : R) : Vector :=
  let desired := p5.sub target (position v) in
  let distance := p5.mag desired in
  let speed :=
    if Rltb distance slowRadius
    then p5.map distance 0 slowRadius 0 (maxspeed v)
    else maxspeed v in
  let desired := p5.setMag desired speed in
  let steer := p5.sub desired (velocity v) in
  p5.limit steer (maxforce v).

End Vehicule.

(** ** PlayerCar.js *)

(** The keys held down during a frame, as [handleInput] reads them with
    [keyIsDown]. *)
Record Keys : Type := mkKeys {
  key_up : bool;      (* UP_ARROW or W *)
  key_down : bool;    (* DOWN_ARROW or S *)
  key_left : bool;    (* LEFT_ARROW or A *)
  key_right : bool;   (* RIGHT_ARROW or D *)
  key_nitro : bool    (* SHIFT or N *)
}.

Definition noKeys : Keys := mkKeys false false false false false.

Module PlayerCar.

(** The fields that the constructor sets and nothing changes afterwards. *)
Definition waypointReachDistance : R := 65.
Definition nitroMaxspeed : R := 10.
Definition acceleration_power : R := 0.18.
Definition brake_power : R := 0.12.
Definition turn_speed : R := 0.065.
Definition friction : R := 0.97.
Definition nitroMaxFuel : R := 100.
Definition nitroDrainRate : R := 1.5.
Definition nitroRechargeRate : R := 0.3.
Definition nitroBoostPower : R := 0.35.

Record t : Type := mk {
  base : Vehicule.t;
  track : option Track.t;
  drift_factor : R;
  angle : R;
  laps : nat;
  checkpointsReached : nat;
  lastCheckpoint : nat;
  finished : bool;
  autoMode : bool;
  nitroFuel : R;
  nitroActive : bool;
  onOil : bool;
  oilTimer : nat;
  slowdownTimer : nat
}.

Definition position (p : t) : Vector := Vehicule.position (base p).
Definition velocity (p : t) : Vector := Vehicule.velocity (base p).
Definition maxspeed (p : t) : R := Vehicule.maxspeed (base p).
Definition maxforce (p : t) : R := Vehicule.maxforce (base p).

Definition set_base (p : t) (b : Vehicule.t) : t :=
  mk b (track p) (drift_factor p) (angle p) (laps p) (checkpointsReached p)
     (lastCheckpoint p) (finished p) (autoMode p) (nitroFuel p) (nitroActive p)
     (onOil p) (oilTimer p) (slowdownTimer p).
Definition set_velocity (p : t) (w : Vector) : t :=
  set_base p (Vehicule.set_velocity (base p) w).
Definition set_position (p : t) (w : Vector) : t :=
  set_base p (Vehicule.set_position (base p) w).
Definition set_drift_factor (p : t) (x : R) : t :=
  mk (base p) (track p) x (angle p) (laps p) (checkpointsReached p)
     (lastCheckpoint p) (finished p) (autoMode p) (nitroFuel p) (nitroActive p)
     (onOil p) (oilTimer p) (slowdownTimer p).
Definition set_angle (p : t) (x : R) : t :=
  mk (base p) (track p) (drift_factor p) x (laps p) (checkpointsReached p)
     (lastCheckpoint p) (finished p) (autoMode p) (nitroFuel p) (nitroActive p)
     (onOil p) (oilTimer p) (slowdownTimer p).
Definition set_progress (p : t) (l c k : nat) : t :=
  mk (base p) (track p) (drift_factor p) (angle p) l c k
     (finished p) (autoMode p) (nitroFuel p) (nitroActive p)
     (onOil p) (oilTimer p) (slowdownTimer p).
Definition set_finished (p : t) (b : bool) : t :=
  mk (base p) (track p) (drift_factor p) (angle p) (laps p) (checkpointsReached p)
     (lastCheckpoint p) b (autoMode p) (nitroFuel p) (nitroActive p)
     (onOil p) (oilTimer p) (slowdownTimer p).
Definition set_autoMode (p : t) (b : bool) : t :=
  mk (base p) (track p) (drift_factor p) (angle p) (laps p) (checkpointsReached p)
     (lastCheckpoint p) (finished p) b (nitroFuel p) (nitroActive p)
     (onOil p) (oilTimer p) (slowdownTimer p).
Definition set_nitroFuel (p : t) (x : R) : t :=
  mk (base p) (track p) (drift_factor p) (angle p) (laps p) (checkpointsReached p)
     (lastCheckpoint p) (finished p) (autoMode p) x (nitroActive p)
     (onOil p) (oilTimer p) (slowdownTimer p).
Definition set_nitroActive (p : t) (b : bool) : t :=
  mk (base p) (track p) (drift_factor p) (angle p) (laps p) (checkpointsReached p)
     (lastCheckpoint p) (finished p) (autoMode p) (nitroFuel p) b
     (onOil p) (oilTimer p) (slowdownTimer p).
Definition set_onOil (p : t) (b : bool) : t :=
  mk (base p) (track p) (drift_factor p) (angle p) (laps p) (checkpointsReached p)
     (lastCheckpoint p) (finished p) (autoMode p) (nitroFuel p) (nitroActive p)
     b (oilTimer p) (slowdownTimer p).
Definition set_oilTimer (p : t) (n : nat) : t :=
  mk (base p) (track p) (drift_factor p) (angle p) (laps p) (checkpointsReached p)
     (lastCheckpoint p) (finished p) (autoMode p) (nitroFuel p) (nitroActive p)
     (onOil p) n (slowdownTimer p).
Definition set_slowdownTimer (p : t) (n : nat) : t :=
  mk (base p) (track p) (drift_factor p) (angle p) (laps p) (checkpointsReached p)
     (lastCheckpoint p) (finished p) (autoMode p) (nitroFuel p) (nitroActive p)
     (onOil p) (oilTimer p) n.

(** The constructor: [super(x, y)], then the player's own values. *)
Definition new (x y : R) (tr : option Track.t) : t :=
  let b := Vehicule.new x y in
  let b := Vehicule.mk (Vehicule.position b) (Vehicule.velocity b)
             (Vehicule.acceleration b) 12 0.35 6 in
  let a :=
    match tr with
    | Some tk =>
        match Track.waypoints tk with
        | w0 :: w1 :: _ => p5.heading (p5.sub w1 w0)
        | _ => 0
        end
    | None => 0
    end in
  mk b tr 0.90 a 0 0 0 false false 100 false false 0 0.

Definition handleInput (p : t) (k : Keys) : t :=
  if finished p then p else
  let p :=
    if key_up k then
      let force := p5.fromAngle (angle p) in
      let force := p5.mult force acceleration_power in
      set_velocity p (p5.add (velocity p) force)
    else p in
  let p :=
    if key_down k then
      let force := p5.fromAngle (angle p) in
      let force := p5.mult force (- brake_power) in
      set_velocity p (p5.add (velocity p) force)
    else p in
  let speed := p5.mag (velocity p) in
  let p :=
    if Rgtb speed 0.5 then
      let p :=
        if key_left k
        then set_angle p (angle p - turn_speed * Rmin (speed / 3) 1)
        else p in
      if key_right k
      then set_angle p (angle p + turn_speed * Rmin (speed / 3) 1)
      else p
    else p in
  set_nitroActive p (key_nitro k && Rgtb (nitroFuel p) 0).

Definition handleAutoPilot (p : t) : option t :=
  match track p with
  | None => Some p
  | Some tr =>
    if (length (Track.waypoints tr) =? 0)%nat then Some p else
    let expectedNext := ((lastCheckpoint p + 1) mod length (Track.waypoints tr))%nat in
    target <- nth_error (Track.waypoints tr) expectedNext ;;
    let desired := p5.sub target (position p) in
    let distance := p5.mag desired in
    let desired := p5.normalize desired in
    let speed :=
      if Rltb distance 100
      then p5.map distance 0 100 2 (maxspeed p)
      else maxspeed p in
    let desired := p5.mult desired speed in
    let steer := p5.sub desired (velocity p) in
    let steer := p5.limit steer (maxforce p) in
    let p := set_velocity p (p5.add (velocity p) steer) in
    let p :=
      if Rgtb (p5.mag (velocity p)) 0.5
      then set_angle p (p5.heading (velocity p))
      else p in
    let obstacleForce :=
      Track.getObstacleAvoidanceForce tr (position p) (velocity p) 60 in
    let obstacleForce := p5.mult obstacleForce 2.0 in
    let p := set_velocity p (p5.add (velocity p) obstacleForce) in
    boundaryForce <- Track.getTrackBoundaryForce tr (position p) (velocity p) ;;
    let boundaryForce := p5.mult boundaryForce 1.5 in
    let p := set_velocity p (p5.add (velocity p) boundaryForce) in
    if Rgtb (p5.mag (velocity p)) 4 && Rgtb (nitroFuel p) 30
    then Some (set_nitroActive p true)
    else Some (set_nitroActive p false)
  end.

(** [updateNitro], without the exhaust particles. *)
Definition updateNitro (p : t) : t :=
  if nitroActive p && Rgtb (nitroFuel p) 0 then
    let boost := p5.fromAngle (angle p) in
    let boost := p5.mult boost nitroBoostPower in
    let p := set_velocity p (p5.add (velocity p) boost) in
    let p := set_nitroFuel p (nitroFuel p - nitroDrainRate) in
    set_nitroFuel p (Rmax 0 (nitroFuel p))
  else
    let p := set_nitroFuel p (nitroFuel p + nitroRechargeRate) in
    set_nitroFuel p (Rmin nitroMaxFuel (nitroFuel p)).

Definition handleObstacles (p : t) : t :=
  match track p with
  | None => p
  | Some tr =>
    let collision := Track.checkObstacleCollision tr (position p) in
    let p :=
      if hit collision then
        match c_type collision, c_obstacle collision with
        | Some cone, _ =>
            let p := set_velocity p (p5.mult (velocity p) 0.7) in
            set_slowdownTimer p 30
        | Some barrier, Some obstacle =>
            let bounceDir := p5.sub (position p) (o_position obstacle) in
            let bounceDir := p5.normalize bounceDir in
            let bounceDir := p5.mult bounceDir 3 in
            let p := set_velocity p (p5.add (velocity p) bounceDir) in
            set_velocity p (p5.mult (velocity p) 0.5)
        | Some oil, _ =>
            let p := set_onOil p true in
            set_oilTimer p 60
        | _, _ => p
        end
      else p in
    let p :=
      if (0 <? oilTimer p)%nat then
        let p := set_oilTimer p (oilTimer p - 1) in
        let p := set_drift_factor p 0.98 in
        if (oilTimer p <=? 0)%nat
        then set_onOil (set_drift_factor p 0.90) false
        else p
      else p in
    if (0 <? slowdownTimer p)%nat then
      let p := set_slowdownTimer p (slowdownTimer p - 1) in
      set_velocity p (p5.mult (velocity p) 0.98)
    else p
  end.

Definition handleBoundary (p : t) : option t :=
  match track p with
  | None => Some p
  | Some tr =>
    boundaryForce <- Track.getTrackBoundaryForce tr (position p) (velocity p) ;;
    if Rgtb (p5.mag boundaryForce) 0 then
      let p := set_velocity p (p5.mult (velocity p) 0.85) in
      let boundaryForce := p5.mult boundaryForce 2 in
      Some (set_velocity p (p5.add (velocity p) boundaryForce))
    else Some p
  end.

(** [checkWaypoints].  With no waypoint, [% 0] gives [NaN] in JavaScript
    and here an index past the end: either way the waypoint read is
    [undefined] and [p5.Vector.dist] throws. *)
Definition checkWaypoints (p : t) : option t :=
  match track p with
  | None => Some p
  | Some tr =>
    let n := length (Track.waypoints tr) in
    let expectedNext := ((lastCheckpoint p + 1) mod n)%nat in
    wp <- nth_error (Track.waypoints tr) expectedNext ;;
    let dist := p5.dist (position p) wp in
    if Rltb dist waypointReachDistance then
      let p := set_progress p (laps p) (checkpointsReached p) expectedNext in
      let p := set_progress p (laps p) (checkpointsReached p + 1) (lastCheckpoint p) in
      if (expectedNext =? 0)%nat && Rgeb (INR (checkpointsReached p)) (INR n * 0.8)
      then Some (set_progress p (laps p + 1) 0 (lastCheckpoint p))
      else Some p
    else Some p
  end.

(** The speed limit of the frame: higher while the nitro is active. *)
Definition currentMaxSpeed (p : t) : R :=
  if nitroActive p then nitroMaxspeed else maxspeed p.

(** The first half of [update], from the controls to the integration
    [this.position.add(this.velocity)]. *)
Definition integrate (p : t) (k : Keys) : option t :=
  p <- (if autoMode p then handleAutoPilot p else Some (handleInput p k)) ;;
  let p := updateNitro p in
  let p := set_velocity p (p5.mult (velocity p) friction) in
  let facingDir := p5.fromAngle (angle p) in
  let forwardSpeed := p5.dot (velocity p) facingDir in
  let forwardVel := p5.mult facingDir forwardSpeed in
  let p := set_velocity p (p5.lerp (velocity p) forwardVel (1 - drift_factor p)) in
  let p := set_velocity p (p5.limit (velocity p) (currentMaxSpeed p)) in
  Some (set_position p (p5.add (position p) (velocity p))).

(** The second half of [update]: what runs after the integration. *)
Definition afterIntegration (p : t) : option t :=
  p <- handleBoundary p ;;
  let p := handleObstacles p in
  p <- checkWaypoints p ;;
  Some (set_base p (Vehicule.edges (base p))).

Definition update (p : t) (k : Keys) : option t :=
  if finished p then Some p else
  p <- integrate p k ;;
  afterIntegration p.

(** [getLapProgress]: the share of the lap done, in per cent.  On a
    track without waypoints the division is by zero and the result is
    [NaN] or [Infinity], no number of the model: [None]. *)
Definition getLapProgress (p : t) : option R :=
  match track p with
  | None => Some 0
  | Some tr =>
      if (length (Track.waypoints tr) =? 0)%nat then None
      else Some (INR (lastCheckpoint p) / INR (length (Track.waypoints tr)) * 100)
  end.

Definition getNitroPercent (p : t) : R := nitroFuel p / nitroMaxFuel * 100.

(** [reset(startPos, track)]: back to the start of a race.  The angle is
    set only on a track of two waypoints or more; the autopilot flag, the
    drift factor and the two obstacle timers are not touched. *)
Definition reset (p : t) (startPos : Vector) (tr : option Track.t) : t :=
  let p := set_position p startPos in
  let p := set_velocity p (createVector 0 0) in
  let p := mk (base p) tr (drift_factor p) (angle p) (laps p) (checkpointsReached p)
              (lastCheckpoint p) (finished p) (autoMode p) (nitroFuel p) (nitroActive p)
              (onOil p) (oilTimer p) (slowdownTimer p) in
  let p := set_progress p 0 0 0 in
  let p := set_finished p false in
  let p := set_nitroFuel p nitroMaxFuel in
  let p := set_nitroActive p false in
  match tr with
  | Some tk =>
      match Track.waypoints tk with
      | w0 :: w1 :: _ => set_angle p (p5.heading (p5.sub w1 w0))
      | _ => p
      end
  | None => p
  end.

End PlayerCar.

(** ** FollowerCar.js: the AI opponents *)

Module FollowerCar.

(** The fields that the constructor sets and nothing changes afterwards. *)
Definition waypointReachDistance : R := 55.
Definition pathWeight : R := 1.5.
Definition separationWeight : R := 2.5.
Definition boundaryWeight : R := 2.0.
Definition desiredSeparation : R := 50.

Record t : Type := mk {
  base : Vehicule.t;
  track : option Track.t;
  currentWaypointIndex : nat;
  laps : nat;
  checkpointsReached : nat;
  lastCheckpoint : nat;
  finished : bool
}.

Definition position (f : t) : Vector := Vehicule.position (base f).
Definition velocity (f : t) : Vector := Vehicule.velocity (base f).
Definition maxspeed (f : t) : R := Vehicule.maxspeed (base f).
Definition maxforce (f : t) : R := Vehicule.maxforce (base f).

Definition set_base (f : t) (b : Vehicule.t) : t :=
  mk b (track f) (currentWaypointIndex f) (laps f) (checkpointsReached f)
     (lastCheckpoint f) (finished f).
Definition set_currentWaypointIndex (f : t) (i : nat) : t :=
  mk (base f) (track f) i (laps f) (checkpointsReached f)
     (lastCheckpoint f) (finished f).
Definition set_laps (f : t) (n : nat) : t :=
  mk (base f) (track f) (currentWaypointIndex f) n (checkpointsReached f)
     (lastCheckpoint f) (finished f).
Definition set_checkpointsReached (f : t) (n : nat) : t :=
  mk (base f) (track f) (currentWaypointIndex f) (laps f) n
     (lastCheckpoint f) (finished f).
Definition set_lastCheckpoint (f : t) (n : nat) : t :=
  mk (base f) (track f) (currentWaypointIndex f) (laps f) (checkpointsReached f)
     n (finished f).

(** The constructor: [super(x, y)], then the opponent's own values. *)
Definition new (x y : R) (tr : option Track.t) : t :=
  let b := Vehicule.new x y in
  let b := Vehicule.mk (Vehicule.position b) (Vehicule.velocity b)
             (Vehicule.acceleration b) 10 0.24 4.0 in
  mk b tr 0 0 0 0 false.

(** [followPath] advances the waypoint and lap counters of the car and
    returns the steering force towards the current waypoint. *)
Definition followPath (f : t) : option (t * Vector) :=
  match track f with
  | None => Some (f, createVector 0 0)
  | Some tr =>
    let n := length (Track.waypoints tr) in
    target <- nth_error (Track.waypoints tr) (currentWaypointIndex f) ;;
    let distance := p5.dist (position f) target in
    let f :=
      if Rltb distance waypointReachDistance then
        let f := set_currentWaypointIndex f ((currentWaypointIndex f + 1) mod n)%nat in
        let f := set_lastCheckpoint f (currentWaypointIndex f) in
        let f := set_checkpointsReached f (checkpointsReached f + 1) in
        if (currentWaypointIndex f =? 0)%nat
           && Rgeb (INR (checkpointsReached f)) (INR n * 0.8)
        then set_checkpointsReached (set_laps f (laps f + 1)) 0
        else f
      else f in
    target <- nth_error (Track.waypoints tr) (currentWaypointIndex f) ;;
    Some (f, Vehicule.seek (base f) target)
  end.

Definition avoidBoundary (f : t) : option Vector :=
  match track f with
  | None => Some (createVector 0 0)
  | Some tr => Track.getTrackBoundaryForce tr (position f) (velocity f)
  end.

Definition avoidCar (f : t) (carPosition : Vector) : Vector :=
  let distance := p5.dist (position f) carPosition in
  if Rgtb distance 0 && Rltb distance desiredSeparation then
    let diff := p5.sub (position f) carPosition in
    let diff := p5.normalize diff in
    p5.div diff distance
  else createVector 0 0.

(** The loop of [separate] over [vehicles]; [self] is the index of the
    car itself in that array, skipped by [other === this]. *)
Fixpoint separate_loop (f : t) (self : nat) (vehicles : list t) (i : nat)
    (steer : Vector) (count : nat) : Vector * nat :=
  match vehicles with
  | [] => (steer, count)
  | other :: rest =>
      if (i =? self)%nat then separate_loop f self rest (S i) steer count else
      let distance := p5.dist (position f) (position other) in
      if Rgtb distance 0 && Rltb distance desiredSeparation then
        let diff := p5.sub (position f) (position other) in
        let diff := p5.normalize diff in
        let diff := p5.div diff distance in
        separate_loop f self rest (S i) (p5.add steer diff) (S count)
      else separate_loop f self rest (S i) steer count
  end.

Definition separate (f : t) (self : nat) (vehicles : list t) : Vector :=
  let '(steer, count) := separate_loop f self vehicles 0 (createVector 0 0) 0 in
  let steer := if (0 <? count)%nat then p5.div steer (INR count) else steer in
  if Rgtb (p5.mag steer) 0 then
    let steer := p5.setMag steer (maxspeed f) in
    let steer := p5.sub steer (velocity f) in
    p5.limit steer (maxforce f * 2)
  else steer.

Definition applyForce (f : t) (force : Vector) : t :=
  set_base f (Vehicule.applyForce (base f) force).

Definition applyBehaviors (f : t) (self : nat) (vehicles : list t)
    (targetCar : Vector) : option t :=
  if finished f then Some f else
  r <- followPath f ;;
  let '(f, pathForce) := r in
  let pathForce := p5.mult pathForce pathWeight in
  let separationForce := separate f self vehicles in
  let separationForce := p5.mult separationForce separationWeight in
  let playerAvoid := avoidCar f targetCar in
  let playerAvoid := p5.mult playerAvoid 2.0 in
  boundaryForce <- avoidBoundary f ;;
  let boundaryForce := p5.mult boundaryForce boundaryWeight in
  let f := applyForce f pathForce in
  let f := applyForce f separationForce in
  let f := applyForce f playerAvoid in
  Some (applyForce f boundaryForce).

Definition update (f : t) : t :=
  if finished f then f else
  let f := set_base f (Vehicule.update (base f)) in
  set_base f (Vehicule.edges (base f)).

Definition getRaceProgress (f : t) : nat :=
  match track f with
  | None => 0
  | Some tr => laps f * length (Track.waypoints tr) + lastCheckpoint f
  end%nat.

(** [reset(spawnPos, waypointIndex, track)].  The track is read without a
    guard: on a track without waypoints the waypoint read for the start
    direction is [undefined] and [p5.Vector.sub] throws; so it does when
    there is no track at all. *)
Definition reset (f : t) (spawnPos : Vector) (waypointIndex : nat)
    (tr : option Track.t) : option t :=
  let f := set_base f (Vehicule.set_position (base f) spawnPos) in
  let f := set_base f (Vehicule.set_velocity (base f) (createVector 0 0)) in
  let f := mk (base f) tr waypointIndex (laps f) (checkpointsReached f)
              waypointIndex (finished f) in
  let f := set_laps f 0 in
  let f := set_checkpointsReached f 0 in
  let f := mk (base f) (track f) (currentWaypointIndex f) (laps f)
              (checkpointsReached f) (lastCheckpoint f) false in
  tk <- tr ;;
  let nextIdx := ((waypointIndex + 1) mod length (Track.waypoints tk))%nat in
  w <- nth_error (Track.waypoints tk) nextIdx ;;
  let dir := p5.sub w spawnPos in
  let dir := p5.normalize dir in
  let dir := p5.mult dir 2 in
  Some (set_base f (Vehicule.set_velocity (base f) dir)).

End FollowerCar.

(** ** sketch.js: the game loop *)

Inductive GameState : Type :=
  menu | levelSelect | playing | levelComplete | raceLost | gameOver.

Inductive Winner : Type := winner_player | winner_ai.

Definition MAX_LEVEL : Z := 10.
Definition LAPS_TO_WIN : nat := 2.

(** The global variables of the sketch that the simulation reads or
    writes; [unlockedLevel] is the field of [levelSelect]. *)
Record Game : Type := mkGame {
  gameState : GameState;
  currentLevel : Z;
  track : Track.t;
  playerCar : PlayerCar.t;
  aiCars : list FollowerCar.t;
  raceFinished : bool;
  winner : option Winner;
  unlockedLevel : Z
}.

(** The progress numbers that [updateRacePositions] sorts the racers by. *)
Definition playerProgress (tr : Track.t) (p : PlayerCar.t) : nat :=
  (PlayerCar.laps p * length (Track.waypoints tr) + PlayerCar.lastCheckpoint p)%nat.
Definition aiProgress (tr : Track.t) (ai : FollowerCar.t) : nat :=
  (FollowerCar.laps ai * length (Track.waypoints tr) + FollowerCar.lastCheckpoint ai)%nat.

(** [levelSelect.unlockLevel]. *)
Definition unlockLevel (unlocked level : Z) : Z :=
  if (level >? unlocked)%Z then level else unlocked.

(** The loop [for (let ai of aiCars)] of [checkRaceFinished]. *)
Fixpoint checkRaceFinished_ai (g : Game) (cars : list FollowerCar.t) : Game :=
  match cars with
  | [] => g
  | ai :: rest =>
      if (LAPS_TO_WIN <=? FollowerCar.laps ai)%nat && negb (raceFinished g)
      then mkGame raceLost (currentLevel g) (track g) (playerCar g) (aiCars g)
                  true (Some winner_ai) (unlockedLevel g)
      else checkRaceFinished_ai g rest
  end.

Definition checkRaceFinished (g : Game) : Game :=
  if (LAPS_TO_WIN <=? PlayerCar.laps (playerCar g))%nat && negb (raceFinished g)
  then
    mkGame (if (currentLevel g >=? MAX_LEVEL)%Z then gameOver else levelComplete)
           (currentLevel g) (track g)
           (PlayerCar.set_finished (playerCar g) true) (aiCars g)
           true (Some winner_player)
           (unlockLevel (unlockedLevel g) (currentLevel g + 1))
  else checkRaceFinished_ai g (aiCars g).

(** Replace the element at index [i]: the cars are objects of one shared
    array, and each one is changed in place. *)
Fixpoint replace_at {A : Type} (l : list A) (i : nat) (a : A) : list A :=
  match l, i with
  | [], _ => []
  | _ :: rest, O => a :: rest
  | x :: rest, S j => x :: replace_at rest j a
  end.

(** The loop [for (let ai of aiCars)] of [updateGame]: the car at index
    [i] steers against the array as the cars before it left it. *)
Fixpoint updateAI (cars : list FollowerCar.t) (player : PlayerCar.t)
    (i todo : nat) : option (list FollowerCar.t) :=
  match todo with
  | O => Some cars
  | S todo' =>
      ai <- nth_error cars i ;;
      ai <- FollowerCar.applyBehaviors ai i cars (PlayerCar.position player) ;;
      let ai := FollowerCar.update ai in
      updateAI (replace_at cars i ai) player (S i) todo'
  end.

Definition updateGame (g : Game) (k : Keys) : option Game :=
  p <- PlayerCar.update (playerCar g) k ;;
  cars <- updateAI (aiCars g) p 0 (length (aiCars g)) ;;
  Some (checkRaceFinished
          (mkGame (gameState g) (currentLevel g) (track g) p cars
                  (raceFinished g) (winner g) (unlockedLevel g))).

(** One frame: [draw] runs the simulation only in the state [playing];
    the other screens only draw. *)
Definition draw (g : Game) (k : Keys) : option Game :=
  match gameState g with
  | playing => updateGame g k
  | _ => Some g
  end.

(** A run of frames, one set of held keys per frame. *)
Fixpoint frames (g : Game) (ks : list Keys) : option Game :=
  match ks with
  | [] => Some g
  | k :: rest => g' <- draw g k ;; frames g' rest
  end.

(** ** Random numbers

    [random()] of p5 draws from a global generator.  The generator is
    modelled by the stream of its draws, each in [0, 1), and a function
    that draws carries the count of the draws made so far. *)

Definition Random : Type := nat -> R.

(** [random(min, max)] on a draw [u]: the bounds are swapped when they
    come in the wrong order. *)
Definition randomBetween (u min max : R) : R :=
  if Rgtb min max then u * (min - max) + max else u * (max - min) + min.

(** [floor]. *)
Definition floor (x : R) : Z := Int_part x.

(** Reading an array at a number: [undefined], here [None], when the
    index is negative or past the end. *)
Definition at_index {A : Type} (l : list A) (i : Z) : option A :=
  if (i <? 0)%Z then None else nth_error l (Z.to_nat i).

(** ** Track.js: the construction of a track *)

Record ControlPoint : Type := mkControlPoint {
  cp_angle : R;
  cp_dx : R;
  cp_dy : R;
  cp_spread : R
}.

Module Circuit.

Definition numPoints : nat := 80.

(** [getControlPoints]: the bumps of a level, pushed in this order. *)
Definition getControlPoints (level : Z) : list ControlPoint :=
  (if (level >=? 1)%Z
   then [mkControlPoint 0 25 0 0.6; mkControlPoint PI (-25) 0 0.6] else [])
  ++ (if (level >=? 2)%Z then [mkControlPoint 0.8 (-60) (-30) 0.35] else [])
  ++ (if (level >=? 3)%Z
      then [mkControlPoint 2.5 40 50 0.4; mkControlPoint 3.2 (-40) (-40) 0.35] else [])
  ++ (if (level >=? 4)%Z then [mkControlPoint 4.5 (-70) 20 0.25] else [])
  ++ (if (level >=? 5)%Z
      then [mkControlPoint 5.5 40 (-35) 0.3; mkControlPoint 1.5 (-30) 30 0.25] else [])
  ++ (if (level >=? 6)%Z then [mkControlPoint 3.8 50 (-30) 0.25] else [])
  ++ (if (level >=? 7)%Z then [mkControlPoint 0.3 (-40) 20 0.2] else [])
  ++ (if (level >=? 8)%Z then [mkControlPoint 5.0 (-35) (-25) 0.2] else [])
  ++ (if (level >=? 9)%Z then [mkControlPoint 1.0 30 35 0.2] else [])
  ++ (if (level >=? 10)%Z
      then [mkControlPoint 4.0 25 (-20) 0.18; mkControlPoint 2.0 (-25) 20 0.18] else []).

(** [smoothInfluence]: a cosine bump around [targetAngle].  Every control
    point has a spread above 0; with the spread 0 and equal angles the
    code divides 0 by 0. *)
Definition smoothInfluence (angle targetAngle spread : R) : R :=
  let diff := Rabs (angle - targetAngle) in
  let diff := if Rgtb diff PI then 2 * PI - diff else diff in
  if Rgtb diff (spread * PI) then 0
  else cos (diff / (spread * PI) * (PI / 2)).

(** The radii at an angle: the loop over the control points in
    [generateCircuit]. *)
Definition radii (controlPoints : list ControlPoint) (angle : R) : R * R :=
  fold_left
    (fun r cp =>
       let influence := smoothInfluence angle (cp_angle cp) (cp_spread cp) in
       (fst r + cp_dx cp * influence, snd r + cp_dy cp * influence))
    controlPoints (width * 0.40, height * 0.40).

(** The waypoint that the iteration [i] of [generateCircuit] pushes. *)
Definition waypointAt (controlPoints : list ControlPoint) (i : nat) : Vector :=
  let centerX := width / 2 in
  let centerY := height / 2 in
  let t := INR i / INR numPoints in
  let angle := t * (2 * PI) in
  let '(rx, ry) := radii controlPoints angle in
  createVector (centerX + cos angle * rx) (centerY + sin angle * ry).

(** [generateCircuit]: the waypoints, in the order they are pushed. *)
Definition generateCircuit (level : Z) : list Vector :=
  let controlPoints := getControlPoints level in
  List.map (waypointAt controlPoints) (seq 0 numPoints).

(** The unit normal of the track at the waypoint [i]: the direction from
    the previous to the next waypoint, turned by a quarter.  The index
    [(i - 1 + n) % n] of the previous waypoint is [n - 1] at [i = 0]; on
    natural numbers the addition comes first. *)
Definition perpAt (waypoints : list Vector) (i : nat) : option Vector :=
  let n := length waypoints in
  next <- nth_error waypoints ((i + 1) mod n)%nat ;;
  prev <- nth_error waypoints ((i + n - 1) mod n)%nat ;;
  let forward := p5.sub next prev in
  let forward := p5.normalize forward in
  Some (createVector (- vy forward) (vx forward)).

(** The loop of [calculateEdges] from the index [i] on, [todo] waypoints
    to go; it returns [innerEdge] and [outerEdge]. *)
Fixpoint calculateEdges_loop (waypoints : list Vector) (trackWidth : R)
    (i todo : nat) : option (list Vector * list Vector) :=
  match todo with
  | O => Some ([], [])
  | S todo' =>
      current <- nth_error waypoints i ;;
      perp <- perpAt waypoints i ;;
      let halfWidth := trackWidth / 2 in
      rest <- calculateEdges_loop waypoints trackWidth (S i) todo' ;;
      Some (p5.add current (p5.mult perp halfWidth) :: fst rest,
            p5.sub current (p5.mult perp halfWidth) :: snd rest)
  end.

Definition calculateEdges (waypoints : list Vector) (trackWidth : R)
    : option (list Vector * list Vector) :=
  calculateEdges_loop waypoints trackWidth 0 (length waypoints).

(** The number of obstacles of each kind at a level. *)
Definition numCones (level : Z) : Z := Z.min (level + 2) 12.
Definition numBarriers (level : Z) : Z :=
  if (level >=? 4)%Z then Z.min (level - 2) 6 else 0%Z.
Definition numOilSlicks (level : Z) : Z :=
  if (level >=? 7)%Z then Z.min (level - 5) 4 else 0%Z.

(** One obstacle: two draws, the first for the waypoint index
    [floor(random(lo, total - lo))], the second for the offset across the
    track, a function [offsetOf] of the draw. *)
Definition placeObstacle (waypoints : list Vector) (kind : ObstacleType)
    (radius lo : R) (offsetOf : R -> R) (rnd : Random) (draws : nat)
    : option (Obstacle * nat) :=
  let totalWaypoints := Z.of_nat (length waypoints) in
  let waypointIdx :=
    floor (randomBetween (rnd draws) lo (IZR totalWaypoints - lo)) in
  wp <- at_index waypoints waypointIdx ;;
  next <- at_index waypoints (Z.rem (waypointIdx + 1) totalWaypoints) ;;
  prev <- at_index waypoints (Z.rem (waypointIdx - 1 + totalWaypoints) totalWaypoints) ;;
  let forward := p5.sub next prev in
  let forward := p5.normalize forward in
  let perp := createVector (- vy forward) (vx forward) in
  let offset := offsetOf (rnd (S draws)) in
  let position := p5.add wp (p5.mult perp offset) in
  Some (mkObstacle kind position radius (Z.to_nat waypointIdx), S (S draws)).

(** A loop [for (let i = 0; i < count; i++)] that pushes one obstacle per
    iteration. *)
Fixpoint placeMany (count : nat) (place : nat -> option (Obstacle * nat))
    (draws : nat) : option (list Obstacle * nat) :=
  match count with
  | O => Some ([], draws)
  | S count' =>
      o <- place draws ;;
      rest <- placeMany count' place (snd o) ;;
      Some (fst o :: fst rest, snd rest)
  end.

(** [generateObstacles]: cones on the edges, then barriers near the
    centre, then oil slicks; nothing on a track of fewer than 10
    waypoints. *)
Definition generateObstacles (level : Z) (waypoints : list Vector) (trackWidth : R)
    (rnd : Random) (draws : nat) : option (list Obstacle * nat) :=
  if (length waypoints <? 10)%nat then Some ([], draws) else
  cones <- placeMany (Z.to_nat (numCones level))
             (placeObstacle waypoints cone 12 5
                (fun u => (trackWidth / 2 - 20) * (if Rgtb u 0.5 then 1 else -1)) rnd)
             draws ;;
  barriers <- placeMany (Z.to_nat (numBarriers level))
                (placeObstacle waypoints barrier 25 10
                   (fun u => randomBetween u (- trackWidth / 4) (trackWidth / 4)) rnd)
                (snd cones) ;;
  oils <- placeMany (Z.to_nat (numOilSlicks level))
            (placeObstacle waypoints oil 30 15
               (fun u => randomBetween u (- trackWidth / 3) (trackWidth / 3)) rnd)
            (snd barriers) ;;
  Some (fst cones ++ fst barriers ++ fst oils, snd oils).

(** The constructor [new Track(level)]: the width, the circuit with its
    edges, which only the drawing reads, then the obstacles. *)
Definition new (level : Z) (rnd : Random) (draws : nat) : option (Track.t * nat) :=
  let trackWidth := IZR (Track.getTrackWidth level) in
  let waypoints := generateCircuit level in
  edges <- calculateEdges waypoints trackWidth ;;
  obs <- generateObstacles level waypoints trackWidth rnd draws ;;
  Some (Track.mk level waypoints trackWidth (fst obs), snd obs).

End Circuit.

(** ** LeaderCar.js: a car that only follows the track *)

Module LeaderCar.

Definition waypointReachDistance : R := 35.

Record t : Type := mk {
  base : Vehicule.t;
  track : option Track.t;
  currentWaypointIndex : nat
}.

Definition new (x y : R) (tr : option Track.t) : t :=
  let b := Vehicule.new x y in
  let b := Vehicule.mk (Vehicule.position b) (Vehicule.velocity b)
             (Vehicule.acceleration b) 12 0.28 5.5 in
  mk b tr 0.

Definition followPath (c : t) : option t :=
  match track c with
  | None => Some c
  | Some tr =>
    if (length (Track.waypoints tr) =? 0)%nat then Some c else
    target <- nth_error (Track.waypoints tr) (currentWaypointIndex c) ;;
    let distance := p5.dist (Vehicule.position (base c)) target in
    let c :=
      if Rltb distance waypointReachDistance
      then mk (base c) (track c)
              ((currentWaypointIndex c + 1) mod length (Track.waypoints tr))%nat
      else c in
    target <- nth_error (Track.waypoints tr) (currentWaypointIndex c) ;;
    let steerForce := Vehicule.seek (base c) target in
    Some (mk (Vehicule.applyForce (base c) steerForce) (track c) (currentWaypointIndex c))
  end.

Definition avoidBoundary (c : t) : option t :=
  match track c with
  | None => Some c
  | Some tr =>
    boundaryForce <- Track.getTrackBoundaryForce tr (Vehicule.position (base c))
                       (Vehicule.velocity (base c)) ;;
    let boundaryForce := p5.mult boundaryForce 1.2 in
    Some (mk (Vehicule.applyForce (base c) boundaryForce) (track c) (currentWaypointIndex c))
  end.

Definition update (c : t) : option t :=
  c <- followPath c ;;
  c <- avoidBoundary c ;;
  let c := mk (Vehicule.update (base c)) (track c) (currentWaypointIndex c) in
  Some (mk (Vehicule.edges (base c)) (track c) (currentWaypointIndex c)).

End LeaderCar.

(** ** LevelSelect.js: the level menu

    The drawing, the track previews and the storage of the progress are
    left out. *)

Module LevelSelect.

Definition cols : nat := 5.
Definition rows : nat := 2.
Definition cardWidth : R := 160.
Definition cardHeight : R := 120.
Definition padding : R := 20.

Record t : Type := mk {
  unlockedLevel : Z;
  selectedLevel : Z;
  hoveredLevel : Z;
  startX : R;
  startY : R
}.

(** [calculateLayout]: the grid of cards, centred on the canvas. *)
Definition calculateLayout (s : t) : t :=
  let totalWidth := INR cols * cardWidth + (INR cols - 1) * padding in
  let totalHeight := INR rows * cardHeight + (INR rows - 1) * padding in
  mk (unlockedLevel s) (selectedLevel s) (hoveredLevel s)
     ((width - totalWidth) / 2) ((height - totalHeight) / 2 + 30).

(** Whether the point is on the card of index [i]. *)
Definition onCard (s : t) (mx my : R) (i : nat) : bool :=
  let col := (i mod cols)%nat in
  let row := (i / cols)%nat in
  let x := startX s + INR col * (cardWidth + padding) in
  let y := startY s + INR row * (cardHeight + padding) in
  Rgeb mx x && Rleb mx (x + cardWidth) && Rgeb my y && Rleb my (y + cardHeight).

(** The loop [for (let i = 0; i < 10; i++)] of [handleClick] and of
    [handleMouseMove]: the level of the first card under the point. *)
Fixpoint firstCard (s : t) (mx my : R) (i todo : nat) : option Z :=
  match todo with
  | O => None
  | S todo' =>
      if onCard s mx my i then Some (Z.of_nat i + 1)%Z
      else firstCard s mx my (S i) todo'
  end.

Definition handleMouseMove (s : t) (mx my : R) : t :=
  match firstCard s mx my 0 10 with
  | Some level => mk (unlockedLevel s) (selectedLevel s) level (startX s) (startY s)
  | None => mk (unlockedLevel s) (selectedLevel s) (-1) (startX s) (startY s)
  end.

(** [handleClick]: the new state and the level returned, [-1] for a
    click on no card. *)
Definition handleClick (s : t) (mx my : R) : t * Z :=
  match firstCard s mx my 0 10 with
  | Some level =>
      (mk (unlockedLevel s) level (hoveredLevel s) (startX s) (startY s), level)
  | None => (s, (-1)%Z)
  end.

Definition canStartSelected (s : t) : bool := (selectedLevel s <=? unlockedLevel s)%Z.

Definition getSelectedLevel (s : t) : Z := selectedLevel s.

Definition resetProgress (s : t) : t :=
  mk 1 (selectedLevel s) (hoveredLevel s) (startX s) (startY s).

(** The numbers of [getLevelInfo]; the name and the difficulty label are
    texts for the card. *)
Definition levelInfo_aiCount (level : Z) : Z := Z.min (4 + level) 10.
Definition levelInfo_laps : nat := 2.

End LevelSelect.

(** ** sketch.js: the start of a level and the ranking *)

(** The number of opponents of a level. *)
Definition numCars (level : Z) : Z := Z.min (3 + level) 10.

(** One iteration of the loop of [createAICars].  The constructor of the
    opponent draws twice (its colour and its number) before the speed is
    drawn. *)
Definition createAICar (level : Z) (tr : Track.t) (startPos startDir perpDir : Vector)
    (rnd : Random) (draws : nat) (i : nat) : FollowerCar.t * nat :=
  let baseSpeed := 2.5 + IZR level * 0.35 in
  let speedVariation := 0.25 in
  let row := (INR (i / 2) + 1) in
  let col := (INR (i mod 2) * 2 - 1) in
  let offset := p5.mult startDir (- row * 35) in
  let sideOffset := p5.mult perpDir (col * 20) in
  let spawnPos := p5.add startPos offset in
  let spawnPos := p5.add spawnPos sideOffset in
  let ai := FollowerCar.new (vx spawnPos) (vy spawnPos) (Some tr) in
  let draws := S (S draws) in
  let ai := FollowerCar.set_currentWaypointIndex ai 0 in
  let ai := FollowerCar.set_lastCheckpoint ai 0 in
  let ai := FollowerCar.set_laps ai 0 in
  let ai := FollowerCar.set_checkpointsReached ai 0 in
  let maxspeed := baseSpeed + randomBetween (rnd draws) (- speedVariation) speedVariation in
  let draws := S draws in
  let maxforce := 0.18 + IZR level * 0.025 in
  let b := FollowerCar.base ai in
  let b := Vehicule.mk (Vehicule.position b) (p5.mult startDir 1.5)
             (Vehicule.acceleration b) (Vehicule.r b) maxforce maxspeed in
  (FollowerCar.set_base ai b, draws).

Fixpoint createAICars_loop (level : Z) (tr : Track.t)
    (startPos startDir perpDir : Vector) (rnd : Random) (draws : nat)
    (i todo : nat) : list FollowerCar.t * nat :=
  match todo with
  | O => ([], draws)
  | S todo' =>
      let '(ai, draws) := createAICar level tr startPos startDir perpDir rnd draws i in
      let '(rest, draws) :=
        createAICars_loop level tr startPos startDir perpDir rnd draws (S i) todo' in
      (ai :: rest, draws)
  end.

(** [createAICars]: the grid of opponents behind the start line.  The
    start direction needs the waypoints 0 and 1. *)
Definition createAICars (level : Z) (tr : Track.t) (rnd : Random) (draws : nat)
    : option (list FollowerCar.t * nat) :=
  startPos <- nth_error (Track.waypoints tr) 0 ;;
  nextWp <- nth_error (Track.waypoints tr) 1 ;;
  let startDir := p5.sub nextWp startPos in
  let startDir := p5.normalize startDir in
  let perpDir := createVector (- vy startDir) (vx startDir) in
  Some (createAICars_loop level tr startPos startDir perpDir rnd draws 0
          (Z.to_nat (numCars level))).

(** [initLevel]: a new track, the player on the start line and the
    opponents behind it; [unlocked] is the progress kept by the menu. *)
Definition initLevel (level unlocked : Z) (rnd : Random) (draws : nat)
    : option (Game * nat) :=
  r <- Circuit.new level rnd draws ;;
  let '(tr, draws) := r in
  startPos <- nth_error (Track.waypoints tr) 0 ;;
  let player := PlayerCar.new (vx startPos) (vy startPos) (Some tr) in
  let player :=
    match Track.waypoints tr with
    | w0 :: w1 :: _ =>
        let dir := p5.sub w1 w0 in
        let dir := p5.normalize dir in
        let dir := p5.mult dir 2 in
        PlayerCar.set_velocity player dir
    | _ => player
    end in
  r <- createAICars level tr rnd draws ;;
  let '(cars, draws) := r in
  Some (mkGame playing level tr player cars false None unlocked, draws).

(** [mousePressed] in the state [levelSelect]: the menu after the click,
    and the level that [initLevel] is called with, if any. *)
Definition mousePressed_levelSelect (s : LevelSelect.t) (mx my : R)
    : LevelSelect.t * option Z :=
  let '(s, clickedLevel) := LevelSelect.handleClick s mx my in
  if (clickedLevel >? 0)%Z && (clickedLevel <=? LevelSelect.unlockedLevel s)%Z
  then
    if (LevelSelect.selectedLevel s =? clickedLevel)%Z
    then (s, Some clickedLevel)
    else (s, None)
  else (s, None).

(** The entries of [racePositions]. *)
Inductive RacerType : Type := racer_player | racer_ai (index : nat).

Record Racer : Type := mkRacer {
  r_type : RacerType;
  r_progress : nat;
  r_laps : nat
}.

(** The racers in the order [updateRacePositions] collects them: the
    player, then the opponents by index. *)
Fixpoint aiRacers (tr : Track.t) (cars : list FollowerCar.t) (i : nat) : list Racer :=
  match cars with
  | [] => []
  | ai :: rest =>
      mkRacer (racer_ai i) (aiProgress tr ai) (FollowerCar.laps ai)
      :: aiRacers tr rest (S i)
  end.

Definition racers (g : Game) : list Racer :=
  mkRacer racer_player (playerProgress (track g) (playerCar g))
          (PlayerCar.laps (playerCar g))
  :: aiRacers (track g) (aiCars g) 0.

(** [racers.sort((a, b) => b.progress - a.progress)]: the sort of
    JavaScript is stable, so the result is the one of this insertion
    sort, which never moves a racer past another of the same progress. *)
Fixpoint insertRacer (x : Racer) (l : list Racer) : list Racer :=
  match l with
  | [] => [x]
  | y :: rest =>
      if (r_progress y <=? r_progress x)%nat then x :: y :: rest
      else y :: insertRacer x rest
  end.

Fixpoint sortRacers (l : list Racer) : list Racer :=
  match l with
  | [] => []
  | x :: rest => insertRacer x (sortRacers rest)
  end.

(** The loop that finds the player: its rank, one-based. *)
Fixpoint findPlayer (l : list Racer) (i : nat) : option nat :=
  match l with
  | [] => None
  | x :: rest =>
      match r_type x with
      | racer_player => Some (i + 1)%nat
      | racer_ai _ => findPlayer rest (S i)
      end
  end.

(** [updateRacePositions]: [racePositions] and [playerPosition]; the
    position keeps its old value if the loop finds no player. *)
Definition updateRacePositions (g : Game) (playerPosition : nat) : list Racer * nat :=
  let sorted := sortRacers (racers g) in
  (sorted, match findPlayer sorted 0 with
           | Some n => n
           | None => playerPosition
           end).

(** * The vocabulary of the statements

    Predicates in which the properties are stated, the frame of a run, and
    the concrete tracks and cars on which the code is evaluated. *)

(** A track of one waypoint at the origin, of the width of level 10. *)
Definition oneWaypointTrack : Track.t :=
  Track.mk 10 [createVector 0 0] 100 [].

(** Whether an obstacle takes part in the avoidance force: it is closer
    than [lookAhead + radius] and lies ahead, the dot product of the unit
    velocity and the unit offset being above 0.3. *)
Definition qualifies (position velocity : Vector) (lookAhead : R) (obs : Obstacle) : bool :=
  let toObs := p5.sub (o_position obs) position in
  Rltb (p5.mag toObs) (lookAhead + o_radius obs)
  && Rgtb (p5.dot (p5.normalize velocity) (p5.normalize toObs)) 0.3.

(** The unit vector perpendicular to the offset of the obstacle. *)
Definition perpendicular (position : Vector) (obs : Obstacle) : Vector :=
  let toObs := p5.sub (o_position obs) position in
  p5.normalize (createVector (- vy toObs) (vx toObs)).

(** The factor of the deflection in the code: [map(dist, 0, lookAhead, 1.5, 0.3)]. *)
Definition avoidScale (dist lookAhead : R) : R := p5.map dist 0 lookAhead 1.5 0.3.

(** The factor as the spec words it: a linear map from [lookAhead] to 1.5
    down to 0 to 0.3. *)
Definition spec_avoidScale (dist lookAhead : R) : R := p5.map dist lookAhead 0 1.5 0.3.

Definition deflection (position : Vector) (lookAhead : R) (obs : Obstacle) : Vector :=
  p5.mult (perpendicular position obs)
          (avoidScale (p5.dist position (o_position obs)) lookAhead).

(** The sum of a list of vectors. *)
Definition vsum (l : list Vector) : Vector := fold_right p5.add (createVector 0 0) l.

(** One cone of radius 12, 15 units ahead of a car at the origin that
    drives along the x axis. *)
Definition coneAhead : Obstacle := mkObstacle cone (createVector 15 0) 12 5.
Definition coneTrack : Track.t := Track.mk 1 [createVector 0 0] 154 [coneAhead].

(** One oil slick of radius 30, [d] units ahead of a car at the origin
    that drives along the x axis. *)
Definition oilAhead (d : R) : Obstacle := mkObstacle oil (createVector d 0) 30 20.
Definition oilTrack (d : R) : Track.t := Track.mk 1 [createVector 0 0] 154 [oilAhead d].

(** A track of one waypoint in the middle of the canvas, of the width of
    level 10 and without obstacles. *)
Definition centreTrack : Track.t := Track.mk 10 [createVector 500 350] 100 [].

(** A player on that track as the constructor leaves it, but for its
    position, velocity, lap count and fuel. *)
Definition playerAt (pos vel : Vector) (laps : nat) (fuel : R) : PlayerCar.t :=
  PlayerCar.mk (Vehicule.mk pos vel (createVector 0 0) 12 0.35 6)
    (Some centreTrack) 0.90 0 laps 0 0 false false fuel false false 0 0.

(** A vehicle that arrives at 10 with a force of 1 pending, far above
    its top speed 4. *)
Definition fastVehicule : Vehicule.t :=
  Vehicule.mk (createVector 100 100) (createVector 10 0) (createVector 1 0) 10 0.2 4.

(** An opponent with that body. *)
Definition fastFollower : FollowerCar.t :=
  FollowerCar.mk fastVehicule None 0 0 0 0 false.

(** The one-waypoint track with a cone 10 units right of the waypoint. *)
Definition coneCentreTrack : Track.t :=
  Track.mk 10 [createVector 500 350] 100 [mkObstacle cone (createVector 510 350) 12 0].

(** A player on that track as the constructor leaves it, but for its
    position, velocity, lap count, fuel, nitro flag and slowdown timer. *)
Definition nitroPlayer (pos vel : Vector) (laps : nat) (fuel : R) (nitro : bool)
    (slowdown : nat) : PlayerCar.t :=
  PlayerCar.mk (Vehicule.mk pos vel (createVector 0 0) 12 0.35 6)
    (Some coneCentreTrack) 0.90 0 laps 0 0 false false fuel nitro false 0 slowdown.

(** The lap rule in the words of the spec: a lap is counted when a
    checkpoint is reached, that checkpoint is number 0, and the
    checkpoints accumulated since the last lap, the one just reached
    included, are at least 0.8 times the number of waypoints. *)
Definition lapRule (reached : bool) (checkpoint accumulated waypointCount : nat) : bool :=
  reached && (checkpoint =? 0)%nat
  && Rgeb (INR accumulated) (INR waypointCount * 0.8).

(** The index the player expects next, and whether the player is within
    reach of that waypoint. *)
Definition expectedNext (p : PlayerCar.t) (tr : Track.t) : nat :=
  ((PlayerCar.lastCheckpoint p + 1) mod length (Track.waypoints tr))%nat.

Definition playerReaches (p : PlayerCar.t) (tr : Track.t) : bool :=
  match nth_error (Track.waypoints tr) (expectedNext p tr) with
  | Some wp => Rltb (p5.dist (PlayerCar.position p) wp) PlayerCar.waypointReachDistance
  | None => false
  end.

(** The index an opponent moves on to, and whether it is within reach of
    the waypoint it is heading for. *)
Definition nextIndex (f : FollowerCar.t) (tr : Track.t) : nat :=
  ((FollowerCar.currentWaypointIndex f + 1) mod length (Track.waypoints tr))%nat.

Definition followerReaches (f : FollowerCar.t) (tr : Track.t) : bool :=
  match nth_error (Track.waypoints tr) (FollowerCar.currentWaypointIndex f) with
  | Some wp => Rltb (p5.dist (FollowerCar.position f) wp) FollowerCar.waypointReachDistance
  | None => false
  end.

(** A track of 80 waypoints (all at one point, so that a car standing
    there is within reach of each of them), a player that has reached
    checkpoint 79 and an opponent that is heading for waypoint 79. *)
Definition track80 : Track.t :=
  Track.mk 1 (repeat (createVector 500 350) 80) 154 [].

Definition player80 (laps checkpoints last : nat) : PlayerCar.t :=
  PlayerCar.mk
    (Vehicule.mk (createVector 500 350) (createVector 0 0) (createVector 0 0) 12 0.35 6)
    (Some track80) 0.90 0 laps checkpoints last false false 100 false false 0 0.

Definition follower80 (current laps checkpoints last : nat) : FollowerCar.t :=
  FollowerCar.mk
    (Vehicule.mk (createVector 500 350) (createVector 0 0) (createVector 0 0) 10 0.24 4.0)
    (Some track80) current laps checkpoints last false.

(** The race fields of a player: the track, the three counters and the
    finished flag. *)
Definition sameRace (p q : PlayerCar.t) : Prop :=
  PlayerCar.track q = PlayerCar.track p
  /\ PlayerCar.laps q = PlayerCar.laps p
  /\ PlayerCar.checkpointsReached q = PlayerCar.checkpointsReached p
  /\ PlayerCar.lastCheckpoint q = PlayerCar.lastCheckpoint p
  /\ PlayerCar.finished q = PlayerCar.finished p.

(** The state of the counters that a race starts in and every step keeps:
    on a track with waypoints, the checkpoints accumulated since the last
    lap equal the index of the last checkpoint. *)
Definition playerInv (tr : Track.t) (p : PlayerCar.t) : Prop :=
  PlayerCar.track p = Some tr
  /\ PlayerCar.checkpointsReached p = PlayerCar.lastCheckpoint p
  /\ (PlayerCar.lastCheckpoint p < length (Track.waypoints tr))%nat.

Definition followerInv (tr : Track.t) (f : FollowerCar.t) : Prop :=
  FollowerCar.track f = Some tr
  /\ FollowerCar.checkpointsReached f = FollowerCar.lastCheckpoint f
  /\ FollowerCar.lastCheckpoint f = FollowerCar.currentWaypointIndex f
  /\ (FollowerCar.currentWaypointIndex f < length (Track.waypoints tr))%nat.

(** One frame of an opponent, as [updateGame] runs it. *)
Definition followerFrame (f : FollowerCar.t) (self : nat)
    (vehicles : list FollowerCar.t) (target : Vector) : option FollowerCar.t :=
  g <- FollowerCar.applyBehaviors f self vehicles target ;;
  Some (FollowerCar.update g).

(** An opponent on the one-waypoint track as [createAICars] leaves it, but
    for its position, velocity and lap count. *)
Definition followerAt (pos vel : Vector) (laps : nat) : FollowerCar.t :=
  FollowerCar.mk (Vehicule.mk pos vel (createVector 0 0) 10 0.24 4.0)
    (Some centreTrack) 0 laps 0 0 false.




Definition fuelInRange (p : PlayerCar.t) : Prop :=
  0 <= PlayerCar.nitroFuel p <= PlayerCar.nitroMaxFuel.

(** The nitro key alone held down. *)
Definition nitroKey : Keys := mkKeys false false false false true.

(** Some competitor has the laps to win. *)
Definition someoneFinished (g : Game) : Prop :=
  (LAPS_TO_WIN <= PlayerCar.laps (playerCar g))%nat
  \/ exists ai, In ai (aiCars g) /\ (LAPS_TO_WIN <= FollowerCar.laps ai)%nat.

(** A race on the one-waypoint track: the player with one lap done and one
    opponent, both at the waypoint. *)
Definition lastFrame : Game :=
  mkGame playing 1 centreTrack
    (playerAt (createVector 500 350) (createVector 0 0) 1 100)
    [followerAt (createVector 500 350) (createVector 0 0) 0]
    false None 1.

Definition afterLastFrame : Game :=
  mkGame levelComplete 1 centreTrack
    (PlayerCar.set_finished
       (playerAt (createVector 500 350) (createVector 0 0) (1 + 1) 100) true)
    [followerAt (createVector 500 350) (createVector 0 0) (0 + 1)]
    true (Some winner_player) 2.

(** ** The vocabulary of the further properties *)

(** The position lies inside the circle of the obstacle. *)
Definition inside (position : Vector) (o : Obstacle) : Prop :=
  p5.dist position (o_position o) < o_radius o.

(** Two waypoints at the same distance from the origin. *)
Definition twinTrack : Track.t :=
  Track.mk 1 [createVector 3 0; createVector (-3) 0] 154 [].

(** The two edge points that [calculateEdges] pushes for the waypoint [i]. *)
Definition edgeAt (waypoints : list Vector) (trackWidth : R) (i : nat)
    : option (Vector * Vector) :=
  current <- nth_error waypoints i ;;
  perp <- Circuit.perpAt waypoints i ;;
  Some (p5.add current (p5.mult perp (trackWidth / 2)),
        p5.sub current (p5.mult perp (trackWidth / 2))).

(** A triangle of waypoints. *)
Definition triangle : list Vector :=
  [createVector 0 0; createVector 10 0; createVector 0 10].

(** Every draw of the generator lies in [0, 1). *)
Definition uniform (rnd : Random) : Prop := forall k, 0 <= rnd k < 1.

(** The waypoint index that [placeObstacle] draws. *)
Definition drawnIndex (waypoints : list Vector) (lo : Z) (u : R) : Z :=
  floor (randomBetween u (IZR lo) (IZR (Z.of_nat (length waypoints)) - IZR lo)).

(** An obstacle of a kind, with the radius of that kind, at a waypoint
    index between [lo] and [n - lo]. *)
Definition placedAs (kind : ObstacleType) (radius : R) (lo : Z) (n : nat)
    (o : Obstacle) : Prop :=
  o_type o = kind /\ o_radius o = radius
  /\ (o_waypointIndex o < n)%nat
  /\ ((2 * lo <= Z.of_nat n)%Z ->
      (lo <= Z.of_nat (o_waypointIndex o) <= Z.of_nat n - lo)%Z).

(** The generator that always draws 0. *)
Definition zeroDraws : Random := fun _ => 0.

(** The draw that places the first oil slick of a level. *)
Definition firstOilDraw (level : Z) (draws : nat) : nat :=
  (draws + 2 * Z.to_nat (Circuit.numCones level)
   + 2 * Z.to_nat (Circuit.numBarriers level))%nat.

(** An opponent as the start grid of a level places it: at waypoint 0
    with no lap and no checkpoint, not finished, with the steering force
    of the level and a top speed within a quarter of the base speed of the
    level. *)
Definition onGrid (level : Z) (tr : Track.t) (ai : FollowerCar.t) : Prop :=
  followerInv tr ai
  /\ FollowerCar.currentWaypointIndex ai = 0%nat
  /\ FollowerCar.laps ai = 0%nat
  /\ FollowerCar.finished ai = false
  /\ FollowerCar.maxforce ai = 0.18 + IZR level * 0.025
  /\ 2.5 + IZR level * 0.35 - 0.25 <= FollowerCar.maxspeed ai
     < 2.5 + IZR level * 0.35 + 0.25.

(** The grip and the two timers of the obstacle effects. *)
Definition sameGrip (p q : PlayerCar.t) : Prop :=
  PlayerCar.drift_factor q = PlayerCar.drift_factor p
  /\ PlayerCar.onOil q = PlayerCar.onOil p
  /\ PlayerCar.oilTimer q = PlayerCar.oilTimer p
  /\ PlayerCar.slowdownTimer q = PlayerCar.slowdownTimer p.




(** Two positions are in range of each other: apart, and closer than
    [desiredSeparation]. *)
Definition inRange (a b : Vector) : bool :=
  Rgtb (p5.dist a b) 0 && Rltb (p5.dist a b) FollowerCar.desiredSeparation.

(** The racers in the order of decreasing progress. *)
Definition byProgress (a b : Racer) : Prop := (r_progress b <= r_progress a)%nat.

(** The number of opponents strictly ahead of the player. *)
Definition aheadOfPlayer (g : Game) : nat :=
  length (filter (fun ai => (playerProgress (track g) (playerCar g) <? aiProgress (track g) ai)%nat)
            (aiCars g)).

(** The racer is an opponent. *)
Definition isAI (x : Racer) : Prop :=
  match r_type x with racer_ai _ => True | racer_player => False end.

(** The racers of a list with more progress than [n]. *)
Definition countAbove (n : nat) (l : list Racer) : nat :=
  length (filter (fun y => (n <? r_progress y)%nat) l).

(** The state of a race: the player and every opponent drive on the track
    of the game, with their counters in the state the lap rule keeps. *)
Definition raceInv (g : Game) : Prop :=
  playerInv (track g) (playerCar g)
  /\ Forall (followerInv (track g)) (aiCars g).

(** From [g] to [g'] the race is the same and nobody has lost ground. *)
Definition progressed (g g' : Game) : Prop :=
  track g' = track g
  /\ currentLevel g' = currentLevel g
  /\ (unlockedLevel g <= unlockedLevel g')%Z
  /\ (playerProgress (track g) (playerCar g)
      <= playerProgress (track g) (playerCar g'))%nat
  /\ Forall2 (fun a a' => (aiProgress (track g) a <= aiProgress (track g) a')%nat)
       (aiCars g) (aiCars g').

(** The menu as [setup] lays it out, with the first three levels
    unlocked. *)
Definition menu3 : LevelSelect.t :=
  LevelSelect.calculateLayout (LevelSelect.mk 3 1 (-1) 0 0).

(** * Properties *)

(** ** Comparisons *)

Lemma Rltb_true_iff (x y : R) : Rltb x y = true <-> x < y.
Proof. unfold Rltb. destruct (Rlt_dec x y); split; intros; try easy. Qed.

Lemma Rltb_false_iff (x y : R) : Rltb x y = false <-> y <= x.
Proof.
  unfold Rltb. destruct (Rlt_dec x y); split; intros; try easy; lra.
Qed.

Lemma Rltb_lt (x y : R) : x < y -> Rltb x y = true.
Proof. apply Rltb_true_iff. Qed.

Lemma Rltb_ge (x y : R) : y <= x -> Rltb x y = false.
Proof. apply Rltb_false_iff. Qed.

Lemma Rgtb_true_iff (x y : R) : Rgtb x y = true <-> y < x.
Proof. apply Rltb_true_iff. Qed.

Lemma Rgtb_false_iff (x y : R) : Rgtb x y = false <-> x <= y.
Proof. apply Rltb_false_iff. Qed.

Lemma Rgeb_true_iff (x y : R) : Rgeb x y = true <-> y <= x.
Proof. unfold Rgeb. rewrite negb_true_iff. apply Rltb_false_iff. Qed.

Lemma Rgeb_false_iff (x y : R) : Rgeb x y = false <-> x < y.
Proof. unfold Rgeb. rewrite negb_false_iff. apply Rltb_true_iff. Qed.

Lemma Reqb_true_iff (x y : R) : Reqb x y = true <-> x = y.
Proof. unfold Reqb. destruct (Req_dec_T x y); split; intros; try easy. Qed.

Lemma Reqb_false_iff (x y : R) : Reqb x y = false <-> x <> y.
Proof. unfold Reqb. destruct (Req_dec_T x y); split; intros; try easy. Qed.

Lemma Reqb_refl (x : R) : Reqb x x = true.
Proof. now apply Reqb_true_iff. Qed.

Lemma Reqb_neq (x y : R) : x <> y -> Reqb x y = false.
Proof. apply Reqb_false_iff. Qed.

(** ** Vectors *)

Lemma Vector_eq (a b : Vector) : vx a = vx b -> vy a = vy b -> a = b.
Proof. destruct a, b; simpl; intros; subst; reflexivity. Qed.

Lemma magSq_nonneg (a : Vector) : 0 <= p5.magSq a.
Proof. unfold p5.magSq. nra. Qed.

Lemma mag_nonneg (a : Vector) : 0 <= p5.mag a.
Proof. apply sqrt_pos. Qed.

Lemma mag_sqr (a : Vector) : p5.mag a * p5.mag a = p5.magSq a.
Proof. apply sqrt_sqrt, magSq_nonneg. Qed.

Lemma mag_le_iff (a : Vector) (c : R) :
  0 <= c -> (p5.mag a <= c <-> p5.magSq a <= c * c).
Proof.
  intros Hc. pose proof (mag_nonneg a) as Hm. pose proof (mag_sqr a) as Hs.
  split; intros H; nra.
Qed.

Lemma mag_zero : p5.mag (createVector 0 0) = 0.
Proof.
  unfold p5.mag, p5.magSq; simpl.
  replace (0 * 0 + 0 * 0) with 0 by ring. apply sqrt_0.
Qed.

Lemma mag_eq_0 (a : Vector) : p5.mag a = 0 -> a = createVector 0 0.
Proof.
  intros H. apply sqrt_eq_0 in H; [| apply magSq_nonneg].
  unfold p5.magSq in H. apply Vector_eq; simpl; nra.
Qed.

Lemma mag_x_axis (x : R) : p5.mag (createVector x 0) = Rabs x.
Proof.
  unfold p5.mag, p5.magSq; simpl.
  replace (x * x + 0 * 0) with (x²) by (unfold Rsqr; ring).
  apply sqrt_Rsqr_abs.
Qed.

Lemma mag_mult (a : Vector) (n : R) : p5.mag (p5.mult a n) = p5.mag a * Rabs n.
Proof.
  unfold p5.mag, p5.mult, p5.magSq; simpl.
  replace (vx a * n * (vx a * n) + vy a * n * (vy a * n))
    with ((vx a * vx a + vy a * vy a) * n²) by (unfold Rsqr; ring).
  rewrite sqrt_mult; [| nra | apply Rle_0_sqr].
  now rewrite sqrt_Rsqr_abs.
Qed.

Lemma mag_normalize (a : Vector) :
  p5.mag a <> 0 -> p5.mag (p5.normalize a) = 1.
Proof.
  intros H. unfold p5.normalize. rewrite (Reqb_neq _ _ H).
  rewrite mag_mult. pose proof (mag_nonneg a).
  rewrite Rabs_right; [field; exact H |].
  apply Rle_ge. apply Rlt_le. apply Rdiv_lt_0_compat; lra.
Qed.

Lemma mag_normalize_le (a : Vector) : p5.mag (p5.normalize a) <= 1.
Proof.
  destruct (Req_dec_T (p5.mag a) 0) as [E | E].
  - unfold p5.normalize. rewrite E, Reqb_refl. lra.
  - rewrite mag_normalize by assumption. lra.
Qed.

Lemma normalize_direction (a : Vector) :
  p5.mag a <> 0 -> p5.normalize a = p5.mult a (1 / p5.mag a).
Proof. intros H. unfold p5.normalize. now rewrite (Reqb_neq _ _ H). Qed.

(** [limit] does what its name says. *)
Lemma mag_limit (a : Vector) (c : R) : 0 <= c -> p5.mag (p5.limit a c) <= c.
Proof.
  intros Hc. unfold p5.limit.
  destruct (Rgtb (p5.magSq a) (c * c)) eqn:E.
  - apply Rgtb_true_iff in E.
    assert (Hpos : 0 < p5.magSq a) by nra.
    pose proof (sqrt_lt_R0 _ Hpos) as Hs.
    unfold p5.div. rewrite Reqb_neq by lra.
    rewrite mag_mult. fold (p5.mag a) in *.
    replace (createVector (vx a / p5.mag a) (vy a / p5.mag a))
      with (p5.mult a (1 / p5.mag a))
      by (unfold p5.mult; f_equal; field; lra).
    rewrite mag_mult.
    rewrite (Rabs_right (1 / p5.mag a)), (Rabs_right c) by
      (try (apply Rle_ge, Rlt_le, Rdiv_lt_0_compat; lra); lra).
    right. field. lra.
  - apply Rgtb_false_iff in E. now apply mag_le_iff.
Qed.

Lemma dot_le_mag (a b : Vector) : p5.dot a b <= p5.mag a * p5.mag b.
Proof.
  pose proof (mag_nonneg a) as Ha. pose proof (mag_nonneg b) as Hb.
  pose proof (mag_sqr a) as Sa. pose proof (mag_sqr b) as Sb.
  assert (CS : p5.dot a b * p5.dot a b <= p5.magSq a * p5.magSq b).
  { unfold p5.dot, p5.magSq.
    pose proof (Rle_0_sqr (vx a * vy b - vy a * vx b)) as Q.
    unfold Rsqr in Q. nra. }
  rewrite <- Sa, <- Sb in CS.
  destruct (Rle_lt_dec (p5.dot a b) (p5.mag a * p5.mag b)) as [L | L]; [exact L |].
  assert (0 <= p5.mag a * p5.mag b) by nra. nra.
Qed.

(** The triangle inequality. *)
Lemma mag_add (a b : Vector) : p5.mag (p5.add a b) <= p5.mag a + p5.mag b.
Proof.
  pose proof (mag_nonneg a) as Ha. pose proof (mag_nonneg b) as Hb.
  apply mag_le_iff; [lra |].
  pose proof (dot_le_mag a b) as D.
  pose proof (mag_sqr a) as Sa. pose proof (mag_sqr b) as Sb.
  unfold p5.magSq, p5.add, p5.dot in *; simpl. nra.
Qed.

Lemma add_zero_l (a : Vector) : p5.add (createVector 0 0) a = a.
Proof. apply Vector_eq; simpl; ring. Qed.

Lemma add_assoc (a b c : Vector) : p5.add (p5.add a b) c = p5.add a (p5.add b c).
Proof. apply Vector_eq; simpl; ring. Qed.

Lemma mag_y_axis (y : R) : p5.mag (createVector 0 y) = Rabs y.
Proof.
  unfold p5.mag, p5.magSq; simpl.
  replace (0 * 0 + y * y) with (y²) by (unfold Rsqr; ring).
  apply sqrt_Rsqr_abs.
Qed.

Lemma mag_of_x (a : Vector) (x : R) : vx a = x -> vy a = 0 -> p5.mag a = Rabs x.
Proof. destruct a; simpl; intros; subst. apply mag_x_axis. Qed.

Lemma mag_of_y (a : Vector) (y : R) : vx a = 0 -> vy a = y -> p5.mag a = Rabs y.
Proof. destruct a; simpl; intros; subst. apply mag_y_axis. Qed.

Lemma Rabs_of_pos (x : R) : 0 <= x -> Rabs x = x.
Proof. intros. apply Rabs_right. lra. Qed.

Lemma Rabs_of_neg (x : R) : x <= 0 -> Rabs x = - x.
Proof.
  intros H. destruct (Req_dec_T x 0) as [-> | N].
  - rewrite Rabs_R0. ring.
  - apply Rabs_left. lra.
Qed.

(** ** Track: the width *)

(** C9: the track width is [max(100, 160 - 6 * level)]; it does not grow
    with the level, and it is 154 at level 1. *)
Theorem C9_track_width (l1 l2 : Z) :
  (1 <= l1)%Z -> (l1 <= l2)%Z -> (l2 <= 10)%Z ->
  Track.getTrackWidth l1 = Z.max 100 (160 - 6 * l1)
  /\ (Track.getTrackWidth l2 <= Track.getTrackWidth l1)%Z
  /\ Track.getTrackWidth 1 = 154%Z.
Proof.
  intros H1 H12 H2. unfold Track.getTrackWidth. repeat split; lia.
Qed.

Lemma C9_track_width_witness :
  Track.getTrackWidth 3 = Z.max 100 (160 - 6 * 3)
  /\ (Track.getTrackWidth 10 <= Track.getTrackWidth 3)%Z
  /\ Track.getTrackWidth 1 = 154%Z.
Proof. apply (C9_track_width 3 10); lia. Defined.

(** ** Track: the nearest waypoint *)

Lemma closest_loop_spec (pos : Vector) (wps pre : list Vector)
    (cd : option R) (ci : nat) :
  pre ++ wps <> [] ->
  (cd = None /\ pre = []) \/
  (exists w, cd = Some (p5.dist pos w) /\ nth_error (pre ++ wps) ci = Some w
             /\ forall w', In w' pre -> p5.dist pos w <= p5.dist pos w') ->
  exists w,
    nth_error (pre ++ wps) (Track.closest_loop pos wps (length pre) cd ci) = Some w
    /\ forall w', In w' (pre ++ wps) -> p5.dist pos w <= p5.dist pos w'.
Proof.
  revert pre cd ci. induction wps as [| w rest IH]; intros pre cd ci Hne Hinv.
  - simpl. rewrite app_nil_r in *. destruct Hinv as [[_ E] | [w [_ [Hn Hmin]]]].
    + contradiction.
    + exists w. split; assumption.
  - simpl.
    assert (Hidx : nth_error ((pre ++ [w]) ++ rest) (length pre) = Some w).
    { rewrite <- app_assoc. simpl. rewrite nth_error_app2 by lia.
      now rewrite Nat.sub_diag. }
    assert (Hlen : S (length pre) = length (pre ++ [w])).
    { rewrite length_app. simpl. lia. }
    assert (Happ : pre ++ w :: rest = (pre ++ [w]) ++ rest).
    { now rewrite <- app_assoc. }
    assert (Hne' : (pre ++ [w]) ++ rest <> []) by (destruct pre; discriminate).
    destruct Hinv as [[-> ->] | [w0 [-> [Hn Hmin]]]].
    + rewrite Happ, Hlen. apply IH.
      * exact Hne'.
      * right. exists w. split; [reflexivity | split; [exact Hidx |]].
        simpl. intros w' [<- | []]. lra.
    + destruct (Rltb (p5.dist pos w) (p5.dist pos w0)) eqn:E.
      * apply Rltb_true_iff in E. rewrite Happ, Hlen. apply IH.
        -- exact Hne'.
        -- right. exists w. split; [reflexivity | split; [exact Hidx |]].
           intros w' Hin. apply in_app_or in Hin. destruct Hin as [Hin | [<- | []]].
           ++ specialize (Hmin _ Hin). lra.
           ++ lra.
      * apply Rltb_false_iff in E. rewrite Happ, Hlen. apply IH.
        -- exact Hne'.
        -- right. exists w0. split; [reflexivity | split].
           ++ now rewrite <- Happ.
           ++ intros w' Hin. apply in_app_or in Hin. destruct Hin as [Hin | [<- | []]].
              ** now apply Hmin.
              ** exact E.
Qed.

(** With at least one waypoint, [getClosestWaypointIndex] is the index of
    a waypoint that no other waypoint beats in distance. *)
Lemma getClosestWaypointIndex_nearest (tr : Track.t) (pos : Vector) :
  Track.waypoints tr <> [] ->
  exists w,
    nth_error (Track.waypoints tr) (Track.getClosestWaypointIndex tr pos) = Some w
    /\ forall w', In w' (Track.waypoints tr) -> p5.dist pos w <= p5.dist pos w'.
Proof.
  intros Hne. unfold Track.getClosestWaypointIndex.
  apply (closest_loop_spec pos (Track.waypoints tr) [] None 0 Hne).
  left. split; reflexivity.
Qed.

(** ** Track: the boundary force *)

Lemma getTrackWidth_ge_100 (level : Z) : 100 <= IZR (Track.getTrackWidth level).
Proof. apply IZR_le. unfold Track.getTrackWidth. lia. Qed.

Lemma mult_mult (a : Vector) (m n : R) : p5.mult (p5.mult a m) n = p5.mult a (m * n).
Proof. apply Vector_eq; simpl; ring. Qed.

Lemma boundary_scale (x : R) : p5.map x 0 25 0.3 1.0 = 0.3 + 0.7 * x / 25.
Proof. unfold p5.map. lra. Qed.

(** C3, as the code has it: inside the margin the force is the zero
    vector; past it the force points from the position to the nearest
    waypoint and its length is [0.3 + 0.7 * overshoot / 25], which is 0.3
    just past the margin and 1 at 25 units past it. *)
Theorem C3_boundary_force (tr : Track.t) (position velocity : Vector) :
  Track.waypoints tr <> [] ->
  Track.trackWidth tr = IZR (Track.getTrackWidth (Track.level tr)) ->
  exists w,
    nth_error (Track.waypoints tr) (Track.getClosestWaypointIndex tr position) = Some w
    /\ (forall w', In w' (Track.waypoints tr) ->
          p5.dist position w <= p5.dist position w')
    /\ (p5.dist position w <= Track.trackWidth tr / 2 - 15 ->
          Track.getTrackBoundaryForce tr position velocity = Some (createVector 0 0))
    /\ (Track.trackWidth tr / 2 - 15 < p5.dist position w ->
          exists F k,
            Track.getTrackBoundaryForce tr position velocity = Some F
            /\ F <> createVector 0 0
            /\ 0 < k /\ F = p5.mult (p5.sub w position) k
            /\ p5.mag F
               = 0.3 + 0.7 * (p5.dist position w - (Track.trackWidth tr / 2 - 15)) / 25).
Proof.
  intros Hne Hw.
  destruct (getClosestWaypointIndex_nearest tr position Hne) as [w [Hn Hmin]].
  exists w. split; [exact Hn |]. split; [exact Hmin |].
  pose proof (getTrackWidth_ge_100 (Track.level tr)) as H100. rewrite <- Hw in H100.
  unfold Track.getTrackBoundaryForce. rewrite Hn. simpl.
  set (d := p5.dist position w). set (maxDist := Track.trackWidth tr / 2 - 15).
  split.
  - intros Hle. now rewrite (proj2 (Rgtb_false_iff d maxDist) Hle).
  - intros Hgt. rewrite (proj2 (Rgtb_true_iff d maxDist) Hgt).
    assert (Hd : 0 < d) by (unfold maxDist in Hgt; lra).
    assert (Hmag : p5.mag (p5.sub w position) = d) by reflexivity.
    assert (Hm : 0 < p5.map (d - maxDist) 0 25 0.3 1.0)
      by (rewrite boundary_scale; lra).
    eexists. exists (1 / d * p5.map (d - maxDist) 0 25 0.3 1.0).
    split; [reflexivity |].
    assert (Hlen : p5.mag (p5.mult (p5.normalize (p5.sub w position))
                             (p5.map (d - maxDist) 0 25 0.3 1.0))
                   = 0.3 + 0.7 * (d - maxDist) / 25).
    { rewrite mag_mult, mag_normalize by (rewrite Hmag; lra).
      rewrite Rabs_of_pos by lra. rewrite boundary_scale. ring. }
    repeat split.
    + intros Hz. rewrite Hz, mag_zero in Hlen. lra.
    + apply Rmult_lt_0_compat; [apply Rdiv_lt_0_compat; lra | exact Hm].
    + rewrite normalize_direction by (rewrite Hmag; lra).
      rewrite Hmag. apply mult_mult.
    + exact Hlen.
Qed.

Lemma boundary_force_on_x_axis (x : R) :
  35 < x ->
  Track.getTrackBoundaryForce oneWaypointTrack (createVector x 0) (createVector 0 0)
  = Some (createVector (- (0.3 + 0.7 * (x - 35) / 25)) 0).
Proof.
  intros Hx. unfold Track.getTrackBoundaryForce. simpl.
  assert (Hd : p5.dist (createVector x 0) (createVector 0 0) = x).
  { unfold p5.dist. rewrite (mag_of_x _ (- x)) by (simpl; ring).
    rewrite Rabs_of_neg by lra. ring. }
  rewrite Hd. rewrite (proj2 (Rgtb_true_iff x (100 / 2 - 15))) by lra.
  rewrite normalize_direction by (fold (p5.dist (createVector x 0) (createVector 0 0)); lra).
  fold (p5.dist (createVector x 0) (createVector 0 0)). rewrite Hd.
  f_equal. apply Vector_eq; simpl; unfold p5.map.
  - replace ((0 - x) * (1 / x)) with (-1) by (field; lra). lra.
  - replace (0 - 0) with 0 by ring. rewrite !Rmult_0_l. reflexivity.
Qed.

Lemma C3_boundary_force_witness :
  exists w,
    nth_error (Track.waypoints oneWaypointTrack)
      (Track.getClosestWaypointIndex oneWaypointTrack (createVector 40 0)) = Some w
    /\ (forall w', In w' (Track.waypoints oneWaypointTrack) ->
          p5.dist (createVector 40 0) w <= p5.dist (createVector 40 0) w')
    /\ (p5.dist (createVector 40 0) w <= Track.trackWidth oneWaypointTrack / 2 - 15 ->
          Track.getTrackBoundaryForce oneWaypointTrack (createVector 40 0) (createVector 0 0)
          = Some (createVector 0 0))
    /\ (Track.trackWidth oneWaypointTrack / 2 - 15 < p5.dist (createVector 40 0) w ->
          exists F k,
            Track.getTrackBoundaryForce oneWaypointTrack (createVector 40 0) (createVector 0 0)
            = Some F
            /\ F <> createVector 0 0
            /\ 0 < k /\ F = p5.mult (p5.sub w (createVector 40 0)) k
            /\ p5.mag F
               = 0.3 + 0.7 * (p5.dist (createVector 40 0) w
                              - (Track.trackWidth oneWaypointTrack / 2 - 15)) / 25).
Proof.
  apply (C3_boundary_force oneWaypointTrack (createVector 40 0) (createVector 0 0)).
  - simpl. discriminate.
  - simpl. unfold Track.getTrackWidth. simpl. reflexivity.
Defined.

(** C3 as the specification words it fails: the length of the force is not
    proportional to the overshoot.  At 5 units past the margin the force
    is 0.44 long and at 25 units past it is 1 long, and no factor [k]
    gives both [0.44 = k * 5] and [1 = k * 25]; a force that is 0 at the
    margin would be 0.2 long at 5 units. *)
Lemma C3_not_proportional :
  Track.getTrackBoundaryForce oneWaypointTrack (createVector 40 0) (createVector 0 0)
    = Some (createVector (-0.44) 0)
  /\ Track.getTrackBoundaryForce oneWaypointTrack (createVector 60 0) (createVector 0 0)
    = Some (createVector (-1) 0)
  /\ ~ (exists k : R,
          p5.mag (createVector (-0.44) 0) = k * 5
          /\ p5.mag (createVector (-1) 0) = k * 25).
Proof.
  split; [| split].
  - rewrite boundary_force_on_x_axis by lra. do 2 f_equal. lra.
  - rewrite boundary_force_on_x_axis by lra. do 2 f_equal. lra.
  - intros [k [H1 H2]]. rewrite mag_x_axis, Rabs_of_neg in H1, H2 by lra. lra.
Qed.

(** ** Track: the queries on a degenerate track *)

(** On a track with a waypoint the boundary force is always returned. *)
Lemma boundary_total (tr : Track.t) (pos vel : Vector) :
  Track.waypoints tr <> [] ->
  exists F, Track.getTrackBoundaryForce tr pos vel = Some F.
Proof.
  intros Hne. unfold Track.getTrackBoundaryForce.
  destruct (getClosestWaypointIndex_nearest tr pos Hne) as [w [Hw _]].
  rewrite Hw. cbv beta iota zeta delta [bind].
  destruct (Rgtb _ _); eexists; reflexivity.
Qed.

(** [generateCircuit] pushes 80 waypoints at every level. *)
Lemma generateCircuit_length (level : Z) :
  length (Circuit.generateCircuit level) = 80%nat.
Proof.
  unfold Circuit.generateCircuit. now rewrite length_map, length_seq.
Qed.

(** C7, as the code has it: with no obstacle the two obstacle queries
    answer with the zero force and with no collision, and with no waypoint
    the nearest-waypoint index is 0.  [getTrackBoundaryForce] returns a
    force on every track with a waypoint, and [generateCircuit] gives
    every track 80 of them; the function has no guard for a track without
    waypoints, where it reads [waypoints[0]], which is [undefined], and
    throws. *)
Theorem C7_empty_track_queries (level : Z) (wps : list Vector) (obs : list Obstacle)
    (w lookAhead : R) (position velocity : Vector) :
  Track.getObstacleAvoidanceForce (Track.mk level wps w []) position velocity lookAhead
    = createVector 0 0
  /\ Track.checkObstacleCollision (Track.mk level wps w []) position
    = mkCollision false None None
  /\ Track.getClosestWaypointIndex (Track.mk level [] w obs) position = 0%nat
  /\ (wps <> [] ->
      exists F, Track.getTrackBoundaryForce (Track.mk level wps w obs) position velocity
                = Some F)
  /\ length (Circuit.generateCircuit level) = 80%nat
  /\ Track.getTrackBoundaryForce (Track.mk level [] w obs) position velocity = None.
Proof.
  split; [reflexivity |]. split; [reflexivity |]. split; [reflexivity |].
  split; [| split; [apply generateCircuit_length | reflexivity]].
  intros Hne. now apply boundary_total.
Qed.

Lemma C7_empty_track_queries_witness :
  exists F, Track.getTrackBoundaryForce (Track.mk 10 [createVector 500 350] 100 [])
              (createVector 400 350) (createVector 6 0) = Some F.
Proof.
  apply (C7_empty_track_queries 10 [createVector 500 350] [] 100 60
           (createVector 400 350) (createVector 6 0)).
  discriminate.
Defined.

(** C7 as the specification words it fails: on a track without waypoints
    [getTrackBoundaryForce] does not return the zero vector, it throws. *)
Lemma C7_boundary_force_no_guard :
  Track.getTrackBoundaryForce (Track.mk 1 [] 154 []) (createVector 500 350)
    (createVector 1 0) = None
  /\ Track.getTrackBoundaryForce (Track.mk 1 [] 154 []) (createVector 500 350)
       (createVector 1 0) <> Some (createVector 0 0).
Proof.
  split; [reflexivity | discriminate].
Qed.

(** The callers on a track without waypoints: the autopilot returns
    before it asks for the boundary force, while [handleBoundary] and
    [avoidBoundary] ask and throw. *)
Lemma empty_waypoints_callers (p : PlayerCar.t) (f : FollowerCar.t)
    (level : Z) (w : R) (obs : list Obstacle) :
  PlayerCar.track p = Some (Track.mk level [] w obs) ->
  FollowerCar.track f = Some (Track.mk level [] w obs) ->
  PlayerCar.handleAutoPilot p = Some p
  /\ PlayerCar.handleBoundary p = None
  /\ FollowerCar.avoidBoundary f = None.
Proof.
  intros Hp Hf.
  unfold PlayerCar.handleAutoPilot, PlayerCar.handleBoundary, FollowerCar.avoidBoundary.
  rewrite Hp, Hf. repeat split.
Qed.

(** ** Track: the obstacle avoidance force *)

Lemma dot_zero_r (a : Vector) : p5.dot a (createVector 0 0) = 0.
Proof. unfold p5.dot; simpl; ring. Qed.

Lemma normalize_zero : p5.normalize (createVector 0 0) = createVector 0 0.
Proof. unfold p5.normalize. now rewrite mag_zero, Reqb_refl. Qed.

Lemma mag_perp (a : Vector) : p5.mag (createVector (- vy a) (vx a)) = p5.mag a.
Proof. unfold p5.mag, p5.magSq; simpl. f_equal. ring. Qed.

Section Avoidance.

Variables (position velocity : Vector) (lookAhead : R).
Hypothesis lookAhead_not_0 : lookAhead <> 0.

Lemma avoidStep_cases (acc : Vector) (obs : Obstacle) :
  Track.avoidStep position velocity lookAhead acc obs
  = if qualifies position velocity lookAhead obs
    then p5.add acc (deflection position lookAhead obs)
    else acc.
Proof.
  unfold Track.avoidStep, qualifies, deflection, perpendicular, avoidScale, p5.dist.
  rewrite (Reqb_neq _ _ lookAhead_not_0).
  destruct (Rltb _ _); simpl; [| reflexivity].
  destruct (Rgtb _ _); reflexivity.
Qed.

Lemma avoid_fold (l : list Obstacle) (acc : Vector) :
  fold_left (Track.avoidStep position velocity lookAhead) l acc
  = p5.add acc (vsum (List.map (deflection position lookAhead)
                        (filter (qualifies position velocity lookAhead) l))).
Proof.
  revert acc. induction l as [| o l IH]; intros acc; simpl.
  - apply Vector_eq; simpl; ring.
  - rewrite IH, avoidStep_cases.
    destruct (qualifies position velocity lookAhead o); simpl; [| reflexivity].
    apply add_assoc.
Qed.

(** A qualifying obstacle is not at the position itself, so that its
    perpendicular really has length 1. *)
Lemma qualifies_perpendicular_unit (obs : Obstacle) :
  qualifies position velocity lookAhead obs = true ->
  p5.mag (perpendicular position obs) = 1.
Proof.
  unfold qualifies, perpendicular. intros H. apply andb_prop in H. destruct H as [_ H].
  apply Rgtb_true_iff in H.
  apply mag_normalize. rewrite mag_perp. intros Hz.
  apply mag_eq_0 in Hz. rewrite Hz, normalize_zero, dot_zero_r in H. lra.
Qed.

End Avoidance.

Lemma avoidScale_linear (dist lookAhead : R) :
  lookAhead <> 0 -> avoidScale dist lookAhead = 1.5 - 1.2 * dist / lookAhead.
Proof.
  intros H. unfold avoidScale, p5.map.
  replace (dist - 0) with dist by ring. replace (lookAhead - 0) with lookAhead by ring.
  replace (0.3 - 1.5) with (-1.2) by lra.
  unfold Rdiv. set (q := dist * / lookAhead).
  replace (1.2 * dist * / lookAhead) with (1.2 * q) by (unfold q; ring). lra.
Qed.

Lemma ratio_scaled (c lookAhead : R) : lookAhead <> 0 -> c * lookAhead / lookAhead = c.
Proof.
  intros H. unfold Rdiv. rewrite Rmult_assoc, Rinv_r by exact H. ring.
Qed.

Lemma scaled_distance (d lookAhead : R) :
  0 < lookAhead -> d / lookAhead * lookAhead = d.
Proof. intros H. field. lra. Qed.

Lemma avoidScale_order (d1 d2 lookAhead : R) :
  0 < lookAhead -> d1 < d2 -> d1 / lookAhead < d2 / lookAhead.
Proof.
  intros HL Hd. unfold Rdiv. apply Rmult_lt_compat_r; [apply Rinv_0_lt_compat; lra | exact Hd].
Qed.

Lemma avoidScale_sign (d lookAhead : R) :
  0 < lookAhead ->
  (d <= 1.25 * lookAhead -> 0 <= avoidScale d lookAhead)
  /\ (1.25 * lookAhead < d -> avoidScale d lookAhead < 0).
Proof.
  intros HL. rewrite avoidScale_linear by lra.
  pose proof (scaled_distance d lookAhead HL) as Hq.
  replace (1.2 * d / lookAhead) with (1.2 * (d / lookAhead)) by (unfold Rdiv; ring).
  split; intros Hd; nra.
Qed.

(** C8, as the code has it: the avoidance force is the sum, over the
    obstacles that qualify and over nothing else, of a unit perpendicular
    vector times the signed factor [map(dist, 0, lookAhead, 1.5, 0.3)],
    that is [1.5 - 1.2 dist / lookAhead]: 1.5 at distance 0, 0.3 at
    distance [lookAhead], 0 at [1.25 lookAhead] and negative beyond, where
    the deflection changes side.  The factor itself grows as the distance
    shrinks; the magnitude of a deflection, the absolute value of the
    factor, grows as the distance shrinks only up to [1.25 lookAhead], and
    beyond that it grows with the distance. *)
Theorem C8_obstacle_avoidance (tr : Track.t) (position velocity : Vector)
    (lookAhead : R) :
  0 < lookAhead ->
  Track.getObstacleAvoidanceForce tr position velocity lookAhead
    = vsum (List.map (deflection position lookAhead)
              (filter (qualifies position velocity lookAhead) (Track.obstacles tr)))
  /\ (forall obs, qualifies position velocity lookAhead obs = true ->
        p5.mag (perpendicular position obs) = 1
        /\ p5.mag (deflection position lookAhead obs)
           = Rabs (avoidScale (p5.dist position (o_position obs)) lookAhead))
  /\ (forall d, avoidScale d lookAhead = 1.5 - 1.2 * d / lookAhead)
  /\ avoidScale 0 lookAhead = 1.5
  /\ avoidScale lookAhead lookAhead = 0.3
  /\ avoidScale (1.25 * lookAhead) lookAhead = 0
  /\ (forall d1 d2, d1 < d2 -> avoidScale d2 lookAhead < avoidScale d1 lookAhead)
  /\ (forall d1 d2, d1 < d2 -> d2 <= 1.25 * lookAhead ->
        Rabs (avoidScale d2 lookAhead) < Rabs (avoidScale d1 lookAhead))
  /\ (forall d1 d2, 1.25 * lookAhead <= d1 -> d1 < d2 ->
        avoidScale d2 lookAhead < 0
        /\ Rabs (avoidScale d1 lookAhead) < Rabs (avoidScale d2 lookAhead)).
Proof.
  intros HL.
  assert (Hmono : forall d1 d2, d1 < d2 -> avoidScale d2 lookAhead < avoidScale d1 lookAhead).
  { intros d1 d2 Hd. rewrite !avoidScale_linear by lra.
    pose proof (avoidScale_order d1 d2 lookAhead HL Hd).
    unfold Rdiv in *. rewrite !Rmult_assoc. lra. }
  split; [| split; [| split; [| split; [| split; [| split; [| split; [| split]]]]]]].
  - unfold Track.getObstacleAvoidanceForce. rewrite avoid_fold by lra. apply add_zero_l.
  - intros obs Hq.
    pose proof (qualifies_perpendicular_unit position velocity lookAhead obs Hq) as Hu.
    split; [exact Hu |]. unfold deflection. rewrite mag_mult, Hu. ring.
  - intros d. apply avoidScale_linear. lra.
  - rewrite avoidScale_linear by lra. unfold Rdiv. rewrite Rmult_0_r, Rmult_0_l. lra.
  - rewrite avoidScale_linear by lra.
    replace (1.2 * lookAhead / lookAhead) with 1.2 by (field; lra). lra.
  - rewrite avoidScale_linear by lra.
    replace (1.2 * (1.25 * lookAhead)) with (1.5 * lookAhead) by lra.
    rewrite ratio_scaled by lra. lra.
  - exact Hmono.
  - intros d1 d2 Hd H2.
    destruct (avoidScale_sign d2 lookAhead HL) as [S2 _]. specialize (S2 H2).
    pose proof (Hmono d1 d2 Hd).
    rewrite !Rabs_of_pos by lra. lra.
  - intros d1 d2 H1 Hd.
    destruct (avoidScale_sign d2 lookAhead HL) as [_ S2]. specialize (S2 ltac:(lra)).
    split; [exact S2 |].
    pose proof (Hmono d1 d2 Hd) as Hm.
    rewrite (Rabs_of_neg (avoidScale d2 lookAhead)) by lra.
    destruct (Rle_lt_dec (avoidScale d1 lookAhead) 0) as [N | P].
    + rewrite Rabs_of_neg by lra. lra.
    + destruct (avoidScale_sign d1 lookAhead HL) as [_ S1].
      assert (E : d1 = 1.25 * lookAhead).
      { destruct (Req_dec_T d1 (1.25 * lookAhead)) as [E | E]; [exact E |].
        specialize (S1 ltac:(lra)). lra. }
      subst d1. rewrite avoidScale_linear in P by lra.
      replace (1.2 * (1.25 * lookAhead)) with (1.5 * lookAhead) in P by lra.
      rewrite ratio_scaled in P by lra. lra.
Qed.

Lemma normalize_x_axis (x : R) : 0 < x -> p5.normalize (createVector x 0) = createVector 1 0.
Proof.
  intros Hx. rewrite normalize_direction; rewrite mag_x_axis, Rabs_of_pos by lra; [| lra].
  apply Vector_eq; simpl; field; lra.
Qed.

Lemma normalize_y_axis (y : R) : 0 < y -> p5.normalize (createVector 0 y) = createVector 0 1.
Proof.
  intros Hy. rewrite normalize_direction; rewrite mag_y_axis, Rabs_of_pos by lra; [| lra].
  apply Vector_eq; simpl; field; lra.
Qed.

Lemma coneAhead_qualifies :
  qualifies (createVector 0 0) (createVector 1 0) 60 coneAhead = true.
Proof.
  unfold qualifies. simpl o_position. simpl o_radius.
  replace (p5.sub (createVector 15 0) (createVector 0 0)) with (createVector 15 0)
    by (apply Vector_eq; simpl; lra).
  rewrite mag_x_axis, Rabs_of_pos by lra.
  rewrite !normalize_x_axis by lra.
  rewrite Rltb_lt by lra. unfold Rgtb. rewrite Rltb_lt by (unfold p5.dot; simpl; lra).
  reflexivity.
Qed.

Lemma coneAhead_perpendicular :
  perpendicular (createVector 0 0) coneAhead = createVector 0 1.
Proof.
  unfold perpendicular. simpl o_position.
  replace (createVector _ _) with (createVector 0 15) by (apply Vector_eq; simpl; lra).
  apply normalize_y_axis. lra.
Qed.

Lemma coneAhead_dist : p5.dist (createVector 0 0) (o_position coneAhead) = 15.
Proof.
  unfold p5.dist. rewrite (mag_of_x _ 15) by (simpl; lra). apply Rabs_of_pos. lra.
Qed.

(** The oil slick [d] units ahead qualifies up to 90 units, the look-ahead
    60 plus its radius 30, and deflects to the left by the factor at [d]. *)
Lemma oilAhead_force (d : R) :
  0 < d < 90 ->
  qualifies (createVector 0 0) (createVector 1 0) 60 (oilAhead d) = true
  /\ p5.dist (createVector 0 0) (o_position (oilAhead d)) = d
  /\ Track.getObstacleAvoidanceForce (oilTrack d) (createVector 0 0) (createVector 1 0) 60
     = createVector 0 (1.5 - 1.2 * d / 60).
Proof.
  intros Hd.
  assert (Hs : p5.sub (createVector d 0) (createVector 0 0) = createVector d 0)
    by (apply Vector_eq; simpl; lra).
  assert (Hq : qualifies (createVector 0 0) (createVector 1 0) 60 (oilAhead d) = true).
  { unfold qualifies. simpl o_position. simpl o_radius. rewrite Hs.
    rewrite mag_x_axis, Rabs_of_pos by lra.
    rewrite !normalize_x_axis by lra.
    rewrite Rltb_lt by lra. unfold Rgtb. rewrite Rltb_lt by (unfold p5.dot; simpl; lra).
    reflexivity. }
  assert (Hdist : p5.dist (createVector 0 0) (o_position (oilAhead d)) = d).
  { unfold p5.dist. rewrite (mag_of_x _ d) by (simpl; lra). apply Rabs_of_pos. lra. }
  split; [exact Hq |]. split; [exact Hdist |].
  unfold Track.getObstacleAvoidanceForce. rewrite avoid_fold by lra.
  simpl Track.obstacles. simpl filter. rewrite Hq.
  simpl List.map. unfold deflection. rewrite Hdist, avoidScale_linear by lra.
  unfold perpendicular. simpl o_position. rewrite Hs.
  replace (createVector (- vy (createVector d 0)) (vx (createVector d 0)))
    with (createVector 0 d) by (apply Vector_eq; simpl; lra).
  rewrite normalize_y_axis by lra.
  apply Vector_eq; simpl; lra.
Qed.

Lemma C8_obstacle_avoidance_witness :
  Track.getObstacleAvoidanceForce (oilTrack 80) (createVector 0 0) (createVector 1 0) 60
    = vsum (List.map (deflection (createVector 0 0) 60)
              (filter (qualifies (createVector 0 0) (createVector 1 0) 60)
                 (Track.obstacles (oilTrack 80))))
  /\ p5.mag (deflection (createVector 0 0) 60 (oilAhead 80))
     = Rabs (avoidScale (p5.dist (createVector 0 0) (o_position (oilAhead 80))) 60)
  /\ avoidScale 0 60 = 1.5
  /\ avoidScale 60 60 = 0.3
  /\ avoidScale (1.25 * 60) 60 = 0
  /\ Rabs (avoidScale 60 60) < Rabs (avoidScale 15 60)
  /\ avoidScale 88 60 < 0
  /\ Rabs (avoidScale 80 60) < Rabs (avoidScale 88 60).
Proof.
  destruct (C8_obstacle_avoidance (oilTrack 80) (createVector 0 0) (createVector 1 0) 60)
    as [H1 [H2 [_ [H4 [H5 [H6 [_ [H8 H9]]]]]]]]; [lra |].
  split; [exact H1 |].
  split; [apply H2; apply oilAhead_force; lra |].
  split; [exact H4 |]. split; [exact H5 |]. split; [exact H6 |].
  split; [apply H8; lra |].
  split; [apply (H9 80 88); lra | apply (H9 80 88); lra].
Defined.

(** C8 as the specification words it fails twice.  For the cone 15 units
    ahead and [lookAhead = 60] the code deflects by 1.2, the value at 15 of
    the map from 0 to 1.5 and from [lookAhead] to 0.3; the map of the
    specification, from [lookAhead] to 1.5 down to 0 to 0.3, gives 0.6
    there.  And the magnitude does not always increase as the distance
    decreases: an oil slick, of radius 30, qualifies up to 90 units ahead,
    past the distance 75 where the factor is 0; at 88 units the car is
    deflected by 0.26 and at 80 units only by 0.1, both to the other
    side. *)
Lemma C8_deflection_not_as_specified :
  Track.getObstacleAvoidanceForce coneTrack (createVector 0 0) (createVector 1 0) 60
    = createVector 0 1.2
  /\ p5.mult (perpendicular (createVector 0 0) coneAhead)
             (spec_avoidScale (p5.dist (createVector 0 0) (o_position coneAhead)) 60)
    = createVector 0 0.6
  /\ Track.getObstacleAvoidanceForce coneTrack (createVector 0 0) (createVector 1 0) 60
    <> p5.mult (perpendicular (createVector 0 0) coneAhead)
               (spec_avoidScale (p5.dist (createVector 0 0) (o_position coneAhead)) 60)
  /\ Track.getObstacleAvoidanceForce (oilTrack 80) (createVector 0 0) (createVector 1 0) 60
    = createVector 0 (-0.1)
  /\ Track.getObstacleAvoidanceForce (oilTrack 88) (createVector 0 0) (createVector 1 0) 60
    = createVector 0 (-0.26)
  /\ p5.mag (Track.getObstacleAvoidanceForce (oilTrack 80) (createVector 0 0)
               (createVector 1 0) 60)
     < p5.mag (Track.getObstacleAvoidanceForce (oilTrack 88) (createVector 0 0)
                 (createVector 1 0) 60).
Proof.
  assert (H1 : Track.getObstacleAvoidanceForce coneTrack (createVector 0 0)
                 (createVector 1 0) 60 = createVector 0 1.2).
  { unfold Track.getObstacleAvoidanceForce. rewrite avoid_fold by lra.
    simpl Track.obstacles. simpl filter. rewrite coneAhead_qualifies.
    simpl List.map. unfold deflection.
    rewrite coneAhead_perpendicular, coneAhead_dist, avoidScale_linear by lra.
    apply Vector_eq; simpl; lra. }
  assert (H2 : p5.mult (perpendicular (createVector 0 0) coneAhead)
                 (spec_avoidScale (p5.dist (createVector 0 0) (o_position coneAhead)) 60)
               = createVector 0 0.6).
  { rewrite coneAhead_perpendicular, coneAhead_dist.
    unfold spec_avoidScale, p5.map. apply Vector_eq; simpl; lra. }
  assert (H3 : Track.getObstacleAvoidanceForce (oilTrack 80) (createVector 0 0)
                 (createVector 1 0) 60 = createVector 0 (-0.1)).
  { destruct (oilAhead_force 80) as [_ [_ H]]; [lra |]. rewrite H. f_equal. lra. }
  assert (H4 : Track.getObstacleAvoidanceForce (oilTrack 88) (createVector 0 0)
                 (createVector 1 0) 60 = createVector 0 (-0.26)).
  { destruct (oilAhead_force 88) as [_ [_ H]]; [lra |]. rewrite H. f_equal. lra. }
  split; [exact H1 | split; [exact H2 |]].
  split; [rewrite H1, H2; intros E; apply (f_equal vy) in E; simpl in E; lra |].
  split; [exact H3 |]. split; [exact H4 |].
  rewrite H3, H4.
  rewrite (mag_of_y _ (-0.1)), (mag_of_y _ (-0.26)) by reflexivity.
  rewrite (Rabs_of_neg (-0.1)), (Rabs_of_neg (-0.26)) by lra. lra.
Qed.

(** ** The speed cap *)

Ltac break_if :=
  match goal with
  | |- context [if ?b then _ else _] => destruct b eqn:?
  | H : context [if ?b then _ else _] |- _ => destruct b eqn:?
  end.

Ltac break_bind :=
  match goal with
  | H : bind ?m _ = Some _ |- _ =>
      let E := fresh "E" in destruct m eqn:E; simpl in H; [| discriminate H]
  end.

Lemma mag_scale_le (a : Vector) (n c : R) :
  0 <= n <= 1 -> p5.mag a <= c -> p5.mag (p5.mult a n) <= c.
Proof.
  intros Hn Ha. rewrite mag_mult, Rabs_of_pos by lra.
  pose proof (mag_nonneg a). nra.
Qed.

(** [edges] only ever shrinks the speed. *)
Lemma edges_speed (v : Vehicule.t) :
  p5.mag (Vehicule.velocity (Vehicule.edges v)) <= p5.mag (Vehicule.velocity v).
Proof.
  assert (Hx : forall a, p5.mag (createVector (vx a * -0.5) (vy a)) <= p5.mag a).
  { intros a. apply mag_le_iff; [apply mag_nonneg |]. rewrite mag_sqr.
    unfold p5.magSq; simpl. nra. }
  assert (Hy : forall a, p5.mag (createVector (vx a) (vy a * -0.5)) <= p5.mag a).
  { intros a. apply mag_le_iff; [apply mag_nonneg |]. rewrite mag_sqr.
    unfold p5.magSq; simpl. nra. }
  unfold Vehicule.edges.
  repeat break_if; simpl;
    repeat match goal with
    | |- context [createVector (vx ?a * -0.5) (vy ?a * -0.5)] =>
        change (createVector (vx a * -0.5) (vy a * -0.5))
          with (createVector (vx (createVector (vx a * -0.5) (vy a)))
                             (vy (createVector (vx a * -0.5) (vy a)) * -0.5))
    end;
    try (eapply Rle_trans; [apply Hy | apply Hx]);
    try apply Hx; try apply Hy; try lra.
Qed.

Lemma edges_maxspeed (v : Vehicule.t) :
  Vehicule.maxspeed (Vehicule.edges v) = Vehicule.maxspeed v.
Proof. unfold Vehicule.edges. repeat break_if; reflexivity. Qed.

(** The base integration step ends within the speed limit. *)
Lemma Vehicule_update_speed (v : Vehicule.t) :
  0 <= Vehicule.maxspeed v ->
  p5.mag (Vehicule.velocity (Vehicule.update v)) <= Vehicule.maxspeed v
  /\ Vehicule.maxspeed (Vehicule.update v) = Vehicule.maxspeed v
  /\ Vehicule.position (Vehicule.update v)
     = p5.add (Vehicule.position v) (Vehicule.velocity (Vehicule.update v))
  /\ Vehicule.acceleration (Vehicule.update v) = createVector 0 0.
Proof.
  intros H. unfold Vehicule.update; simpl. repeat split.
  - now apply mag_limit.
  - apply Vector_eq; simpl; ring.
Qed.

Lemma FollowerCar_update_speed (f : FollowerCar.t) :
  0 <= FollowerCar.maxspeed f -> FollowerCar.finished f = false ->
  p5.mag (FollowerCar.velocity (FollowerCar.update f)) <= FollowerCar.maxspeed f
  /\ FollowerCar.maxspeed (FollowerCar.update f) = FollowerCar.maxspeed f.
Proof.
  intros H Hf. unfold FollowerCar.update. rewrite Hf.
  unfold FollowerCar.velocity, FollowerCar.maxspeed in *. simpl. split.
  - eapply Rle_trans; [apply edges_speed |]. now apply Vehicule_update_speed.
  - rewrite edges_maxspeed. now apply Vehicule_update_speed.
Qed.

(** What the controls and the nitro leave alone. *)
Lemma handleInput_frame (p : PlayerCar.t) (k : Keys) :
  let q := PlayerCar.handleInput p k in
  PlayerCar.maxspeed q = PlayerCar.maxspeed p
  /\ PlayerCar.position q = PlayerCar.position p
  /\ PlayerCar.nitroFuel q = PlayerCar.nitroFuel p
  /\ PlayerCar.track q = PlayerCar.track p.
Proof.
  unfold PlayerCar.handleInput. repeat break_if; simpl; repeat split; reflexivity.
Qed.

Lemma handleAutoPilot_frame (p q : PlayerCar.t) :
  PlayerCar.handleAutoPilot p = Some q ->
  PlayerCar.maxspeed q = PlayerCar.maxspeed p
  /\ PlayerCar.position q = PlayerCar.position p
  /\ PlayerCar.nitroFuel q = PlayerCar.nitroFuel p
  /\ PlayerCar.track q = PlayerCar.track p.
Proof.
  unfold PlayerCar.handleAutoPilot. intros H.
  destruct (PlayerCar.track p) as [tr |] eqn:Et.
  - destruct (length (Track.waypoints tr) =? 0)%nat.
    + inversion H; subst. now rewrite Et.
    + break_bind. break_bind. repeat break_if; inversion H; subst; simpl;
        repeat split; try reflexivity; now rewrite Et.
  - inversion H; subst. now rewrite Et.
Qed.

Lemma updateNitro_frame (p : PlayerCar.t) :
  let q := PlayerCar.updateNitro p in
  PlayerCar.maxspeed q = PlayerCar.maxspeed p
  /\ PlayerCar.position q = PlayerCar.position p
  /\ PlayerCar.nitroActive q = PlayerCar.nitroActive p
  /\ PlayerCar.track q = PlayerCar.track p.
Proof.
  unfold PlayerCar.updateNitro. break_if; simpl; repeat split; reflexivity.
Qed.

(** The integration of the player: the velocity that is added to the
    position is within the limit of the frame. *)
Lemma integrate_speed (p q : PlayerCar.t) (k : Keys) :
  0 <= PlayerCar.maxspeed p ->
  PlayerCar.integrate p k = Some q ->
  p5.mag (PlayerCar.velocity q) <= PlayerCar.currentMaxSpeed q
  /\ PlayerCar.position q = p5.add (PlayerCar.position p) (PlayerCar.velocity q)
  /\ PlayerCar.maxspeed q = PlayerCar.maxspeed p.
Proof.
  intros Hm H. unfold PlayerCar.integrate in H. break_bind.
  assert (Hfr : PlayerCar.maxspeed t = PlayerCar.maxspeed p
                /\ PlayerCar.position t = PlayerCar.position p).
  { destruct (PlayerCar.autoMode p).
    - apply handleAutoPilot_frame in E. tauto.
    - inversion E; subst. pose proof (handleInput_frame p k) as F. simpl in F. tauto. }
  destruct Hfr as [Hms Hpos].
  pose proof (updateNitro_frame t) as [Nm [Np [Na Nt]]].
  inversion H; subst; clear H.
  set (u := PlayerCar.updateNitro t) in *.
  unfold PlayerCar.velocity, PlayerCar.position, PlayerCar.maxspeed,
    PlayerCar.currentMaxSpeed in *. simpl.
  repeat split.
  - apply mag_limit. destruct (PlayerCar.nitroActive u).
    + unfold PlayerCar.nitroMaxspeed. lra.
    + unfold PlayerCar.maxspeed; simpl. rewrite Nm, Hms. exact Hm.
  - rewrite Np, Hpos. reflexivity.
  - rewrite Nm, Hms. reflexivity.
Qed.

(** The obstacles never push the speed over a limit of 3 or more: a cone
    and the slow-down scale the velocity down, and a barrier adds a
    vector of length at most 3 and then halves. *)
Lemma handleObstacles_speed (p : PlayerCar.t) (c : R) :
  3 <= c -> p5.mag (PlayerCar.velocity p) <= c ->
  p5.mag (PlayerCar.velocity (PlayerCar.handleObstacles p)) <= c.
Proof.
  intros Hc Hv. unfold PlayerCar.handleObstacles.
  destruct (PlayerCar.track p) as [tr |]; [| exact Hv].
  set (col := Track.checkObstacleCollision tr (PlayerCar.position p)).
  assert (H1 : forall q, p5.mag (PlayerCar.velocity q) <= c ->
            p5.mag (PlayerCar.velocity
              (if (0 <? PlayerCar.slowdownTimer q)%nat
               then PlayerCar.set_velocity
                      (PlayerCar.set_slowdownTimer q (PlayerCar.slowdownTimer q - 1))
                      (p5.mult (PlayerCar.velocity
                         (PlayerCar.set_slowdownTimer q (PlayerCar.slowdownTimer q - 1))) 0.98)
               else q)) <= c).
  { intros q Hq. break_if; [| exact Hq]. unfold PlayerCar.velocity in *; simpl.
    apply mag_scale_le; [lra | exact Hq]. }
  apply H1.
  assert (H2 : forall q, p5.mag (PlayerCar.velocity q) <= c ->
            p5.mag (PlayerCar.velocity
              (if (0 <? PlayerCar.oilTimer q)%nat
               then
                 (if (PlayerCar.oilTimer
                        (PlayerCar.set_drift_factor
                           (PlayerCar.set_oilTimer q (PlayerCar.oilTimer q - 1)) 0.98) <=? 0)%nat
                  then PlayerCar.set_onOil
                         (PlayerCar.set_drift_factor
                            (PlayerCar.set_drift_factor
                               (PlayerCar.set_oilTimer q (PlayerCar.oilTimer q - 1)) 0.98)
                            0.90) false
                  else PlayerCar.set_drift_factor
                         (PlayerCar.set_oilTimer q (PlayerCar.oilTimer q - 1)) 0.98)
               else q)) <= c).
  { intros q Hq. repeat break_if; exact Hq. }
  apply H2.
  destruct (hit col); [| exact Hv].
  destruct (c_type col) as [[| |] |]; [| destruct (c_obstacle col) as [o |] | |];
    try exact Hv; unfold PlayerCar.velocity in *; simpl.
  - apply mag_scale_le; [lra | exact Hv].
  - rewrite mag_mult, Rabs_of_pos by lra.
    pose proof (mag_add (Vehicule.velocity (PlayerCar.base p))
                  (p5.mult (p5.normalize
                     (p5.sub (PlayerCar.position p) (o_position o))) 3)) as T.
    rewrite (mag_mult _ 3), Rabs_of_pos in T by lra.
    pose proof (mag_normalize_le (p5.sub (PlayerCar.position p) (o_position o))).
    lra.
Qed.

Lemma handleObstacles_frame (p : PlayerCar.t) :
  let q := PlayerCar.handleObstacles p in
  PlayerCar.maxspeed q = PlayerCar.maxspeed p
  /\ PlayerCar.nitroActive q = PlayerCar.nitroActive p
  /\ PlayerCar.nitroFuel q = PlayerCar.nitroFuel p.
Proof.
  unfold PlayerCar.handleObstacles.
  destruct (PlayerCar.track p); [| repeat split].
  destruct (hit _);
    [destruct (c_type _) as [[| |] |]; [| destruct (c_obstacle _) | |] |];
    repeat break_if; simpl; repeat split; reflexivity.
Qed.

Lemma checkWaypoints_frame (p q : PlayerCar.t) :
  PlayerCar.checkWaypoints p = Some q ->
  PlayerCar.base q = PlayerCar.base p
  /\ PlayerCar.nitroActive q = PlayerCar.nitroActive p
  /\ PlayerCar.nitroFuel q = PlayerCar.nitroFuel p.
Proof.
  unfold PlayerCar.checkWaypoints. intros H.
  destruct (PlayerCar.track p); [| inversion H; repeat split].
  break_bind. repeat break_if; inversion H; repeat split.
Qed.

Lemma afterIntegration_speed (q p' : PlayerCar.t) :
  3 <= PlayerCar.maxspeed q ->
  p5.mag (PlayerCar.velocity q) <= PlayerCar.currentMaxSpeed q ->
  PlayerCar.handleBoundary q = Some q ->
  PlayerCar.afterIntegration q = Some p' ->
  p5.mag (PlayerCar.velocity p') <= PlayerCar.currentMaxSpeed p'.
Proof.
  intros Hm Hv Hb H. unfold PlayerCar.afterIntegration in H.
  rewrite Hb in H. simpl in H. break_bind.
  inversion H; subst; clear H.
  apply checkWaypoints_frame in E. destruct E as [Eb [Ea _]].
  pose proof (handleObstacles_frame q) as [Fm [Fa _]].
  assert (Hc : 3 <= PlayerCar.currentMaxSpeed q).
  { unfold PlayerCar.currentMaxSpeed, PlayerCar.nitroMaxspeed. break_if; lra. }
  pose proof (handleObstacles_speed q _ Hc Hv) as Ho.
  unfold PlayerCar.currentMaxSpeed, PlayerCar.velocity, PlayerCar.maxspeed in *.
  simpl. rewrite edges_maxspeed, Ea, Fa, Eb, Fm.
  eapply Rle_trans; [apply edges_speed |]. exact Ho.
Qed.

(** ** Evaluating the code on concrete states *)

(** Unfold the record updates and projections. *)
Ltac records :=
  cbv beta iota zeta delta
    [PlayerCar.set_base PlayerCar.set_velocity PlayerCar.set_position
     PlayerCar.set_drift_factor PlayerCar.set_angle PlayerCar.set_progress
     PlayerCar.set_finished PlayerCar.set_autoMode PlayerCar.set_nitroFuel
     PlayerCar.set_nitroActive PlayerCar.set_onOil PlayerCar.set_oilTimer
     PlayerCar.set_slowdownTimer
     PlayerCar.position PlayerCar.velocity PlayerCar.maxspeed PlayerCar.maxforce
     PlayerCar.currentMaxSpeed
     PlayerCar.base PlayerCar.track PlayerCar.drift_factor PlayerCar.angle
     PlayerCar.laps PlayerCar.checkpointsReached PlayerCar.lastCheckpoint
     PlayerCar.finished PlayerCar.autoMode PlayerCar.nitroFuel PlayerCar.nitroActive
     PlayerCar.onOil PlayerCar.oilTimer PlayerCar.slowdownTimer
     FollowerCar.set_base FollowerCar.set_currentWaypointIndex FollowerCar.set_laps
     FollowerCar.set_checkpointsReached FollowerCar.set_lastCheckpoint
     FollowerCar.position FollowerCar.velocity FollowerCar.maxspeed FollowerCar.maxforce
     FollowerCar.base FollowerCar.track FollowerCar.currentWaypointIndex
     FollowerCar.laps FollowerCar.checkpointsReached FollowerCar.lastCheckpoint
     FollowerCar.finished
     Vehicule.set_position Vehicule.set_velocity Vehicule.set_acceleration
     Vehicule.position Vehicule.velocity Vehicule.acceleration Vehicule.r
     Vehicule.maxforce Vehicule.maxspeed
     Track.level Track.waypoints Track.trackWidth Track.obstacles
     key_up key_down key_left key_right key_nitro noKeys
     hit c_type c_obstacle o_type o_position o_radius
     vx vy p5.add p5.sub p5.mult p5.dot p5.lerp
     Nat.ltb Nat.leb Nat.eqb nth_error length
     bind andb orb negb].

(** Decide the comparisons that linear arithmetic settles. *)
Ltac cmp :=
  repeat match goal with
  | |- context [Rltb ?a ?b] =>
      first [rewrite (Rltb_lt a b) by lra | rewrite (Rltb_ge a b) by lra]
  end.

Lemma limit_within (a : Vector) (c : R) : p5.magSq a <= c * c -> p5.limit a c = a.
Proof. intros H. unfold p5.limit. now rewrite (proj2 (Rgtb_false_iff _ _) H). Qed.

Lemma if_same {A : Type} (b : bool) (x : A) : (if b then x else x) = x.
Proof. now destruct b. Qed.

Lemma integrate_straight (x v : R) (l : nat) :
  0 <= v <= 6 ->
  PlayerCar.integrate (playerAt (createVector x 350) (createVector v 0) l 100) noKeys
  = Some (playerAt (createVector (x + v * 0.97) 350) (createVector (v * 0.97) 0) l 100).
Proof.
  intros Hv.
  unfold PlayerCar.integrate, PlayerCar.handleInput, PlayerCar.updateNitro, playerAt.
  records. rewrite if_same. records.
  unfold PlayerCar.nitroMaxFuel, PlayerCar.nitroRechargeRate, PlayerCar.friction.
  rewrite Rmin_left by lra.
  unfold p5.fromAngle. rewrite cos_0, sin_0. records.
  rewrite limit_within by (unfold p5.magSq; records; nra).
  records. do 3 f_equal; f_equal; lra.
Qed.

Lemma dist_on_row (x c y : R) :
  p5.dist (createVector x y) (createVector c y) = Rabs (c - x).
Proof. unfold p5.dist. apply mag_of_x; simpl; ring. Qed.

Lemma centreTrack_closest (pos : Vector) :
  nth_error (Track.waypoints centreTrack) (Track.getClosestWaypointIndex centreTrack pos)
  = Some (createVector 500 350).
Proof. reflexivity. Qed.

Lemma centreTrack_boundary_inside (x : R) (vel : Vector) :
  465 <= x <= 535 ->
  Track.getTrackBoundaryForce centreTrack (createVector x 350) vel = Some (createVector 0 0).
Proof.
  intros Hx. unfold Track.getTrackBoundaryForce. rewrite centreTrack_closest.
  records. fold (p5.dist (createVector x 350) (createVector 500 350)).
  rewrite dist_on_row.
  rewrite (proj2 (Rgtb_false_iff _ _)); [reflexivity |].
  unfold centreTrack, Rabs. destruct (Rcase_abs _); lra.
Qed.

Lemma centreTrack_boundary_left (x : R) (vel : Vector) :
  x < 465 ->
  Track.getTrackBoundaryForce centreTrack (createVector x 350) vel
  = Some (createVector (0.3 + 0.7 * (500 - x - 35) / 25) 0).
Proof.
  intros Hx. unfold Track.getTrackBoundaryForce. rewrite centreTrack_closest.
  records. fold (p5.dist (createVector x 350) (createVector 500 350)).
  rewrite dist_on_row, Rabs_of_pos by lra. unfold centreTrack.
  rewrite (proj2 (Rgtb_true_iff _ _)) by lra.
  replace (createVector (500 - x) (350 - 350)) with (createVector (500 - x) 0)
    by (f_equal; ring).
  rewrite normalize_x_axis by lra. records. unfold p5.map.
  f_equal. f_equal; lra.
Qed.

Lemma afterIntegration_at_waypoint (l : nat) (fuel : R) :
  PlayerCar.afterIntegration (playerAt (createVector 500 350) (createVector 0 0) l fuel)
  = Some (playerAt (createVector 500 350) (createVector 0 0) (l + 1) fuel).
Proof.
  unfold PlayerCar.afterIntegration, PlayerCar.handleBoundary, playerAt. records.
  rewrite centreTrack_boundary_inside by lra. records.
  rewrite mag_zero. unfold Rgtb. rewrite Rltb_ge by lra.
  unfold PlayerCar.handleObstacles, centreTrack. records.
  unfold Track.checkObstacleCollision. simpl Track.checkObstacleCollision_loop. records.
  unfold PlayerCar.checkWaypoints. records.
  change ((0 + 1) mod 1)%nat with 0%nat. records.
  rewrite dist_on_row. replace (500 - 500) with 0 by ring. rewrite Rabs_R0.
  unfold PlayerCar.waypointReachDistance. rewrite Rltb_lt by lra. records.
  rewrite (proj2 (Rgeb_true_iff _ _))
    by (change (INR (0 + 1)) with 1; change (INR 1) with 1; lra).
  unfold Vehicule.edges, width, height. records.
  unfold Rgtb. cmp. records. cmp. records. reflexivity.
Qed.

Lemma afterIntegration_off_track :
  PlayerCar.afterIntegration (playerAt (createVector 405.82 350) (createVector 5.82 0) 0 100)
  = Some (playerAt (createVector 405.82 350) (createVector 8.86108 0) 0 100).
Proof.
  unfold PlayerCar.afterIntegration, PlayerCar.handleBoundary, playerAt. records.
  rewrite centreTrack_boundary_left by lra. records.
  rewrite mag_x_axis, Rabs_of_pos by lra. unfold Rgtb. rewrite Rltb_lt by lra.
  unfold PlayerCar.handleObstacles, centreTrack. records.
  unfold Track.checkObstacleCollision. simpl Track.checkObstacleCollision_loop. records.
  unfold PlayerCar.checkWaypoints. records.
  change ((0 + 1) mod 1)%nat with 0%nat. records.
  rewrite dist_on_row, Rabs_of_pos by lra.
  unfold PlayerCar.waypointReachDistance. rewrite Rltb_ge by lra. records.
  unfold Vehicule.edges, width, height. records.
  unfold Rgtb. cmp. records. cmp. records.
  do 3 f_equal. f_equal; lra.
Qed.

Lemma integrate_at_waypoint (l : nat) :
  PlayerCar.integrate (playerAt (createVector 500 350) (createVector 0 0) l 100) noKeys
  = Some (playerAt (createVector 500 350) (createVector 0 0) l 100).
Proof.
  rewrite integrate_straight by lra. unfold playerAt. do 3 f_equal; f_equal; lra.
Qed.

(** C1, as the code has it: the velocity that a step adds to the position
    is within the speed limit (for the player, the nitro limit while the
    nitro is active), and so is the velocity at the end of [Vehicule.update]
    and of [FollowerCar.update]; at the end of [PlayerCar.update] it is
    within the limit in every frame in which [handleBoundary] changes
    nothing, whatever [handleObstacles] does. *)
Theorem C1_speed_cap (v : Vehicule.t) (f : FollowerCar.t)
    (p q p' : PlayerCar.t) (k : Keys) :
  (0 <= Vehicule.maxspeed v ->
     p5.mag (Vehicule.velocity (Vehicule.update v)) <= Vehicule.maxspeed v
     /\ Vehicule.position (Vehicule.update v)
        = p5.add (Vehicule.position v) (Vehicule.velocity (Vehicule.update v)))
  /\ (0 <= FollowerCar.maxspeed f -> FollowerCar.finished f = false ->
        p5.mag (FollowerCar.velocity (FollowerCar.update f)) <= FollowerCar.maxspeed f)
  /\ (0 <= PlayerCar.maxspeed p -> PlayerCar.integrate p k = Some q ->
        p5.mag (PlayerCar.velocity q) <= PlayerCar.currentMaxSpeed q
        /\ PlayerCar.position q = p5.add (PlayerCar.position p) (PlayerCar.velocity q))
  /\ (3 <= PlayerCar.maxspeed p -> PlayerCar.integrate p k = Some q ->
        PlayerCar.handleBoundary q = Some q ->
        PlayerCar.afterIntegration q = Some p' ->
        p5.mag (PlayerCar.velocity p') <= PlayerCar.currentMaxSpeed p').
Proof.
  split; [| split; [| split]].
  - intros H. pose proof (Vehicule_update_speed v H). tauto.
  - intros H Hf. now apply FollowerCar_update_speed.
  - intros H Hi. pose proof (integrate_speed p q k H Hi). tauto.
  - intros H Hi Hb Ha.
    assert (H0 : 0 <= PlayerCar.maxspeed p) by lra.
    destruct (integrate_speed p q k H0 Hi) as [Hv [_ Hm]].
    apply (afterIntegration_speed q p'); [rewrite Hm; exact H | exact Hv | exact Hb | exact Ha].
Qed.

Lemma limit_x_axis (x c : R) :
  0 <= c -> c < x -> p5.limit (createVector x 0) c = createVector c 0.
Proof.
  intros Hc Hx. unfold p5.limit, p5.magSq. cbn [vx vy].
  rewrite (proj2 (Rgtb_true_iff _ _)) by nra.
  replace (x * x + 0 * 0) with (x * x) by ring.
  rewrite sqrt_square by lra.
  unfold p5.div. rewrite (Reqb_neq x 0) by lra.
  apply Vector_eq; cbn [vx vy p5.mult]; field; lra.
Qed.

Lemma update_fastVehicule :
  Vehicule.update fastVehicule
  = Vehicule.mk (createVector 104 100) (createVector 4 0) (createVector 0 0) 10 0.2 4.
Proof.
  unfold Vehicule.update, fastVehicule. records.
  replace (createVector (10 + 1) (0 + 0)) with (createVector 11 0)
    by (apply Vector_eq; simpl; lra).
  rewrite limit_x_axis by lra. records.
  f_equal; apply Vector_eq; simpl; lra.
Qed.

Lemma update_fastFollower :
  FollowerCar.update fastFollower
  = FollowerCar.mk
      (Vehicule.mk (createVector 104 100) (createVector 4 0) (createVector 0 0) 10 0.2 4)
      None 0 0 0 0 false.
Proof.
  unfold FollowerCar.update, fastFollower. records. rewrite update_fastVehicule.
  unfold Vehicule.edges, width, height, Rgtb. records. cmp. records. cmp. records.
  reflexivity.
Qed.

Lemma integrate_nitroPlayer :
  PlayerCar.integrate (nitroPlayer (createVector 495 350) (createVector 12 0) 0 100 false 0)
    nitroKey
  = Some (nitroPlayer (createVector 505 350) (createVector 10 0) 0 98.5 true 0).
Proof.
  unfold PlayerCar.integrate, PlayerCar.handleInput, nitroPlayer, nitroKey. records.
  rewrite mag_x_axis, Rabs_of_pos by lra.
  rewrite (proj2 (Rgtb_true_iff 12 0.5)) by lra.
  rewrite (proj2 (Rgtb_true_iff 100 0)) by lra. records.
  unfold PlayerCar.updateNitro. records.
  rewrite (proj2 (Rgtb_true_iff 100 0)) by lra. records.
  unfold PlayerCar.nitroBoostPower, PlayerCar.nitroDrainRate, PlayerCar.friction,
    PlayerCar.nitroMaxspeed.
  rewrite Rmax_right by lra.
  unfold p5.fromAngle. rewrite cos_0, sin_0. records.
  match goal with
  | |- context [p5.limit ?v 10] =>
      replace v with (createVector 11.9795 0) by (apply Vector_eq; simpl; lra)
  end.
  rewrite limit_x_axis by lra. records.
  unfold nitroPlayer.
  replace (495 + 10) with 505 by lra. replace (350 + 0) with 350 by lra.
  replace (100 - 1.5) with 98.5 by lra. reflexivity.
Qed.

Lemma coneCentreTrack_boundary_inside (x : R) (vel : Vector) :
  465 <= x <= 535 ->
  Track.getTrackBoundaryForce coneCentreTrack (createVector x 350) vel
  = Some (createVector 0 0).
Proof.
  intros Hx. unfold Track.getTrackBoundaryForce.
  change (nth_error (Track.waypoints coneCentreTrack)
            (Track.getClosestWaypointIndex coneCentreTrack (createVector x 350)))
    with (Some (createVector 500 350)).
  records. fold (p5.dist (createVector x 350) (createVector 500 350)).
  rewrite dist_on_row.
  rewrite (proj2 (Rgtb_false_iff _ _)); [reflexivity |].
  unfold coneCentreTrack, Rabs. destruct (Rcase_abs _); lra.
Qed.

Lemma handleBoundary_nitroPlayer :
  PlayerCar.handleBoundary
    (nitroPlayer (createVector 505 350) (createVector 10 0) 0 98.5 true 0)
  = Some (nitroPlayer (createVector 505 350) (createVector 10 0) 0 98.5 true 0).
Proof.
  unfold PlayerCar.handleBoundary, nitroPlayer. records.
  rewrite coneCentreTrack_boundary_inside by lra. records.
  rewrite mag_zero. unfold Rgtb. rewrite Rltb_ge by lra. reflexivity.
Qed.

Lemma afterIntegration_nitroPlayer :
  PlayerCar.afterIntegration
    (nitroPlayer (createVector 505 350) (createVector 10 0) 0 98.5 true 0)
  = Some (nitroPlayer (createVector 505 350) (createVector 6.86 0) 1 98.5 true 29).
Proof.
  unfold PlayerCar.afterIntegration. rewrite handleBoundary_nitroPlayer.
  cbv beta iota delta [bind].
  unfold PlayerCar.handleObstacles, nitroPlayer, coneCentreTrack. records.
  unfold Track.checkObstacleCollision. records.
  cbn [Track.checkObstacleCollision_loop]. records.
  rewrite dist_on_row. rewrite Rabs_of_pos by lra.
  rewrite Rltb_lt by lra. records.
  unfold PlayerCar.checkWaypoints. records.
  change ((0 + 1) mod 1)%nat with 0%nat. records.
  rewrite dist_on_row. rewrite (Rabs_of_neg (500 - 505)) by lra.
  unfold PlayerCar.waypointReachDistance. rewrite Rltb_lt by lra. records.
  rewrite (proj2 (Rgeb_true_iff _ _))
    by (change (INR (0 + 1)) with 1; change (INR 1) with 1; lra).
  unfold Vehicule.edges, width, height. records.
  unfold Rgtb. cmp. records. cmp. records.
  replace (10 * 0.7 * 0.98) with 6.86 by lra.
  replace (0 * 0.7 * 0.98) with 0 by lra.
  replace (30 - 1)%nat with 29%nat by reflexivity. reflexivity.
Qed.

Lemma C1_speed_cap_witness :
  (p5.mag (Vehicule.velocity (Vehicule.update fastVehicule)) <= Vehicule.maxspeed fastVehicule
   /\ Vehicule.position (Vehicule.update fastVehicule)
      = p5.add (Vehicule.position fastVehicule)
          (Vehicule.velocity (Vehicule.update fastVehicule)))
  /\ p5.mag (FollowerCar.velocity (FollowerCar.update fastFollower))
     <= FollowerCar.maxspeed fastFollower
  /\ (p5.mag (PlayerCar.velocity
                (nitroPlayer (createVector 505 350) (createVector 10 0) 0 98.5 true 0))
      <= PlayerCar.currentMaxSpeed
           (nitroPlayer (createVector 505 350) (createVector 10 0) 0 98.5 true 0)
      /\ PlayerCar.position
           (nitroPlayer (createVector 505 350) (createVector 10 0) 0 98.5 true 0)
         = p5.add
             (PlayerCar.position
                (nitroPlayer (createVector 495 350) (createVector 12 0) 0 100 false 0))
             (PlayerCar.velocity
                (nitroPlayer (createVector 505 350) (createVector 10 0) 0 98.5 true 0)))
  /\ p5.mag (PlayerCar.velocity
               (nitroPlayer (createVector 505 350) (createVector 6.86 0) 1 98.5 true 29))
     <= PlayerCar.currentMaxSpeed
          (nitroPlayer (createVector 505 350) (createVector 6.86 0) 1 98.5 true 29).
Proof.
  destruct (C1_speed_cap fastVehicule fastFollower
              (nitroPlayer (createVector 495 350) (createVector 12 0) 0 100 false 0)
              (nitroPlayer (createVector 505 350) (createVector 10 0) 0 98.5 true 0)
              (nitroPlayer (createVector 505 350) (createVector 6.86 0) 1 98.5 true 29)
              nitroKey)
    as [H1 [H2 [H3 H4]]].
  split; [| split; [| split]].
  - apply H1. unfold fastVehicule. records. lra.
  - apply H2; [unfold fastFollower, fastVehicule; records; lra | reflexivity].
  - apply H3; [unfold nitroPlayer; records; lra | apply integrate_nitroPlayer].
  - apply H4.
    + unfold nitroPlayer. records. lra.
    + apply integrate_nitroPlayer.
    + apply handleBoundary_nitroPlayer.
    + apply afterIntegration_nitroPlayer.
Defined.

(** C1 as the specification words it fails at the end of [PlayerCar.update].  A
    player 100 units left of the only waypoint drives towards it at the
    full speed 6, nitro off.  The step integrates the velocity (5.82, 0),
    within the limit; then [handleBoundary], which runs after the clamp,
    scales it by 0.85 and adds twice the boundary force 1.95704, and the
    call ends with the speed 8.86108, above the limit 6. *)
Lemma C1_boundary_after_clamp :
  PlayerCar.update (playerAt (createVector 400 350) (createVector 6 0) 0 100) noKeys
    = Some (playerAt (createVector 405.82 350) (createVector 8.86108 0) 0 100)
  /\ PlayerCar.currentMaxSpeed (playerAt (createVector 405.82 350) (createVector 8.86108 0) 0 100)
     = 6
  /\ p5.mag (PlayerCar.velocity (playerAt (createVector 405.82 350) (createVector 8.86108 0) 0 100))
     = 8.86108
  /\ p5.mag (PlayerCar.velocity (playerAt (createVector 400 350) (createVector 6 0) 0 100)) = 6
  /\ ~ (p5.mag (PlayerCar.velocity
                  (playerAt (createVector 405.82 350) (createVector 8.86108 0) 0 100))
        <= PlayerCar.currentMaxSpeed
             (playerAt (createVector 405.82 350) (createVector 8.86108 0) 0 100)).
Proof.
  assert (Hend : p5.mag (PlayerCar.velocity
                   (playerAt (createVector 405.82 350) (createVector 8.86108 0) 0 100))
                 = 8.86108).
  { unfold playerAt. records. rewrite mag_x_axis. apply Rabs_of_pos. lra. }
  split; [| split; [| split; [| split]]];
    [| | | | rewrite Hend; unfold playerAt; records; lra].
  - unfold PlayerCar.update. simpl PlayerCar.finished. cbv iota.
    rewrite integrate_straight by lra. unfold bind.
    replace (playerAt (createVector (400 + 6 * 0.97) 350) (createVector (6 * 0.97) 0) 0 100)
      with (playerAt (createVector 405.82 350) (createVector 5.82 0) 0 100)
      by (unfold playerAt; do 2 f_equal; f_equal; lra).
    apply afterIntegration_off_track.
  - reflexivity.
  - unfold playerAt. records. rewrite mag_x_axis. apply Rabs_of_pos. lra.
  - unfold playerAt. records. rewrite mag_x_axis. apply Rabs_of_pos. lra.
Qed.

(** ** Laps and checkpoints *)

(** [checkWaypoints], case by case. *)
Lemma checkWaypoints_cases (p q : PlayerCar.t) (tr : Track.t) :
  PlayerCar.track p = Some tr ->
  PlayerCar.checkWaypoints p = Some q ->
  PlayerCar.track q = Some tr
  /\ PlayerCar.finished q = PlayerCar.finished p
  /\ if playerReaches p tr then
       PlayerCar.lastCheckpoint q = expectedNext p tr
       /\ if lapRule true (expectedNext p tr) (PlayerCar.checkpointsReached p + 1)
               (length (Track.waypoints tr))
          then PlayerCar.laps q = (PlayerCar.laps p + 1)%nat
               /\ PlayerCar.checkpointsReached q = 0%nat
          else PlayerCar.laps q = PlayerCar.laps p
               /\ PlayerCar.checkpointsReached q = (PlayerCar.checkpointsReached p + 1)%nat
     else q = p.
Proof.
  intros Ht H. unfold PlayerCar.checkWaypoints in H. rewrite Ht in H.
  unfold playerReaches, lapRule, expectedNext.
  destruct (nth_error _ _) as [wp |]; [simpl in H | discriminate H].
  destruct (Rltb _ _).
  - simpl andb. destruct (_ && _); inversion H; subst; simpl; rewrite ?Ht; repeat split.
  - inversion H; subst. rewrite Ht. repeat split.
Qed.

Lemma checkWaypoints_total (p : PlayerCar.t) (tr : Track.t) :
  PlayerCar.track p = Some tr -> Track.waypoints tr <> [] ->
  exists q, PlayerCar.checkWaypoints p = Some q.
Proof.
  intros Ht Hne. unfold PlayerCar.checkWaypoints. rewrite Ht.
  assert (Hn : length (Track.waypoints tr) <> 0%nat)
    by (destruct (Track.waypoints tr); [contradiction | discriminate]).
  pose proof (Nat.mod_upper_bound (PlayerCar.lastCheckpoint p + 1) _ Hn) as Hlt.
  apply nth_error_Some in Hlt.
  destruct (nth_error _ _) as [wp |]; [| contradiction]. simpl.
  repeat break_if; eexists; reflexivity.
Qed.

(** [followPath], case by case. *)
Lemma followPath_cases (f g : FollowerCar.t) (F : Vector) (tr : Track.t) :
  FollowerCar.track f = Some tr ->
  FollowerCar.followPath f = Some (g, F) ->
  FollowerCar.track g = Some tr
  /\ FollowerCar.base g = FollowerCar.base f
  /\ FollowerCar.finished g = FollowerCar.finished f
  /\ if followerReaches f tr then
       FollowerCar.currentWaypointIndex g = nextIndex f tr
       /\ FollowerCar.lastCheckpoint g = nextIndex f tr
       /\ if lapRule true (nextIndex f tr) (FollowerCar.checkpointsReached f + 1)
               (length (Track.waypoints tr))
          then FollowerCar.laps g = (FollowerCar.laps f + 1)%nat
               /\ FollowerCar.checkpointsReached g = 0%nat
          else FollowerCar.laps g = FollowerCar.laps f
               /\ FollowerCar.checkpointsReached g
                  = (FollowerCar.checkpointsReached f + 1)%nat
     else g = f.
Proof.
  intros Ht H. unfold FollowerCar.followPath in H. rewrite Ht in H.
  unfold followerReaches, lapRule, nextIndex.
  destruct (nth_error _ (FollowerCar.currentWaypointIndex f)) as [wp |];
    [simpl in H | discriminate H].
  destruct (Rltb _ _).
  - simpl andb. simpl in H. destruct (_ && _); simpl in H;
      break_bind; inversion H; subst; simpl; rewrite ?Ht; repeat split.
  - break_bind. inversion H; subst. rewrite Ht. repeat split.
Qed.

Lemma followPath_total (f : FollowerCar.t) (tr : Track.t) :
  FollowerCar.track f = Some tr ->
  (FollowerCar.currentWaypointIndex f < length (Track.waypoints tr))%nat ->
  exists g F, FollowerCar.followPath f = Some (g, F).
Proof.
  intros Ht Hlt. unfold FollowerCar.followPath. rewrite Ht.
  assert (Hn : length (Track.waypoints tr) <> 0%nat) by lia.
  pose proof (Nat.mod_upper_bound (FollowerCar.currentWaypointIndex f + 1) _ Hn) as Hm.
  apply nth_error_Some in Hlt, Hm.
  destruct (nth_error _ (FollowerCar.currentWaypointIndex f)) as [wp |] eqn:E;
    [| contradiction]. simpl.
  destruct (Rltb _ _); simpl.
  - destruct (_ && _); simpl;
      (destruct (nth_error _ (_ mod _)%nat) as [wp' |]; [| contradiction]);
      simpl; eexists; eexists; reflexivity.
  - rewrite E. simpl. eexists; eexists; reflexivity.
Qed.

Lemma lapRule_80_10 : lapRule true 0 10 80 = false.
Proof.
  unfold lapRule. rewrite !INR_IZR_INZ. simpl Z.of_nat.
  rewrite (proj2 (Rgeb_false_iff _ _)) by lra. reflexivity.
Qed.

Lemma lapRule_80_70 : lapRule true 0 70 80 = true.
Proof.
  unfold lapRule. rewrite !INR_IZR_INZ. simpl Z.of_nat.
  rewrite (proj2 (Rgeb_true_iff _ _)) by lra. reflexivity.
Qed.

(** C2: for the player ([checkWaypoints]) and for an opponent
    ([followPath]) the lap counter goes up by one exactly when the lap
    rule holds (a checkpoint is reached, the index it sets [lastCheckpoint]
    to is 0, and at least 0.8 times the waypoint count has been
    accumulated, the checkpoint just reached included), and then the
    accumulator is back at 0; otherwise the lap counter stays.  With 80
    waypoints, 10 accumulated checkpoints do not count a lap and 70 do. *)
Theorem C2_lap_rule (p q : PlayerCar.t) (f g : FollowerCar.t) (F : Vector)
    (tr : Track.t) :
  (PlayerCar.track p = Some tr -> PlayerCar.checkWaypoints p = Some q ->
     let lap := lapRule (playerReaches p tr) (expectedNext p tr)
                  (PlayerCar.checkpointsReached p + 1) (length (Track.waypoints tr)) in
     PlayerCar.laps q = (if lap then PlayerCar.laps p + 1 else PlayerCar.laps p)%nat
     /\ (lap = true ->
           PlayerCar.checkpointsReached q = 0%nat /\ PlayerCar.lastCheckpoint q = 0%nat))
  /\ (FollowerCar.track f = Some tr -> FollowerCar.followPath f = Some (g, F) ->
        let lap := lapRule (followerReaches f tr) (nextIndex f tr)
                     (FollowerCar.checkpointsReached f + 1) (length (Track.waypoints tr)) in
        FollowerCar.laps g = (if lap then FollowerCar.laps f + 1 else FollowerCar.laps f)%nat
        /\ (lap = true ->
              FollowerCar.checkpointsReached g = 0%nat
              /\ FollowerCar.lastCheckpoint g = 0%nat))
  /\ lapRule true 0 10 80 = false
  /\ lapRule true 0 70 80 = true.
Proof.
  split; [| split; [| split; [apply lapRule_80_10 | apply lapRule_80_70]]].
  - intros Ht H. destruct (checkWaypoints_cases p q tr Ht H) as [_ [_ Hc]].
    destruct (playerReaches p tr).
    + destruct Hc as [Hl Hc]. simpl.
      destruct (lapRule true _ _ _) eqn:E; destruct Hc as [H1 H2].
      * split; [exact H1 |]. intros _. split; [exact H2 |].
        rewrite Hl. unfold lapRule in E. simpl in E.
        apply andb_prop in E. destruct E as [E _]. now apply Nat.eqb_eq in E.
      * split; [exact H1 | discriminate].
    + subst q. simpl. split; [reflexivity | discriminate].
  - intros Ht H. destruct (followPath_cases f g F tr Ht H) as [_ [_ [_ Hc]]].
    destruct (followerReaches f tr).
    + destruct Hc as [_ [Hl Hc]]. simpl.
      destruct (lapRule true _ _ _) eqn:E; destruct Hc as [H1 H2].
      * split; [exact H1 |]. intros _. split; [exact H2 |].
        rewrite Hl. unfold lapRule in E. simpl in E.
        apply andb_prop in E. destruct E as [E _]. now apply Nat.eqb_eq in E.
      * split; [exact H1 | discriminate].
    + subst g. simpl. split; [reflexivity | discriminate].
Qed.

Lemma dist_same (a : Vector) : p5.dist a a = 0.
Proof.
  unfold p5.dist. rewrite (mag_of_x _ 0) by (simpl; ring). apply Rabs_R0.
Qed.

Lemma checkWaypoints_player80_lap :
  PlayerCar.checkWaypoints (player80 0 69 79) = Some (player80 1 0 0).
Proof.
  unfold PlayerCar.checkWaypoints.
  change (PlayerCar.track (player80 0 69 79)) with (Some track80). cbv iota beta.
  change (length (Track.waypoints track80)) with 80%nat.
  change (PlayerCar.lastCheckpoint (player80 0 69 79)) with 79%nat.
  change ((79 + 1) mod 80)%nat with 0%nat.
  change (nth_error (Track.waypoints track80) 0) with (Some (createVector 500 350)).
  unfold player80. records. rewrite dist_same. unfold PlayerCar.waypointReachDistance.
  rewrite Rltb_lt by lra. records.
  change (69 + 1)%nat with 70%nat. rewrite !INR_IZR_INZ. simpl Z.of_nat.
  rewrite (proj2 (Rgeb_true_iff _ _)) by lra. reflexivity.
Qed.

Lemma followPath_follower80_no_lap :
  FollowerCar.followPath (follower80 79 0 9 79)
  = Some (follower80 0 0 10 0,
          Vehicule.seek (FollowerCar.base (follower80 0 0 10 0)) (createVector 500 350)).
Proof.
  unfold FollowerCar.followPath.
  change (FollowerCar.track (follower80 79 0 9 79)) with (Some track80). cbv iota beta.
  change (length (Track.waypoints track80)) with 80%nat.
  change (FollowerCar.currentWaypointIndex (follower80 79 0 9 79)) with 79%nat.
  change (nth_error (Track.waypoints track80) 79) with (Some (createVector 500 350)).
  change ((79 + 1) mod 80)%nat with 0%nat.
  unfold follower80. records. rewrite dist_same.
  unfold FollowerCar.waypointReachDistance.
  rewrite Rltb_lt by lra. records.
  change (9 + 1)%nat with 10%nat. rewrite !INR_IZR_INZ. simpl Z.of_nat.
  rewrite (proj2 (Rgeb_false_iff _ _)) by lra. records.
  change (nth_error (let (_, waypoints, _, _) := track80 in waypoints) 0)
    with (Some (createVector 500 350)).
  reflexivity.
Qed.

Lemma C2_lap_rule_witness :
  PlayerCar.laps (player80 1 0 0) = 1%nat
  /\ PlayerCar.checkpointsReached (player80 1 0 0) = 0%nat
  /\ FollowerCar.laps (follower80 0 0 10 0) = 0%nat.
Proof.
  destruct (C2_lap_rule (player80 0 69 79) (player80 1 0 0)
              (follower80 79 0 9 79) (follower80 0 0 10 0)
              (Vehicule.seek (FollowerCar.base (follower80 0 0 10 0)) (createVector 500 350))
              track80) as [Hp [Hf _]].
  specialize (Hp eq_refl checkWaypoints_player80_lap).
  specialize (Hf eq_refl followPath_follower80_no_lap).
  simpl in Hp, Hf. tauto.
Defined.

(** ** What a step leaves alone *)

Lemma sameRace_refl (p : PlayerCar.t) : sameRace p p.
Proof. repeat split. Qed.

Lemma sameRace_trans (p q r : PlayerCar.t) : sameRace p q -> sameRace q r -> sameRace p r.
Proof. unfold sameRace. intuition congruence. Qed.

Lemma handleInput_race (p : PlayerCar.t) (k : Keys) : sameRace p (PlayerCar.handleInput p k).
Proof.
  unfold PlayerCar.handleInput. repeat break_if; repeat split.
Qed.

Lemma handleAutoPilot_race (p q : PlayerCar.t) :
  PlayerCar.handleAutoPilot p = Some q -> sameRace p q.
Proof.
  unfold PlayerCar.handleAutoPilot. intros H.
  destruct (PlayerCar.track p) as [tr |] eqn:Et.
  - destruct (length (Track.waypoints tr) =? 0)%nat.
    + inversion H; subst. apply sameRace_refl.
    + break_bind. break_bind.
      repeat break_if; inversion H; subst; repeat split.
  - inversion H; subst. apply sameRace_refl.
Qed.

Lemma updateNitro_race (p : PlayerCar.t) : sameRace p (PlayerCar.updateNitro p).
Proof. unfold PlayerCar.updateNitro. break_if; repeat split. Qed.

Lemma integrate_race (p q : PlayerCar.t) (k : Keys) :
  PlayerCar.integrate p k = Some q -> sameRace p q.
Proof.
  intros H. unfold PlayerCar.integrate in H. break_bind.
  assert (H1 : sameRace p t).
  { destruct (PlayerCar.autoMode p).
    - now apply handleAutoPilot_race.
    - inversion E; subst. apply handleInput_race. }
  pose proof (updateNitro_race t) as H2.
  inversion H; subst; clear H.
  eapply sameRace_trans; [exact H1 |]. eapply sameRace_trans; [exact H2 |].
  repeat split.
Qed.

Lemma handleBoundary_race (p q : PlayerCar.t) :
  PlayerCar.handleBoundary p = Some q ->
  sameRace p q /\ PlayerCar.nitroFuel q = PlayerCar.nitroFuel p.
Proof.
  unfold PlayerCar.handleBoundary. intros H.
  destruct (PlayerCar.track p); [| inversion H; subst; repeat split].
  break_bind. break_if; inversion H; subst; repeat split.
Qed.

Lemma handleObstacles_race (p : PlayerCar.t) : sameRace p (PlayerCar.handleObstacles p).
Proof.
  unfold PlayerCar.handleObstacles.
  destruct (PlayerCar.track p); [| repeat split].
  destruct (hit _);
    [destruct (c_type _) as [[| |] |]; [| destruct (c_obstacle _) | |] |];
    repeat break_if; repeat split.
Qed.

(** A frame of the player changes the race fields only through
    [checkWaypoints]. *)
Lemma update_race (p p' : PlayerCar.t) (k : Keys) :
  PlayerCar.finished p = false ->
  PlayerCar.update p k = Some p' ->
  exists q q', sameRace p q /\ PlayerCar.checkWaypoints q = Some q' /\ sameRace q' p'.
Proof.
  intros Hf H. unfold PlayerCar.update in H. rewrite Hf in H.
  break_bind. unfold PlayerCar.afterIntegration in H. break_bind. break_bind.
  inversion H; subst; clear H.
  exists (PlayerCar.handleObstacles t0), t1. split; [| split].
  - eapply sameRace_trans; [eapply integrate_race; eassumption |].
    eapply sameRace_trans; [eapply handleBoundary_race; eassumption |].
    apply handleObstacles_race.
  - assumption.
  - repeat split.
Qed.

(** ** Race progress *)

(** The lap rule at the end of the track: having gone round, the 80 per
    cent are there. *)
Lemma lapRule_full_lap (n : nat) : lapRule true 0 n n = true.
Proof.
  unfold lapRule. simpl. apply Rgeb_true_iff. pose proof (pos_INR n). lra.
Qed.

Lemma lapRule_not_zero (i c n : nat) : i <> 0%nat -> lapRule true i c n = false.
Proof.
  intros H. unfold lapRule. apply Nat.eqb_neq in H. now rewrite H.
Qed.

Lemma succ_mod_cases (i n : nat) :
  (i < n)%nat ->
  ((i + 1) mod n = i + 1 /\ i + 1 < n)%nat \/ ((i + 1) mod n = 0 /\ i + 1 = n)%nat.
Proof.
  intros H. destruct (Nat.eq_dec (i + 1) n) as [E | E].
  - right. split; [| exact E]. rewrite E. apply Nat.Div0.mod_same.
  - left. split; [apply Nat.mod_small |]; lia.
Qed.

Lemma checkWaypoints_progress (tr : Track.t) (p q : PlayerCar.t) :
  playerInv tr p -> PlayerCar.checkWaypoints p = Some q ->
  playerInv tr q
  /\ (playerProgress tr p <= playerProgress tr q)%nat
  /\ (PlayerCar.laps q = PlayerCar.laps p
      /\ (PlayerCar.lastCheckpoint q = PlayerCar.lastCheckpoint p
          \/ PlayerCar.lastCheckpoint q = PlayerCar.lastCheckpoint p + 1)
      \/ PlayerCar.laps q = PlayerCar.laps p + 1 /\ PlayerCar.lastCheckpoint q = 0)%nat.
Proof.
  intros [Ht [Hc Hl]] H.
  destruct (checkWaypoints_cases p q tr Ht H) as [Ht' [_ Hcases]].
  unfold playerInv, playerProgress.
  destruct (playerReaches p tr).
  - destruct Hcases as [Hlast Hlap]. unfold expectedNext in *.
    destruct (succ_mod_cases _ _ Hl) as [[Hm Hlt] | [Hm Hn]]; rewrite Hm in *.
    + rewrite lapRule_not_zero in Hlap by lia. destruct Hlap as [Hlaps Hcr].
      rewrite Hlaps, Hcr, Hlast, Hc. repeat split; try lia; try exact Ht'.
    + rewrite Hc, Hn, lapRule_full_lap in Hlap. destruct Hlap as [Hlaps Hcr].
      rewrite Hlaps, Hcr, Hlast. repeat split; try lia; try exact Ht'; nia.
  - subst q. repeat split; try assumption; lia.
Qed.

Lemma followPath_progress (tr : Track.t) (f g : FollowerCar.t) (F : Vector) :
  followerInv tr f -> FollowerCar.followPath f = Some (g, F) ->
  followerInv tr g
  /\ FollowerCar.base g = FollowerCar.base f
  /\ FollowerCar.finished g = FollowerCar.finished f
  /\ (aiProgress tr f <= aiProgress tr g)%nat
  /\ (FollowerCar.laps g = FollowerCar.laps f
      /\ (FollowerCar.lastCheckpoint g = FollowerCar.lastCheckpoint f
          \/ FollowerCar.lastCheckpoint g = FollowerCar.lastCheckpoint f + 1)
      \/ FollowerCar.laps g = FollowerCar.laps f + 1
         /\ FollowerCar.lastCheckpoint g = 0)%nat.
Proof.
  intros [Ht [Hc [Hlc Hl]]] H.
  destruct (followPath_cases f g F tr Ht H) as [Ht' [Hb [Hfin Hcases]]].
  unfold followerInv, aiProgress.
  destruct (followerReaches f tr).
  - destruct Hcases as [Hcur [Hlast Hlap]]. unfold nextIndex in *.
    destruct (succ_mod_cases _ _ Hl) as [[Hm Hlt] | [Hm Hn]]; rewrite Hm in *.
    + rewrite lapRule_not_zero in Hlap by lia. destruct Hlap as [Hlaps Hcr].
      rewrite Hlaps, Hcr, Hlast, Hcur, Hc, Hlc.
      repeat split; try lia; assumption.
    + rewrite Hc, Hlc, Hn, lapRule_full_lap in Hlap. destruct Hlap as [Hlaps Hcr].
      rewrite Hlaps, Hcr, Hlast, Hcur.
      repeat split; try lia; try assumption; nia.
  - subst g. repeat split; try assumption; lia.
Qed.

(** The rest of an opponent's frame does not touch its counters. *)
Lemma applyBehaviors_follows (f g : FollowerCar.t) (self : nat)
    (vehicles : list FollowerCar.t) (target : Vector) :
  FollowerCar.finished f = false ->
  FollowerCar.applyBehaviors f self vehicles target = Some g ->
  exists h F,
    FollowerCar.followPath f = Some (h, F)
    /\ FollowerCar.track g = FollowerCar.track h
    /\ FollowerCar.currentWaypointIndex g = FollowerCar.currentWaypointIndex h
    /\ FollowerCar.laps g = FollowerCar.laps h
    /\ FollowerCar.checkpointsReached g = FollowerCar.checkpointsReached h
    /\ FollowerCar.lastCheckpoint g = FollowerCar.lastCheckpoint h
    /\ FollowerCar.finished g = FollowerCar.finished h.
Proof.
  intros Hf H. unfold FollowerCar.applyBehaviors in H. rewrite Hf in H.
  break_bind. destruct p as [h F]. break_bind.
  inversion H; subst; clear H. exists h, F. repeat split.
Qed.

Lemma FollowerCar_update_counters (g : FollowerCar.t) :
  FollowerCar.track (FollowerCar.update g) = FollowerCar.track g
  /\ FollowerCar.currentWaypointIndex (FollowerCar.update g)
     = FollowerCar.currentWaypointIndex g
  /\ FollowerCar.laps (FollowerCar.update g) = FollowerCar.laps g
  /\ FollowerCar.checkpointsReached (FollowerCar.update g)
     = FollowerCar.checkpointsReached g
  /\ FollowerCar.lastCheckpoint (FollowerCar.update g) = FollowerCar.lastCheckpoint g
  /\ FollowerCar.finished (FollowerCar.update g) = FollowerCar.finished g.
Proof.
  unfold FollowerCar.update.
  destruct (FollowerCar.finished g) eqn:E; simpl; rewrite ?E; repeat split.
Qed.

(** C4: from the start of a race on, a frame never lowers the progress
    [laps * waypointCount + lastCheckpoint] of the player or of an
    opponent: within a lap the checkpoint index stays or goes up by one,
    and it goes back to 0 only together with a lap increment.  The counters
    as a race starts them satisfy the invariant and every frame keeps it. *)
Theorem C4_progress_monotone (tr : Track.t) (x y : R)
    (p p' : PlayerCar.t) (k : Keys)
    (f f' : FollowerCar.t) (self : nat) (vehicles : list FollowerCar.t)
    (target : Vector) :
  (Track.waypoints tr <> [] ->
     playerInv tr (PlayerCar.new x y (Some tr))
     /\ followerInv tr (FollowerCar.new x y (Some tr)))
  /\ (playerInv tr p -> PlayerCar.update p k = Some p' ->
        playerInv tr p'
        /\ (playerProgress tr p <= playerProgress tr p')%nat
        /\ (PlayerCar.laps p' = PlayerCar.laps p
            /\ (PlayerCar.lastCheckpoint p' = PlayerCar.lastCheckpoint p
                \/ PlayerCar.lastCheckpoint p' = PlayerCar.lastCheckpoint p + 1)
            \/ PlayerCar.laps p' = PlayerCar.laps p + 1
               /\ PlayerCar.lastCheckpoint p' = 0)%nat)
  /\ (followerInv tr f -> followerFrame f self vehicles target = Some f' ->
        followerInv tr f'
        /\ (aiProgress tr f <= aiProgress tr f')%nat
        /\ (FollowerCar.laps f' = FollowerCar.laps f
            /\ (FollowerCar.lastCheckpoint f' = FollowerCar.lastCheckpoint f
                \/ FollowerCar.lastCheckpoint f' = FollowerCar.lastCheckpoint f + 1)
            \/ FollowerCar.laps f' = FollowerCar.laps f + 1
               /\ FollowerCar.lastCheckpoint f' = 0)%nat).
Proof.
  split; [| split].
  - intros Hne.
    assert (0 < length (Track.waypoints tr))%nat
      by (destruct (Track.waypoints tr); [contradiction | simpl; lia]).
    split; repeat split; simpl; assumption.
  - intros Hinv H. destruct (PlayerCar.finished p) eqn:Hf.
    + unfold PlayerCar.update in H. rewrite Hf in H. inversion H; subst.
      split; [exact Hinv |]. split; [lia |]. left. split; [reflexivity | now left].
    + destruct (update_race p p' k Hf H) as [q [q' [Hpq [Hc Hq']]]].
      destruct Hpq as [A1 [A2 [A3 [A4 _]]]]. destruct Hq' as [B1 [B2 [B3 [B4 _]]]].
      assert (Hq : playerInv tr q).
      { destruct Hinv as [I1 [I2 I3]]. unfold playerInv. rewrite A1, A3, A4. tauto. }
      destruct (checkWaypoints_progress tr q q' Hq Hc) as [[J1 [J2 J3]] [Hp Hs]].
      unfold playerInv, playerProgress in *.
      rewrite B1, B2, B3, B4. rewrite <- A2, <- A4. tauto.
  - intros Hinv H. unfold followerFrame in H. break_bind.
    inversion H; subst; clear H.
    pose proof (FollowerCar_update_counters t) as [U1 [U2 [U3 [U4 [U5 _]]]]].
    destruct (FollowerCar.finished f) eqn:Hf.
    + unfold FollowerCar.applyBehaviors in E. rewrite Hf in E. inversion E; subst.
      unfold followerInv, aiProgress in *. rewrite U1, U2, U3, U4, U5.
      split; [exact Hinv |]. split; [lia |]. left. split; [reflexivity | now left].
    + destruct (applyBehaviors_follows f t self vehicles target Hf E)
        as [h [F [Hfp [G1 [G2 [G3 [G4 [G5 _]]]]]]]].
      destruct (followPath_progress tr f h F Hinv Hfp) as [[J1 [J2 [J3 J4]]] [_ [_ [Hp Hs]]]].
      unfold followerInv, aiProgress in *.
      rewrite U1, U2, U3, U4, U5, G1, G2, G3, G4, G5. tauto.
Qed.

Lemma seek_at_target (b : Vehicule.t) (target : Vector) :
  Vehicule.position b = target ->
  Vehicule.velocity b = createVector 0 0 -> 0 <= Vehicule.maxforce b ->
  Vehicule.seek b target = createVector 0 0.
Proof.
  intros Hp Hv Hf. subst target. unfold Vehicule.seek, p5.setMag. rewrite Hv.
  replace (p5.sub (Vehicule.position b) (Vehicule.position b)) with (createVector 0 0)
    by (apply Vector_eq; simpl; ring).
  rewrite normalize_zero.
  replace (p5.sub (p5.mult (createVector 0 0) (Vehicule.maxspeed b)) (createVector 0 0))
    with (createVector 0 0) by (apply Vector_eq; simpl; ring).
  apply limit_within. unfold p5.magSq; simpl. nra.
Qed.

Lemma separate_alone (f : FollowerCar.t) : FollowerCar.separate f 0 [f] = createVector 0 0.
Proof.
  unfold FollowerCar.separate. simpl FollowerCar.separate_loop. cbv iota beta.
  change (0 <? 0)%nat with false. cbv iota.
  rewrite mag_zero. unfold Rgtb. now rewrite Rltb_ge by lra.
Qed.

Lemma avoidCar_same (f : FollowerCar.t) :
  FollowerCar.avoidCar f (FollowerCar.position f) = createVector 0 0.
Proof.
  unfold FollowerCar.avoidCar. rewrite dist_same. unfold Rgtb.
  now rewrite (Rltb_ge 0 0) by lra.
Qed.

Lemma applyBehaviors_at_waypoint (l : nat) :
  FollowerCar.applyBehaviors (followerAt (createVector 500 350) (createVector 0 0) l) 0
    [followerAt (createVector 500 350) (createVector 0 0) l] (createVector 500 350)
  = Some (followerAt (createVector 500 350) (createVector 0 0) (l + 1)).
Proof.
  set (f := followerAt (createVector 500 350) (createVector 0 0) l).
  set (g := followerAt (createVector 500 350) (createVector 0 0) (l + 1)).
  assert (Hfp : FollowerCar.followPath f = Some (g, createVector 0 0)).
  { unfold FollowerCar.followPath, f, followerAt, centreTrack. records.
    rewrite dist_same. unfold FollowerCar.waypointReachDistance.
    rewrite Rltb_lt by lra. records.
    change ((0 + 1) mod 1)%nat with 0%nat. records.
    rewrite (proj2 (Rgeb_true_iff _ _))
      by (change (INR (0 + 1)) with 1; change (INR 1) with 1; lra).
    records.
    rewrite seek_at_target by (simpl; try reflexivity; lra).
    reflexivity. }
  unfold FollowerCar.applyBehaviors. change (FollowerCar.finished f) with false.
  cbv iota. rewrite Hfp. unfold bind at 1. cbv iota beta.
  unfold FollowerCar.separate.
  change (FollowerCar.separate_loop g 0 [f] 0 (createVector 0 0) 0)
    with (createVector 0 0, 0%nat).
  cbv iota beta. change (0 <? 0)%nat with false. cbv iota.
  rewrite mag_zero. unfold Rgtb at 1. rewrite (Rltb_ge 0 0) by lra.
  change (createVector 500 350) with (FollowerCar.position g) at 1.
  rewrite avoidCar_same.
  unfold FollowerCar.avoidBoundary. change (FollowerCar.track g) with (Some centreTrack).
  cbv iota beta. change (FollowerCar.position g) with (createVector 500 350).
  rewrite centreTrack_boundary_inside by lra. unfold bind.
  unfold FollowerCar.applyForce, Vehicule.applyForce, g, followerAt. records.
  do 3 f_equal. unfold FollowerCar.pathWeight, FollowerCar.separationWeight,
    FollowerCar.boundaryWeight. f_equal; lra.
Qed.

Lemma FollowerCar_update_at_rest (x y : R) (l : nat) :
  10 <= x <= 990 -> 10 <= y <= 690 ->
  FollowerCar.update (followerAt (createVector x y) (createVector 0 0) l)
  = followerAt (createVector x y) (createVector 0 0) l.
Proof.
  intros Hx Hy. unfold FollowerCar.update, followerAt. records.
  unfold Vehicule.update. records.
  rewrite limit_within by (unfold p5.magSq; records; nra). records.
  unfold Vehicule.edges, width, height, Rgtb. records. cmp. records. cmp. records.
  do 2 f_equal; f_equal; lra.
Qed.

Lemma update_at_waypoint (l : nat) :
  PlayerCar.update (playerAt (createVector 500 350) (createVector 0 0) l 100) noKeys
  = Some (playerAt (createVector 500 350) (createVector 0 0) (l + 1) 100).
Proof.
  unfold PlayerCar.update. change (PlayerCar.finished (playerAt _ _ l 100)) with false.
  cbv iota. rewrite integrate_at_waypoint. unfold bind.
  apply afterIntegration_at_waypoint.
Qed.

Lemma followerFrame_at_waypoint (l : nat) :
  followerFrame (followerAt (createVector 500 350) (createVector 0 0) l) 0
    [followerAt (createVector 500 350) (createVector 0 0) l] (createVector 500 350)
  = Some (followerAt (createVector 500 350) (createVector 0 0) (l + 1)).
Proof.
  unfold followerFrame. rewrite applyBehaviors_at_waypoint. unfold bind.
  rewrite FollowerCar_update_at_rest by lra. reflexivity.
Qed.

Lemma playerAt_inv (pos vel : Vector) (l : nat) : playerInv centreTrack (playerAt pos vel l 100).
Proof. unfold playerInv, playerAt. simpl. repeat split; lia. Qed.

Lemma followerAt_inv (pos vel : Vector) (l : nat) :
  followerInv centreTrack (followerAt pos vel l).
Proof. unfold followerInv, followerAt. simpl. repeat split; lia. Qed.

Lemma C4_progress_monotone_witness :
  (playerProgress centreTrack (playerAt (createVector 500 350) (createVector 0 0) 0 100)
   <= playerProgress centreTrack (playerAt (createVector 500 350) (createVector 0 0) (0 + 1) 100))%nat
  /\ (aiProgress centreTrack (followerAt (createVector 500 350) (createVector 0 0) 0)
      <= aiProgress centreTrack
           (followerAt (createVector 500 350) (createVector 0 0) (0 + 1)))%nat
  /\ playerInv centreTrack (PlayerCar.new 500 350 (Some centreTrack))
  /\ followerInv centreTrack (FollowerCar.new 500 350 (Some centreTrack)).
Proof.
  destruct (C4_progress_monotone centreTrack 500 350
              (playerAt (createVector 500 350) (createVector 0 0) 0 100)
              (playerAt (createVector 500 350) (createVector 0 0) (0 + 1) 100) noKeys
              (followerAt (createVector 500 350) (createVector 0 0) 0)
              (followerAt (createVector 500 350) (createVector 0 0) (0 + 1)) 0
              [followerAt (createVector 500 350) (createVector 0 0) 0]
              (createVector 500 350)) as [H0 [Hp Hf]].
  specialize (Hp (playerAt_inv _ _ _) (update_at_waypoint 0)).
  specialize (Hf (followerAt_inv _ _ _) (followerFrame_at_waypoint 0)).
  assert (Hne : Track.waypoints centreTrack <> []) by (simpl; discriminate).
  specialize (H0 Hne). tauto.
Defined.

(** ** What [lastCheckpoint] counts *)

(** The force that [followPath] returns steers to the waypoint at the
    index the car ends up with. *)
Lemma followPath_heading (f g : FollowerCar.t) (F : Vector) (tr : Track.t) :
  FollowerCar.track f = Some tr ->
  FollowerCar.followPath f = Some (g, F) ->
  exists w, nth_error (Track.waypoints tr) (FollowerCar.currentWaypointIndex g) = Some w
            /\ F = Vehicule.seek (FollowerCar.base g) w.
Proof.
  intros Ht H. unfold FollowerCar.followPath in H. rewrite Ht in H.
  break_bind. break_bind. inversion H; subst; clear H.
  exists v0. split; [exact E0 | reflexivity].
Qed.

(** C10: an opponent's [lastCheckpoint] is the index of the waypoint it
    is heading for: it equals [currentWaypointIndex] from the constructor
    on and after every [followPath], and when [followPath] finds the
    waypoint at index [i] within reach it becomes [(i + 1) mod n], one
    past the waypoint reached.  The player's [lastCheckpoint] becomes the
    index of the very waypoint that was found within reach.  So the
    progress of an opponent is [laps * n] plus the index of its upcoming
    waypoint. *)
Theorem C10_checkpoint_meaning (tr : Track.t) (x y : R) (trk : option Track.t)
    (f g : FollowerCar.t) (F : Vector) (p q : PlayerCar.t) :
  FollowerCar.lastCheckpoint (FollowerCar.new x y trk)
    = FollowerCar.currentWaypointIndex (FollowerCar.new x y trk)
  /\ (FollowerCar.track f = Some tr ->
      FollowerCar.lastCheckpoint f = FollowerCar.currentWaypointIndex f ->
      FollowerCar.followPath f = Some (g, F) ->
      FollowerCar.lastCheckpoint g = FollowerCar.currentWaypointIndex g
      /\ (exists w, nth_error (Track.waypoints tr) (FollowerCar.lastCheckpoint g) = Some w
                    /\ F = Vehicule.seek (FollowerCar.base g) w)
      /\ aiProgress tr g
         = (FollowerCar.laps g * length (Track.waypoints tr)
            + FollowerCar.currentWaypointIndex g)%nat
      /\ (followerReaches f tr = true ->
          (exists w, nth_error (Track.waypoints tr) (FollowerCar.currentWaypointIndex f)
                     = Some w
                     /\ p5.dist (FollowerCar.position f) w
                        < FollowerCar.waypointReachDistance)
          /\ FollowerCar.lastCheckpoint g
             = ((FollowerCar.currentWaypointIndex f + 1)
                mod length (Track.waypoints tr))%nat))
  /\ (PlayerCar.track p = Some tr ->
      PlayerCar.checkWaypoints p = Some q ->
      playerReaches p tr = true ->
      exists w, nth_error (Track.waypoints tr) (PlayerCar.lastCheckpoint q) = Some w
                /\ p5.dist (PlayerCar.position p) w < PlayerCar.waypointReachDistance).
Proof.
  split; [reflexivity | split].
  - intros Ht Heq H.
    destruct (followPath_cases f g F tr Ht H) as [_ [_ [_ Hc]]].
    destruct (followPath_heading f g F tr Ht H) as [w [Hw HF]].
    assert (Hlc : FollowerCar.lastCheckpoint g = FollowerCar.currentWaypointIndex g).
    { destruct (followerReaches f tr).
      - destruct Hc as [H1 [H2 _]]. congruence.
      - subst g. exact Heq. }
    split; [exact Hlc |]. split; [| split].
    + exists w. rewrite Hlc. split; assumption.
    + unfold aiProgress. now rewrite Hlc.
    + intros Hr. rewrite Hr in Hc. destruct Hc as [_ [H2 _]]. split; [| exact H2].
      unfold followerReaches in Hr.
      destruct (nth_error (Track.waypoints tr) (FollowerCar.currentWaypointIndex f))
        as [w0 |]; [| discriminate].
      exists w0. split; [reflexivity |]. now apply Rltb_true_iff.
  - intros Ht H Hr.
    destruct (checkWaypoints_cases p q tr Ht H) as [_ [_ Hc]].
    rewrite Hr in Hc. destruct Hc as [Hl _]. rewrite Hl.
    unfold playerReaches in Hr.
    destruct (nth_error (Track.waypoints tr) (expectedNext p tr)) as [w0 |];
      [| discriminate].
    exists w0. split; [reflexivity |]. now apply Rltb_true_iff.
Qed.

Lemma player80_reaches : playerReaches (player80 0 69 79) track80 = true.
Proof.
  unfold playerReaches, expectedNext.
  change (PlayerCar.lastCheckpoint (player80 0 69 79)) with 79%nat.
  change (length (Track.waypoints track80)) with 80%nat.
  change ((79 + 1) mod 80)%nat with 0%nat.
  change (nth_error (Track.waypoints track80) 0) with (Some (createVector 500 350)).
  cbv iota beta. change (PlayerCar.position (player80 0 69 79)) with (createVector 500 350).
  rewrite dist_same. unfold PlayerCar.waypointReachDistance. apply Rltb_lt. lra.
Qed.

Lemma follower80_reaches : followerReaches (follower80 79 0 9 79) track80 = true.
Proof.
  unfold followerReaches.
  change (FollowerCar.currentWaypointIndex (follower80 79 0 9 79)) with 79%nat.
  change (nth_error (Track.waypoints track80) 79) with (Some (createVector 500 350)).
  cbv iota beta.
  change (FollowerCar.position (follower80 79 0 9 79)) with (createVector 500 350).
  rewrite dist_same. unfold FollowerCar.waypointReachDistance. apply Rltb_lt. lra.
Qed.

Lemma C10_checkpoint_meaning_witness :
  FollowerCar.lastCheckpoint (follower80 0 0 10 0)
    = FollowerCar.currentWaypointIndex (follower80 0 0 10 0)
  /\ FollowerCar.lastCheckpoint (follower80 0 0 10 0)
     = ((FollowerCar.currentWaypointIndex (follower80 79 0 9 79) + 1)
        mod length (Track.waypoints track80))%nat
  /\ exists w, nth_error (Track.waypoints track80)
                 (PlayerCar.lastCheckpoint (player80 1 0 0)) = Some w
               /\ p5.dist (PlayerCar.position (player80 0 69 79)) w
                  < PlayerCar.waypointReachDistance.
Proof.
  destruct (C10_checkpoint_meaning track80 0 0 None
              (follower80 79 0 9 79) (follower80 0 0 10 0)
              (Vehicule.seek (FollowerCar.base (follower80 0 0 10 0)) (createVector 500 350))
              (player80 0 69 79) (player80 1 0 0)) as [_ [Hf Hp]].
  specialize (Hf eq_refl eq_refl followPath_follower80_no_lap).
  specialize (Hp eq_refl checkWaypoints_player80_lap player80_reaches).
  destruct Hf as [H1 [_ [_ H4]]]. specialize (H4 follower80_reaches).
  destruct H4 as [_ H4]. split; [exact H1 | split; [exact H4 | exact Hp]].
Defined.

(** ** The nitro *)












(** ** The end of the race *)

Lemma checkRaceFinished_ai_cons (g : Game) (ai : FollowerCar.t)
    (rest : list FollowerCar.t) :
  checkRaceFinished_ai g (ai :: rest)
  = if (LAPS_TO_WIN <=? FollowerCar.laps ai)%nat && negb (raceFinished g)
    then mkGame raceLost (currentLevel g) (track g) (playerCar g) (aiCars g)
                true (Some winner_ai) (unlockedLevel g)
    else checkRaceFinished_ai g rest.
Proof. reflexivity. Qed.

Lemma checkRaceFinished_ai_spec (g : Game) (cars : list FollowerCar.t) :
  raceFinished g = false ->
  (exists ai, In ai cars /\ (LAPS_TO_WIN <= FollowerCar.laps ai)%nat) ->
  gameState (checkRaceFinished_ai g cars) = raceLost
  /\ raceFinished (checkRaceFinished_ai g cars) = true.
Proof.
  intros Hr. induction cars as [| ai rest IH]; intros [a [Hin Hl]].
  - destruct Hin.
  - rewrite checkRaceFinished_ai_cons, Hr. cbv [negb]. rewrite andb_true_r.
    destruct (LAPS_TO_WIN <=? FollowerCar.laps ai)%nat eqn:E.
    + split; reflexivity.
    + apply IH. destruct Hin as [-> | Hin].
      * apply Nat.leb_gt in E. lia.
      * exists a. split; assumption.
Qed.

Lemma checkRaceFinished_ai_cars (g : Game) (cars : list FollowerCar.t) :
  aiCars (checkRaceFinished_ai g cars) = aiCars g
  /\ playerCar (checkRaceFinished_ai g cars) = playerCar g.
Proof.
  induction cars as [| ai rest IH]; [split; reflexivity |].
  rewrite checkRaceFinished_ai_cons. break_if; [split; reflexivity | exact IH].
Qed.

(** [checkRaceFinished] keeps every lap count, and once a competitor has
    the laps to win it leaves the state [playing]. *)
Lemma checkRaceFinished_spec (g : Game) :
  raceFinished g = false ->
  PlayerCar.laps (playerCar (checkRaceFinished g)) = PlayerCar.laps (playerCar g)
  /\ aiCars (checkRaceFinished g) = aiCars g
  /\ (someoneFinished g ->
      gameState (checkRaceFinished g) <> playing
      /\ raceFinished (checkRaceFinished g) = true).
Proof.
  intros Hr. unfold checkRaceFinished. rewrite Hr. cbv [negb]. rewrite andb_true_r.
  destruct (LAPS_TO_WIN <=? PlayerCar.laps (playerCar g))%nat eqn:E.
  - cbv [playerCar aiCars gameState raceFinished]. repeat split.
    break_if; discriminate.
  - destruct (checkRaceFinished_ai_cars g (aiCars g)) as [Hc Hp].
    rewrite Hc, Hp. repeat split.
    + destruct H as [Hpl | Hai].
      * apply Nat.leb_gt in E. lia.
      * destruct (checkRaceFinished_ai_spec g (aiCars g) Hr Hai) as [Hs _].
        rewrite Hs. discriminate.
    + destruct H as [Hpl | Hai].
      * apply Nat.leb_gt in E. lia.
      * now destruct (checkRaceFinished_ai_spec g (aiCars g) Hr Hai).
Qed.

(** Outside of the state [playing] a frame changes nothing. *)
Lemma frames_not_playing (ks : list Keys) (g : Game) :
  gameState g <> playing -> frames g ks = Some g.
Proof.
  intros H. induction ks as [| k rest IH]; simpl; [reflexivity |].
  unfold draw. destruct (gameState g); try exact IH. contradiction.
Qed.

(** C6: once a frame of the race ends with a competitor, the player or an
    opponent, at the laps to win, the game has left the state [playing]
    and no later frame updates any vehicle: after any number of frames
    the whole game state, with the position and the velocity of every
    car, is what it was at the end of that frame. *)
Theorem C6_finish_freezes (g g1 : Game) (k : Keys) (ks : list Keys) :
  gameState g = playing -> raceFinished g = false ->
  draw g k = Some g1 -> someoneFinished g1 ->
  gameState g1 <> playing
  /\ frames g1 ks = Some g1
  /\ (forall g2, frames g1 ks = Some g2 ->
        PlayerCar.position (playerCar g2) = PlayerCar.position (playerCar g1)
        /\ PlayerCar.velocity (playerCar g2) = PlayerCar.velocity (playerCar g1)
        /\ List.map FollowerCar.position (aiCars g2)
           = List.map FollowerCar.position (aiCars g1)
        /\ List.map FollowerCar.velocity (aiCars g2)
           = List.map FollowerCar.velocity (aiCars g1)).
Proof.
  intros Hs Hr Hd Hfin. unfold draw in Hd. rewrite Hs in Hd.
  unfold updateGame in Hd. break_bind. break_bind.
  inversion Hd; subst g1; clear Hd.
  set (g0 := mkGame (gameState g) (currentLevel g) (track g) t l
               (raceFinished g) (winner g) (unlockedLevel g)) in *.
  assert (Hr0 : raceFinished g0 = false) by exact Hr.
  destruct (checkRaceFinished_spec g0 Hr0) as [Hl [Hc Hstop]].
  assert (Hfin0 : someoneFinished g0).
  { destruct Hfin as [Hp | [ai [Hin Hai]]].
    - left. rewrite <- Hl. exact Hp.
    - right. exists ai. rewrite <- Hc. split; assumption. }
  destruct (Hstop Hfin0) as [Hnp _].
  pose proof (frames_not_playing ks _ Hnp) as Hfr.
  split; [exact Hnp |]. split; [exact Hfr |].
  intros g2 H2. rewrite Hfr in H2. inversion H2; subst g2. repeat split.
Qed.

Lemma draw_lastFrame : draw lastFrame noKeys = Some afterLastFrame.
Proof.
  unfold draw, lastFrame. cbv [gameState]. unfold updateGame.
  cbv [playerCar aiCars gameState currentLevel track raceFinished winner unlockedLevel].
  rewrite update_at_waypoint. cbv [bind]. cbv iota beta.
  unfold updateAI, length, nth_error. cbv [bind]. cbv iota beta.
  change (PlayerCar.position (playerAt (createVector 500 350) (createVector 0 0) (1 + 1) 100))
    with (createVector 500 350).
  rewrite applyBehaviors_at_waypoint.
  rewrite FollowerCar_update_at_rest by lra.
  reflexivity.
Qed.

Lemma C6_finish_freezes_witness :
  gameState afterLastFrame <> playing
  /\ frames afterLastFrame [noKeys; noKeys; noKeys] = Some afterLastFrame.
Proof.
  destruct (C6_finish_freezes lastFrame afterLastFrame noKeys [noKeys; noKeys; noKeys])
    as [H1 [H2 _]].
  - reflexivity.
  - reflexivity.
  - apply draw_lastFrame.
  - left. unfold LAPS_TO_WIN. simpl. lia.
  - split; assumption.
Defined.

(** * Further properties *)

(** ** Steering *)

Lemma limit_zero_vector (c : R) : p5.limit (createVector 0 0) c = createVector 0 0.
Proof. apply limit_within. unfold p5.magSq; simpl. nra. Qed.

Lemma sub_self (a : Vector) : p5.sub a a = createVector 0 0.
Proof. apply Vector_eq; simpl; ring. Qed.

(** X1: the force of [seek] is never longer than [maxforce], and it is
    the zero force when the car already moves towards the target at its
    top speed. *)
Theorem X1_seek_bounded (v : Vehicule.t) (target : Vector) :
  0 <= Vehicule.maxforce v ->
  p5.mag (Vehicule.seek v target) <= Vehicule.maxforce v
  /\ (Vehicule.velocity v
      = p5.setMag (p5.sub target (Vehicule.position v)) (Vehicule.maxspeed v) ->
      Vehicule.seek v target = createVector 0 0).
Proof.
  intros Hf. split.
  - unfold Vehicule.seek. now apply mag_limit.
  - intros Hv. unfold Vehicule.seek. rewrite <- Hv, sub_self. apply limit_zero_vector.
Qed.

Lemma X1_seek_bounded_witness :
  p5.mag (Vehicule.seek (Vehicule.new 0 0) (createVector 3 4))
  <= Vehicule.maxforce (Vehicule.new 0 0).
Proof.
  apply (X1_seek_bounded (Vehicule.new 0 0) (createVector 3 4)).
  unfold Vehicule.new. records. lra.
Defined.

(** X2: the force of [arrive] is never longer than [maxforce]; at the
    slow radius and beyond it is the force of [seek], and at the target
    itself it is the velocity reversed, cut to [maxforce]. *)
Theorem X2_arrive (v : Vehicule.t) (target : Vector) (slowRadius : R) :
  0 <= Vehicule.maxforce v ->
  p5.mag (Vehicule.arrive v target slowRadius) <= Vehicule.maxforce v
  /\ (slowRadius <= p5.dist (Vehicule.position v) target ->
      Vehicule.arrive v target slowRadius = Vehicule.seek v target)
  /\ (Vehicule.position v = target ->
      Vehicule.arrive v target slowRadius
      = p5.limit (p5.mult (Vehicule.velocity v) (-1)) (Vehicule.maxforce v)).
Proof.
  intros Hf. split; [| split].
  - unfold Vehicule.arrive. now apply mag_limit.
  - intros Hd. unfold Vehicule.arrive, Vehicule.seek.
    fold (p5.dist (Vehicule.position v) target). now rewrite Rltb_ge.
  - intros Hp. unfold Vehicule.arrive. rewrite Hp, sub_self.
    unfold p5.setMag. rewrite normalize_zero. f_equal.
    apply Vector_eq; simpl; ring.
Qed.

Lemma X2_arrive_witness :
  p5.mag (Vehicule.arrive (Vehicule.new 0 0) (createVector 3 4) 100)
  <= Vehicule.maxforce (Vehicule.new 0 0).
Proof.
  apply (X2_arrive (Vehicule.new 0 0) (createVector 3 4) 100).
  unfold Vehicule.new. records. lra.
Defined.

(** ** The borders of the canvas *)

(** X3: after [edges] a car of radius at most 350 is on the canvas, at
    least its radius away from every border, and a car that already was
    is left as it is. *)
Theorem X3_edges_on_canvas (v : Vehicule.t) :
  Vehicule.r v <= 350 ->
  (Vehicule.r v <= vx (Vehicule.position (Vehicule.edges v)) <= width - Vehicule.r v)
  /\ (Vehicule.r v <= vy (Vehicule.position (Vehicule.edges v)) <= height - Vehicule.r v)
  /\ (Vehicule.r v <= vx (Vehicule.position v) <= width - Vehicule.r v ->
      Vehicule.r v <= vy (Vehicule.position v) <= height - Vehicule.r v ->
      Vehicule.edges v = v).
Proof.
  intros Hr. unfold Vehicule.edges, width, height, Rgtb.
  repeat split;
    repeat match goal with
    | |- context [Rltb ?a ?b] =>
        let E := fresh "E" in
        destruct (Rltb a b) eqn:E;
        [apply Rltb_true_iff in E | apply Rltb_false_iff in E]; simpl in *
    end; try lra.
  all: intros; try lra; destruct v; reflexivity.
Qed.

Lemma X3_edges_on_canvas_witness :
  (10 <= vx (Vehicule.position (Vehicule.edges (Vehicule.new 500 350))) <= width - 10)
  /\ Vehicule.edges (Vehicule.new 500 350) = Vehicule.new 500 350.
Proof.
  destruct (X3_edges_on_canvas (Vehicule.new 500 350)) as [H1 [_ H3]].
  - unfold Vehicule.new. records. lra.
  - split; [exact H1 |].
    apply H3; unfold Vehicule.new, width, height; records; lra.
Defined.

(** ** Forces *)

(** X4: the forces applied between two updates add up, in whatever order
    they are applied, and the update that integrates them clears them:
    the next update sees none of them. *)
Theorem X4_forces_accumulate (v : Vehicule.t) (a b : Vector) :
  Vehicule.update (Vehicule.applyForce (Vehicule.applyForce v a) b)
    = Vehicule.update (Vehicule.applyForce (Vehicule.applyForce v b) a)
  /\ Vehicule.velocity (Vehicule.update (Vehicule.applyForce (Vehicule.applyForce v a) b))
     = p5.limit (p5.add (Vehicule.velocity v)
                   (p5.add (Vehicule.acceleration v) (p5.add a b)))
         (Vehicule.maxspeed v)
  /\ Vehicule.acceleration
       (Vehicule.update (Vehicule.applyForce (Vehicule.applyForce v a) b))
     = createVector 0 0
  /\ Vehicule.velocity
       (Vehicule.update
          (Vehicule.update (Vehicule.applyForce (Vehicule.applyForce v a) b)))
     = p5.limit
         (Vehicule.velocity
            (Vehicule.update (Vehicule.applyForce (Vehicule.applyForce v a) b)))
         (Vehicule.maxspeed v).
Proof.
  assert (Hc : p5.add (p5.add (Vehicule.acceleration v) a) b
               = p5.add (p5.add (Vehicule.acceleration v) b) a)
    by (apply Vector_eq; simpl; ring).
  assert (Hz : forall x, p5.mult x 0 = createVector 0 0)
    by (intros x; apply Vector_eq; simpl; ring).
  split; [| split; [| split]].
  - unfold Vehicule.update, Vehicule.applyForce. simpl. now rewrite Hc.
  - unfold Vehicule.update, Vehicule.applyForce. simpl. f_equal.
    apply Vector_eq; simpl; ring.
  - unfold Vehicule.update, Vehicule.applyForce. simpl. apply Hz.
  - unfold Vehicule.update, Vehicule.applyForce. simpl. rewrite Hz. f_equal.
    apply Vector_eq; simpl; ring.
Qed.

(** ** Collisions *)

(** X5: [checkObstacleCollision] reports no hit exactly when the position
    is inside no obstacle; a hit names an obstacle of the track that the
    position is inside of, with its type, and it is the first such
    obstacle of the array: the position is inside none of those before. *)
Theorem X5_collision_first_match (tr : Track.t) (position : Vector) :
  (hit (Track.checkObstacleCollision tr position) = false
   <-> forall o, In o (Track.obstacles tr) -> ~ inside position o)
  /\ (hit (Track.checkObstacleCollision tr position) = false ->
      Track.checkObstacleCollision tr position = mkCollision false None None)
  /\ (hit (Track.checkObstacleCollision tr position) = true ->
      exists before o after,
        Track.obstacles tr = before ++ o :: after
        /\ Track.checkObstacleCollision tr position
           = mkCollision true (Some (o_type o)) (Some o)
        /\ inside position o
        /\ forall o', In o' before -> ~ inside position o').
Proof.
  unfold Track.checkObstacleCollision, inside.
  induction (Track.obstacles tr) as [| o rest IH]; simpl.
  - split; [| split].
    + split; [intros _ o [] | reflexivity].
    + reflexivity.
    + discriminate.
  - destruct (Rltb _ _) eqn:E; simpl.
    + apply Rltb_true_iff in E. split; [| split].
      * split; [discriminate |]. intros H. exfalso. apply (H o); [now left | exact E].
      * discriminate.
      * intros _. exists [], o, rest.
        split; [reflexivity |]. split; [reflexivity |]. split; [exact E |].
        intros o' [].
    + apply Rltb_false_iff in E. destruct IH as [IH1 [IH2 IH3]]. split; [| split].
      * rewrite IH1. split.
        -- intros H o' [<- | Hin]; [lra | now apply H].
        -- intros H o' Hin. apply H. now right.
      * exact IH2.
      * intros Hh. destruct (IH3 Hh) as [before [o' [after [Hl [Hc [Hi Hb]]]]]].
        exists (o :: before), o', after.
        split; [now rewrite Hl |]. split; [exact Hc |]. split; [exact Hi |].
        intros o'' [<- | Hin]; [lra | now apply Hb].
Qed.

Lemma X5_collision_first_match_witness :
  exists before o after,
    Track.obstacles coneTrack = before ++ o :: after
    /\ Track.checkObstacleCollision coneTrack (createVector 15 0)
       = mkCollision true (Some (o_type o)) (Some o)
    /\ inside (createVector 15 0) o
    /\ forall o', In o' before -> ~ inside (createVector 15 0) o'.
Proof.
  destruct (X5_collision_first_match coneTrack (createVector 15 0)) as [_ [_ H]].
  apply H. unfold Track.checkObstacleCollision, coneTrack, coneAhead. simpl.
  rewrite dist_same. now rewrite Rltb_lt by lra.
Defined.

(** ** The nearest waypoint *)

Lemma closest_loop_first (pos : Vector) (wps pre : list Vector)
    (cd : option R) (ci : nat) :
  pre ++ wps <> [] ->
  (cd = None /\ pre = []) \/
  (exists w, cd = Some (p5.dist pos w) /\ nth_error pre ci = Some w
             /\ forall j w', nth_error pre j = Some w' ->
                  p5.dist pos w <= p5.dist pos w'
                  /\ ((j < ci)%nat -> p5.dist pos w < p5.dist pos w')) ->
  exists w,
    nth_error (pre ++ wps) (Track.closest_loop pos wps (length pre) cd ci) = Some w
    /\ forall j w', nth_error (pre ++ wps) j = Some w' ->
         p5.dist pos w <= p5.dist pos w'
         /\ ((j < Track.closest_loop pos wps (length pre) cd ci)%nat ->
             p5.dist pos w < p5.dist pos w').
Proof.
  revert pre cd ci. induction wps as [| w rest IH]; intros pre cd ci Hne Hinv.
  - simpl. rewrite app_nil_r in *. destruct Hinv as [[_ E] | [w [_ [Hn Hmin]]]].
    + contradiction.
    + exists w. split; assumption.
  - simpl.
    assert (Hidx : nth_error (pre ++ [w]) (length pre) = Some w).
    { rewrite nth_error_app2 by lia. now rewrite Nat.sub_diag. }
    assert (Hlen : S (length pre) = length (pre ++ [w])).
    { rewrite length_app. simpl. lia. }
    assert (Happ : pre ++ w :: rest = (pre ++ [w]) ++ rest).
    { now rewrite <- app_assoc. }
    assert (Hne' : (pre ++ [w]) ++ rest <> []) by (destruct pre; discriminate).
    assert (Hsplit : forall j w', nth_error (pre ++ [w]) j = Some w' ->
              nth_error pre j = Some w' \/ (j = length pre /\ w' = w)).
    { intros j w' Hj. destruct (Nat.lt_ge_cases j (length pre)) as [L | L].
      - left. now rewrite nth_error_app1 in Hj.
      - right. rewrite nth_error_app2 in Hj by exact L.
        destruct (j - length pre)%nat as [| k] eqn:Ek; simpl in Hj.
        + inversion Hj. split; [lia | reflexivity].
        + destruct k; discriminate. }
    destruct Hinv as [[-> ->] | [w0 [-> [Hn Hmin]]]].
    + rewrite Happ, Hlen. apply IH; [exact Hne' |].
      right. exists w. split; [reflexivity | split; [exact Hidx |]].
      intros j w' Hj. destruct (Hsplit j w' Hj) as [Hp | [-> ->]].
      * destruct j; discriminate.
      * simpl. split; [lra | lia].
    + assert (Hci : (ci < length pre)%nat)
        by (apply nth_error_Some; rewrite Hn; discriminate).
      destruct (Rltb (p5.dist pos w) (p5.dist pos w0)) eqn:E.
      * apply Rltb_true_iff in E. rewrite Happ, Hlen. apply IH; [exact Hne' |].
        right. exists w. split; [reflexivity | split; [exact Hidx |]].
        intros j w' Hj. destruct (Hsplit j w' Hj) as [Hp | [-> ->]].
        -- destruct (Hmin j w' Hp) as [Hle _]. split; intros; lra.
        -- split; [lra | lia].
      * apply Rltb_false_iff in E. rewrite Happ, Hlen. apply IH; [exact Hne' |].
        right. exists w0. split; [reflexivity | split].
        -- now rewrite nth_error_app1.
        -- intros j w' Hj. destruct (Hsplit j w' Hj) as [Hp | [-> ->]].
           ++ now apply Hmin.
           ++ split; [exact E | lia].
Qed.

(** X6: on a track with waypoints, [getClosestWaypointIndex] is a valid
    index; no waypoint is nearer to the position than the one at that
    index, and every waypoint before it is strictly farther: among
    equally near waypoints the first wins. *)
Theorem X6_closest_is_first_nearest (tr : Track.t) (pos : Vector) :
  Track.waypoints tr <> [] ->
  (Track.getClosestWaypointIndex tr pos < length (Track.waypoints tr))%nat
  /\ exists w,
       nth_error (Track.waypoints tr) (Track.getClosestWaypointIndex tr pos) = Some w
       /\ forall j w', nth_error (Track.waypoints tr) j = Some w' ->
            p5.dist pos w <= p5.dist pos w'
            /\ ((j < Track.getClosestWaypointIndex tr pos)%nat ->
                p5.dist pos w < p5.dist pos w').
Proof.
  intros Hne. unfold Track.getClosestWaypointIndex.
  destruct (closest_loop_first pos (Track.waypoints tr) [] None 0 Hne) as [w [Hn Hmin]].
  { left. split; reflexivity. }
  simpl in *. split.
  - apply nth_error_Some. rewrite Hn. discriminate.
  - exists w. split; assumption.
Qed.

Lemma X6_closest_is_first_nearest_witness :
  (Track.getClosestWaypointIndex twinTrack (createVector 0 0)
   < length (Track.waypoints twinTrack))%nat.
Proof.
  apply (X6_closest_is_first_nearest twinTrack (createVector 0 0)).
  simpl. discriminate.
Defined.

Lemma twinTrack_first : Track.getClosestWaypointIndex twinTrack (createVector 0 0) = 0%nat.
Proof.
  unfold Track.getClosestWaypointIndex, twinTrack. simpl.
  unfold p5.dist. rewrite (mag_of_x _ (-3)), (mag_of_x _ 3) by (records; lra).
  rewrite (Rabs_of_neg (-3)), (Rabs_of_pos 3) by lra. now rewrite Rltb_ge by lra.
Qed.

(** ** The shape of the circuit *)

Lemma PI_gt_3 : 3 < PI.
Proof. pose proof PI2_3_2. lra. Qed.

(** X7: for a positive spread and two angles at most a full turn apart,
    [smoothInfluence] lies between 0 and 1; it is 1 at the target angle
    and 0 where the angles are farther apart than [spread * PI] (and at
    most half a turn). *)
Theorem X7_smoothInfluence_range (angle targetAngle spread : R) :
  0 < spread -> Rabs (angle - targetAngle) <= 2 * PI ->
  0 <= Circuit.smoothInfluence angle targetAngle spread <= 1
  /\ Circuit.smoothInfluence targetAngle targetAngle spread = 1
  /\ (spread * PI < Rabs (angle - targetAngle) <= PI ->
      Circuit.smoothInfluence angle targetAngle spread = 0).
Proof.
  intros Hs Hd. pose proof PI_gt_3 as Hpi.
  pose proof (Rabs_pos (angle - targetAngle)) as Habs.
  split; [| split].
  - unfold Circuit.smoothInfluence.
    set (d := if Rgtb (Rabs (angle - targetAngle)) PI
              then 2 * PI - Rabs (angle - targetAngle)
              else Rabs (angle - targetAngle)).
    assert (Hd0 : 0 <= d).
    { unfold d. destruct (Rgtb _ _) eqn:E; lra. }
    destruct (Rgtb d (spread * PI)) eqn:E; [lra |].
    apply Rgtb_false_iff in E.
    assert (Hsp : 0 < spread * PI) by nra.
    assert (Hq : 0 <= d / (spread * PI) <= 1).
    { split.
      - apply Rmult_le_pos; [exact Hd0 | apply Rlt_le, Rinv_0_lt_compat, Hsp].
      - apply (Rmult_le_reg_r (spread * PI)); [exact Hsp |].
        unfold Rdiv. rewrite Rmult_assoc, Rinv_l by lra. lra. }
    split.
    + apply cos_ge_0; nra.
    + apply COS_bound.
  - unfold Circuit.smoothInfluence.
    replace (targetAngle - targetAngle) with 0 by ring. rewrite Rabs_R0.
    unfold Rgtb. rewrite (Rltb_ge PI 0) by lra.
    rewrite Rltb_ge by nra.
    unfold Rdiv. rewrite !Rmult_0_l. apply cos_0.
  - intros [H1 H2]. unfold Circuit.smoothInfluence.
    unfold Rgtb. rewrite (Rltb_ge PI _) by lra. now rewrite Rltb_lt by lra.
Qed.

Lemma X7_smoothInfluence_range_witness :
  0 <= Circuit.smoothInfluence 1 0.8 0.35 <= 1.
Proof.
  apply (X7_smoothInfluence_range 1 0.8 0.35); [lra |].
  pose proof PI_gt_3. unfold Rabs. destruct (Rcase_abs _); lra.
Defined.

(** Decide the level tests that the hypotheses settle. *)
Ltac decide_geb :=
  repeat match goal with
  | |- context [(?a >=? ?b)%Z] =>
      first [ replace (a >=? b)%Z with true by (symmetry; apply Z.geb_le; lia)
            | replace (a >=? b)%Z with false
                by (symmetry; rewrite Z.geb_leb; apply Z.leb_gt; lia) ]
  end.

(** X8: a level has the control points of every lower level, in the same
    order, and adds its own after them; there are none below level 1, and
    every control point has a spread above 0 and at most 0.6 and an angle
    within a turn. *)
Theorem X8_controlPoints_grow (l1 l2 : Z) (cp : ControlPoint) :
  (l1 <= l2)%Z ->
  (exists more,
      Circuit.getControlPoints l2 = Circuit.getControlPoints l1 ++ more)
  /\ ((l1 < 1)%Z -> Circuit.getControlPoints l1 = [])
  /\ (In cp (Circuit.getControlPoints l2) ->
      0 < cp_spread cp <= 0.6 /\ 0 <= cp_angle cp < 2 * PI).
Proof.
  intros Hle. pose proof PI_gt_3 as Hpi. split; [| split].
  - assert (C1 : (l1 < 1 \/ l1 = 1 \/ l1 = 2 \/ l1 = 3 \/ l1 = 4 \/ l1 = 5 \/ l1 = 6
                  \/ l1 = 7 \/ l1 = 8 \/ l1 = 9 \/ 10 <= l1)%Z) by lia.
    assert (C2 : (l2 < 1 \/ l2 = 1 \/ l2 = 2 \/ l2 = 3 \/ l2 = 4 \/ l2 = 5 \/ l2 = 6
                  \/ l2 = 7 \/ l2 = 8 \/ l2 = 9 \/ 10 <= l2)%Z) by lia.
    unfold Circuit.getControlPoints.
    repeat (destruct C1 as [C1 | C1]); repeat (destruct C2 as [C2 | C2]);
      try (exfalso; lia); decide_geb; simpl; eexists;
      repeat (apply (f_equal (cons _))); reflexivity.
  - intros H. unfold Circuit.getControlPoints.
    repeat match goal with
    | |- context [(?a >=? ?b)%Z] =>
        let E := fresh "E" in
        destruct (a >=? b)%Z eqn:E;
        [apply Z.geb_le in E; lia | clear E]
    end. reflexivity.
  - unfold Circuit.getControlPoints. intros Hin.
    repeat (apply in_app_or in Hin; destruct Hin as [Hin | Hin]);
      (destruct (_ >=? _)%Z; simpl in Hin;
       repeat (destruct Hin as [<- | Hin]; [simpl; lra |]); destruct Hin).
Qed.

Lemma X8_controlPoints_grow_witness :
  (exists more, Circuit.getControlPoints 3 = Circuit.getControlPoints 1 ++ more)
  /\ 0 < cp_spread (mkControlPoint 0.8 (-60) (-30) 0.35) <= 0.6.
Proof.
  destruct (X8_controlPoints_grow 1 3 (mkControlPoint 0.8 (-60) (-30) 0.35)) as [H1 [_ H3]].
  - lia.
  - split; [exact H1 |]. apply H3. simpl. right. right. left. reflexivity.
Defined.

(** ** The edges of the track *)

Lemma calculateEdges_loop_spec (waypoints : list Vector) (trackWidth : R)
    (todo i : nat) :
  (i + todo <= length waypoints)%nat ->
  exists inner outer,
    Circuit.calculateEdges_loop waypoints trackWidth i todo = Some (inner, outer)
    /\ length inner = todo /\ length outer = todo
    /\ forall k, (k < todo)%nat ->
         exists a b, edgeAt waypoints trackWidth (i + k) = Some (a, b)
                     /\ nth_error inner k = Some a /\ nth_error outer k = Some b.
Proof.
  revert i. induction todo as [| todo IH]; intros i Hle.
  - exists [], []. repeat split. intros k Hk. lia.
  - simpl.
    assert (Hn : length waypoints <> 0%nat) by lia.
    assert (Hi : (i < length waypoints)%nat) by lia.
    destruct (nth_error waypoints i) as [current |] eqn:Ec;
      [| apply nth_error_None in Ec; lia].
    simpl. unfold Circuit.perpAt.
    pose proof (Nat.mod_upper_bound (i + 1) _ Hn) as L1.
    pose proof (Nat.mod_upper_bound (i + length waypoints - 1) _ Hn) as L2.
    destruct (nth_error waypoints ((i + 1) mod length waypoints)) as [next |] eqn:En;
      [| apply nth_error_None in En; lia].
    destruct (nth_error waypoints ((i + length waypoints - 1) mod length waypoints))
      as [prev |] eqn:Ep; [| apply nth_error_None in Ep; lia].
    simpl.
    destruct (IH (S i)) as [inner [outer [Hl [Li [Lo Hk]]]]]; [lia |].
    rewrite Hl. simpl. eexists. eexists. split; [reflexivity |].
    split; [simpl; lia |]. split; [simpl; lia |].
    intros k Hlt. destruct k as [| k].
    + rewrite Nat.add_0_r. unfold edgeAt, Circuit.perpAt. rewrite Ec, En, Ep. simpl.
      eexists. eexists. repeat split.
    + destruct (Hk k) as [a [b [He [Ha Hb]]]]; [lia |].
      exists a, b. replace (i + S k)%nat with (S i + k)%nat by lia.
      repeat split; assumption.
Qed.

Lemma mag_sub_ne (a b : Vector) : a <> b -> p5.mag (p5.sub a b) <> 0.
Proof.
  intros Hne Hz. apply mag_eq_0 in Hz. apply Hne.
  apply (f_equal vx) in Hz as Hx. apply (f_equal vy) in Hz as Hy. simpl in Hx, Hy.
  apply Vector_eq; lra.
Qed.

Lemma calculateEdges_ok (waypoints : list Vector) (trackWidth : R) :
  exists inner outer,
    Circuit.calculateEdges waypoints trackWidth = Some (inner, outer)
    /\ length inner = length waypoints /\ length outer = length waypoints
    /\ forall i c, nth_error waypoints i = Some c ->
         exists a b next prev,
           nth_error inner i = Some a /\ nth_error outer i = Some b
           /\ nth_error waypoints ((i + 1) mod length waypoints) = Some next
           /\ nth_error waypoints ((i + length waypoints - 1) mod length waypoints)
              = Some prev
           /\ p5.add a b = p5.mult c 2
           /\ (next <> prev -> 0 <= trackWidth ->
               p5.dist c a = trackWidth / 2 /\ p5.dist c b = trackWidth / 2)
           /\ (next = prev -> a = c /\ b = c).
Proof.
  unfold Circuit.calculateEdges.
  destruct (calculateEdges_loop_spec waypoints trackWidth (length waypoints) 0)
    as [inner [outer [Hl [Li [Lo Hk]]]]]; [lia |].
  exists inner, outer. split; [exact Hl |]. split; [exact Li |]. split; [exact Lo |].
  intros i c Hc.
  assert (Hi : (i < length waypoints)%nat) by (apply nth_error_Some; rewrite Hc; discriminate).
  destruct (Hk i Hi) as [a [b [He [Ha Hb]]]]. simpl in He.
  unfold edgeAt, Circuit.perpAt in He. rewrite Hc in He. simpl in He.
  destruct (nth_error waypoints ((i + 1) mod length waypoints)) as [next |];
    [simpl in He | discriminate].
  destruct (nth_error waypoints ((i + length waypoints - 1) mod length waypoints))
    as [prev |]; [simpl in He | discriminate].
  inversion He; subst a b; clear He.
  eexists. eexists. exists next, prev. split; [exact Ha |]. split; [exact Hb |].
  split; [reflexivity |]. split; [reflexivity |].
  set (perp := createVector (- vy (p5.normalize (p5.sub next prev)))
                 (vx (p5.normalize (p5.sub next prev)))).
  split; [apply Vector_eq; simpl; ring |]. split.
  - intros Hne Hw.
    assert (Hu : p5.mag perp = 1).
    { unfold perp. rewrite mag_perp. apply mag_normalize. now apply mag_sub_ne. }
    unfold p5.dist.
    replace (p5.sub (p5.add c (p5.mult perp (trackWidth / 2))) c)
      with (p5.mult perp (trackWidth / 2)) by (apply Vector_eq; simpl; ring).
    replace (p5.sub (p5.sub c (p5.mult perp (trackWidth / 2))) c)
      with (p5.mult perp (- (trackWidth / 2))) by (apply Vector_eq; simpl; ring).
    rewrite !mag_mult, Hu, Rabs_Ropp, Rabs_of_pos by lra. lra.
  - intros ->. unfold perp. rewrite sub_self, normalize_zero.
    split; apply Vector_eq; simpl; ring.
Qed.

(** X9: [calculateEdges] never fails and gives one inner and one outer
    edge point per waypoint.  The waypoint is the middle of its two edge
    points.  Where the next and the previous waypoint differ, each edge
    point is half the track width away from the waypoint; where they are
    the same point (a track of one or two waypoints) there is no
    direction to turn, and both edge points fall on the waypoint. *)
Theorem X9_edges (waypoints : list Vector) (trackWidth : R) :
  exists inner outer,
    Circuit.calculateEdges waypoints trackWidth = Some (inner, outer)
    /\ length inner = length waypoints /\ length outer = length waypoints
    /\ forall i c, nth_error waypoints i = Some c ->
         exists a b next prev,
           nth_error inner i = Some a /\ nth_error outer i = Some b
           /\ nth_error waypoints ((i + 1) mod length waypoints) = Some next
           /\ nth_error waypoints ((i + length waypoints - 1) mod length waypoints)
              = Some prev
           /\ p5.add a b = p5.mult c 2
           /\ (next <> prev -> 0 <= trackWidth ->
               p5.dist c a = trackWidth / 2 /\ p5.dist c b = trackWidth / 2)
           /\ (next = prev -> a = c /\ b = c).
Proof.
  exact (calculateEdges_ok waypoints trackWidth).
Qed.

Lemma X9_edges_witness :
  exists a b, p5.add a b = p5.mult (createVector 0 0) 2
              /\ p5.dist (createVector 0 0) a = 100 / 2.
Proof.
  destruct (X9_edges triangle 100) as [inner [outer [_ [_ [_ H]]]]].
  destruct (H 0%nat (createVector 0 0) eq_refl)
    as [a [b [next [prev [_ [_ [Hn [Hp [Hm [Hd _]]]]]]]]]].
  exists a, b. split; [exact Hm |].
  apply Hd; [| lra].
  simpl in Hn, Hp. inversion Hn. inversion Hp.
  intros E. apply (f_equal vx) in E. simpl in E. lra.
Defined.

(** ** The obstacles of a new track *)

Lemma floor_range (x : R) (a b : Z) :
  IZR a <= x < IZR b -> (a <= floor x < b)%Z.
Proof.
  intros [Ha Hb]. unfold floor. destruct (base_Int_part x) as [H1 H2]. split.
  - assert (IZR (a - 1) < IZR (Int_part x)) by (rewrite minus_IZR; lra).
    apply lt_IZR in H. lia.
  - apply lt_IZR. lra.
Qed.

Lemma randomBetween_range (u min max : R) :
  0 <= u < 1 ->
  Rmin min max <= randomBetween u min max <= Rmax min max
  /\ (min <> max -> randomBetween u min max < Rmax min max).
Proof.
  intros Hu. unfold randomBetween, Rgtb.
  destruct (Rltb max min) eqn:E;
    [apply Rltb_true_iff in E | apply Rltb_false_iff in E].
  - rewrite Rmin_right, Rmax_left by lra. split; [split |]; intros; nra.
  - rewrite Rmin_left, Rmax_right by lra. split; [split |]; intros; nra.
Qed.

Lemma drawnIndex_range (waypoints : list Vector) (lo : Z) (u : R) :
  0 <= u < 1 -> (0 < lo <= Z.of_nat (length waypoints))%Z ->
  (0 <= drawnIndex waypoints lo u < Z.of_nat (length waypoints))%Z
  /\ ((2 * lo <= Z.of_nat (length waypoints))%Z ->
      (lo <= drawnIndex waypoints lo u <= Z.of_nat (length waypoints) - lo)%Z).
Proof.
  intros Hu [Hlo Hn]. unfold drawnIndex.
  set (n := Z.of_nat (length waypoints)) in *.
  destruct (randomBetween_range u (IZR lo) (IZR n - IZR lo) Hu) as [[Hmin Hmax] Hlt].
  apply IZR_lt in Hlo as Hlo'. apply IZR_le in Hn as Hn'.
  split.
  - apply floor_range. split.
    + eapply Rle_trans; [| exact Hmin]. unfold Rmin. destruct (Rle_dec _ _); lra.
    + destruct (Req_dec_T (IZR lo) (IZR n - IZR lo)) as [E | E].
      * assert (En : IZR n = 2 * IZR lo) by lra.
        rewrite <- E in *. rewrite Rmax_left in Hmax by lra. lra.
      * specialize (Hlt E). eapply Rlt_le_trans; [exact Hlt |].
        unfold Rmax. destruct (Rle_dec _ _); lra.
  - intros H2. apply IZR_le in H2 as H2'. rewrite mult_IZR in H2'.
    rewrite Rmin_left in Hmin by lra. rewrite Rmax_right in Hmax by lra.
    assert (Hr : (lo <= floor (randomBetween u (IZR lo) (IZR n - IZR lo)) < n - lo + 1)%Z).
    { apply floor_range. rewrite plus_IZR, minus_IZR. lra. }
    lia.
Qed.

Lemma at_index_Some {A : Type} (l : list A) (i : Z) :
  (0 <= i < Z.of_nat (length l))%Z -> exists a, at_index l i = Some a.
Proof.
  intros [H0 Hn]. unfold at_index.
  rewrite (proj2 (Z.ltb_ge i 0)) by exact H0.
  destruct (nth_error l (Z.to_nat i)) as [a |] eqn:E; [now exists a |].
  apply nth_error_None in E. lia.
Qed.

(** When the drawn index is inside the array, [placeObstacle] places the
    obstacle at that waypoint. *)
Lemma placeObstacle_ok (waypoints : list Vector) (kind : ObstacleType)
    (radius : R) (lo : Z) (offsetOf : R -> R) (rnd : Random) (draws : nat) :
  uniform rnd -> (0 < lo <= Z.of_nat (length waypoints))%Z ->
  exists o,
    Circuit.placeObstacle waypoints kind radius (IZR lo) offsetOf rnd draws
      = Some (o, S (S draws))
    /\ o_type o = kind /\ o_radius o = radius
    /\ Z.of_nat (o_waypointIndex o) = drawnIndex waypoints lo (rnd draws).
Proof.
  intros Hu Hlo. unfold Circuit.placeObstacle. fold (drawnIndex waypoints lo (rnd draws)).
  destruct (drawnIndex_range waypoints lo (rnd draws) (Hu draws) Hlo) as [Hr _].
  set (idx := drawnIndex waypoints lo (rnd draws)) in *.
  set (n := Z.of_nat (length waypoints)) in *.
  destruct (at_index_Some waypoints idx Hr) as [wp ->].
  destruct (at_index_Some waypoints (Z.rem (idx + 1) n)) as [next ->].
  { pose proof (Z.rem_bound_pos (idx + 1) n). pose proof (Z.rem_nonneg (idx + 1) n). lia. }
  destruct (at_index_Some waypoints (Z.rem (idx - 1 + n) n)) as [prev ->].
  { pose proof (Z.rem_bound_pos (idx - 1 + n) n).
    pose proof (Z.rem_nonneg (idx - 1 + n) n). lia. }
  simpl. eexists. split; [reflexivity |]. simpl. repeat split. lia.
Qed.

Lemma placeMany_ok (P : Obstacle -> Prop) (place : nat -> option (Obstacle * nat))
    (count draws : nat) :
  (forall d, exists o, place d = Some (o, S (S d)) /\ P o) ->
  exists l,
    Circuit.placeMany count place draws = Some (l, (draws + 2 * count)%nat)
    /\ length l = count /\ Forall P l.
Proof.
  intros Hp. revert draws. induction count as [| count IH]; intros draws; simpl.
  - exists []. rewrite Nat.add_0_r. repeat split. constructor.
  - destruct (Hp draws) as [o [-> Ho]]. simpl.
    destruct (IH (S (S draws))) as [l [-> [Hl Hf]]]. simpl.
    exists (o :: l). split; [f_equal; f_equal; lia |].
    split; [simpl; lia | now constructor].
Qed.

Lemma generateObstacles_ok (level : Z) (waypoints : list Vector) (trackWidth : R)
    (rnd : Random) (draws : nat) :
  uniform rnd ->
  (15 <= length waypoints)%nat ->
  exists cones barriers oils,
    Circuit.generateObstacles level waypoints trackWidth rnd draws
      = Some (cones ++ barriers ++ oils,
              (draws + 2 * (length cones + length barriers + length oils))%nat)
    /\ Z.of_nat (length cones) = Z.max 0 (Z.min (level + 2) 12)
    /\ Z.of_nat (length barriers)
       = (if (level >=? 4)%Z then Z.min (level - 2) 6 else 0)%Z
    /\ Z.of_nat (length oils)
       = (if (level >=? 7)%Z then Z.min (level - 5) 4 else 0)%Z
    /\ Forall (placedAs cone 12 5 (length waypoints)) cones
    /\ Forall (placedAs barrier 25 10 (length waypoints)) barriers
    /\ Forall (placedAs oil 30 15 (length waypoints)) oils.
Proof.
  intros Hu Hge. unfold Circuit.generateObstacles.
  rewrite (proj2 (Nat.ltb_ge _ _)) by lia.
  assert (Hplace : forall kind radius lo offsetOf,
            (0 < lo <= 15)%Z ->
            forall d, exists o,
              Circuit.placeObstacle waypoints kind radius (IZR lo) offsetOf rnd d
                = Some (o, S (S d))
              /\ placedAs kind radius lo (length waypoints) o).
  { intros kind radius lo offsetOf Hlo d.
    assert (Hlo' : (0 < lo <= Z.of_nat (length waypoints))%Z) by lia.
    destruct (placeObstacle_ok waypoints kind radius lo offsetOf rnd d Hu Hlo')
      as [o [Hp [Ht [Hr Hi]]]].
    exists o. split; [exact Hp |]. unfold placedAs.
    destruct (drawnIndex_range waypoints lo (rnd d) (Hu d) Hlo') as [R1 R2].
    rewrite <- Hi in R1, R2.
    split; [exact Ht |]. split; [exact Hr |]. split; [lia | exact R2]. }
  destruct (placeMany_ok _ _ (Z.to_nat (Circuit.numCones level)) draws
              (Hplace cone 12 5%Z
                 (fun u => (trackWidth / 2 - 20) * (if Rgtb u 0.5 then 1 else -1))
                 ltac:(lia)))
    as [cones [Hc [Lc Fc]]].
  rewrite Hc. cbv beta iota zeta delta [bind fst snd].
  destruct (placeMany_ok _ _ (Z.to_nat (Circuit.numBarriers level))
              (draws + 2 * Z.to_nat (Circuit.numCones level))
              (Hplace barrier 25 10%Z
                 (fun u => randomBetween u (- trackWidth / 4) (trackWidth / 4))
                 ltac:(lia)))
    as [barriers [Hb [Lb Fb]]].
  rewrite Hb. cbv beta iota zeta delta [bind fst snd].
  destruct (placeMany_ok _ _ (Z.to_nat (Circuit.numOilSlicks level))
              (draws + 2 * Z.to_nat (Circuit.numCones level)
               + 2 * Z.to_nat (Circuit.numBarriers level))
              (Hplace oil 30 15%Z
                 (fun u => randomBetween u (- trackWidth / 3) (trackWidth / 3))
                 ltac:(lia)))
    as [oils [Ho [Lo Fo]]].
  rewrite Ho. cbv beta iota zeta delta [bind fst snd].
  exists cones, barriers, oils.
  split; [f_equal; f_equal; lia |].
  rewrite Lc, Lb, Lo. unfold Circuit.numCones, Circuit.numBarriers, Circuit.numOilSlicks.
  repeat split; try assumption.
  + lia.
  + destruct (level >=? 4)%Z eqn:E; [apply Z.geb_le in E |]; lia.
  + destruct (level >=? 7)%Z eqn:E; [apply Z.geb_le in E |]; lia.
Qed.

(** X10: with draws in [0, 1), [generateObstacles] on a track of 15
    waypoints or more never fails.  It makes [min(level + 2, 12)] cones of
    radius 12, then [min(level - 2, 6)] barriers of radius 25 from level 4
    on, then [min(level - 5, 4)] oil slicks of radius 30 from level 7 on,
    with two draws each.  Every obstacle sits at a valid waypoint index,
    and on a track of 30 waypoints or more the index keeps the margin of
    its kind (5, 10, 15) to both ends of the array, so that no obstacle is
    placed at the start line.  A track of fewer than 10 waypoints gets no
    obstacle and uses no draw. *)
Theorem X10_generateObstacles (level : Z) (waypoints : list Vector) (trackWidth : R)
    (rnd : Random) (draws : nat) :
  uniform rnd ->
  ((length waypoints < 10)%nat ->
   Circuit.generateObstacles level waypoints trackWidth rnd draws = Some ([], draws))
  /\ ((15 <= length waypoints)%nat ->
      exists cones barriers oils,
        Circuit.generateObstacles level waypoints trackWidth rnd draws
          = Some (cones ++ barriers ++ oils,
                  (draws + 2 * (length cones + length barriers + length oils))%nat)
        /\ Z.of_nat (length cones) = Z.max 0 (Z.min (level + 2) 12)
        /\ Z.of_nat (length barriers)
           = (if (level >=? 4)%Z then Z.min (level - 2) 6 else 0)%Z
        /\ Z.of_nat (length oils)
           = (if (level >=? 7)%Z then Z.min (level - 5) 4 else 0)%Z
        /\ Forall (placedAs cone 12 5 (length waypoints)) cones
        /\ Forall (placedAs barrier 25 10 (length waypoints)) barriers
        /\ Forall (placedAs oil 30 15 (length waypoints)) oils).
Proof.
  intros Hu. split.
  - intros Hlt. unfold Circuit.generateObstacles.
    now rewrite (proj2 (Nat.ltb_lt _ _) Hlt).
  - intros Hge. now apply generateObstacles_ok.
Qed.

Lemma zeroDraws_uniform : uniform zeroDraws.
Proof. intros k. unfold zeroDraws. lra. Qed.

Lemma X10_generateObstacles_witness :
  exists cones barriers oils,
    Circuit.generateObstacles 7 (Track.waypoints track80) 118 zeroDraws 0
      = Some (cones ++ barriers ++ oils,
              (0 + 2 * (length cones + length barriers + length oils))%nat)
    /\ Z.of_nat (length cones) = 9%Z
    /\ Z.of_nat (length barriers) = 5%Z
    /\ Z.of_nat (length oils) = 2%Z.
Proof.
  destruct (X10_generateObstacles 7 (Track.waypoints track80) 118 zeroDraws 0
              zeroDraws_uniform) as [_ H].
  destruct H as [cones [barriers [oils [H1 [H2 [H3 [H4 _]]]]]]].
  - simpl. lia.
  - exists cones, barriers, oils. repeat split; assumption.
Defined.

(** X11: the guard of [generateObstacles] lets through tracks of 10 to 14
    waypoints, for which the margin of 15 of the oil slicks is too large:
    from level 7 on, when the draw of the first oil slick gives a negative
    index, the waypoint read there is [undefined] and the generation
    throws. *)
Theorem X11_generateObstacles_throws (level : Z) (waypoints : list Vector)
    (trackWidth : R) (rnd : Random) (draws : nat) :
  uniform rnd ->
  (7 <= level)%Z ->
  (10 <= length waypoints < 15)%nat ->
  rnd (firstOilDraw level draws) * (30 - INR (length waypoints))
    < 15 - INR (length waypoints) ->
  Circuit.generateObstacles level waypoints trackWidth rnd draws = None.
Proof.
  intros Hu Hlevel Hlen Hdraw.
  unfold Circuit.generateObstacles.
  rewrite (proj2 (Nat.ltb_ge _ _)) by lia.
  assert (Hplace : forall kind radius lo offsetOf,
            (0 < lo <= 10)%Z ->
            forall d, exists o,
              Circuit.placeObstacle waypoints kind radius (IZR lo) offsetOf rnd d
                = Some (o, S (S d)) /\ True).
  { intros kind radius lo offsetOf Hlo d.
    destruct (placeObstacle_ok waypoints kind radius lo offsetOf rnd d Hu)
      as [o [Hp _]]; [lia |].
    exists o. split; [exact Hp | exact I]. }
  destruct (placeMany_ok _ _ (Z.to_nat (Circuit.numCones level)) draws
              (Hplace cone 12 5%Z
                 (fun u => (trackWidth / 2 - 20) * (if Rgtb u 0.5 then 1 else -1))
                 ltac:(lia)))
    as [cones [Hc _]].
  rewrite Hc. cbv beta iota zeta delta [bind fst snd].
  destruct (placeMany_ok _ _ (Z.to_nat (Circuit.numBarriers level))
              (draws + 2 * Z.to_nat (Circuit.numCones level))
              (Hplace barrier 25 10%Z
                 (fun u => randomBetween u (- trackWidth / 4) (trackWidth / 4))
                 ltac:(lia)))
    as [barriers [Hb _]].
  rewrite Hb. cbv beta iota zeta delta [bind fst snd].
  fold (firstOilDraw level draws).
  assert (Hn : exists k, Z.to_nat (Circuit.numOilSlicks level) = S k).
  { unfold Circuit.numOilSlicks.
    destruct (Z.geb_spec level 7) as [_ | Hlt]; [| lia].
    exists (Nat.pred (Z.to_nat (Z.min (level - 5) 4))). lia. }
  destruct Hn as [k Hk]. rewrite Hk.
  unfold Circuit.placeMany at 1. unfold Circuit.placeObstacle at 1.
  set (u := rnd (firstOilDraw level draws)) in *.
  assert (Hidx : (floor (randomBetween u 15 (IZR (Z.of_nat (length waypoints)) - 15))
                  < 0)%Z).
  { rewrite INR_IZR_INZ in Hdraw.
    assert (Hn1 : 10 <= IZR (Z.of_nat (length waypoints))) by (apply IZR_le; lia).
    assert (Hn2 : IZR (Z.of_nat (length waypoints)) < 15) by (apply IZR_lt; lia).
    unfold randomBetween, Rgtb, floor. rewrite Rltb_lt by lra.
    apply lt_IZR.
    destruct (base_Int_part (u * (15 - (IZR (Z.of_nat (length waypoints)) - 15))
                             + (IZR (Z.of_nat (length waypoints)) - 15))) as [B _].
    simpl IZR. lra. }
  unfold at_index at 1.
  rewrite (proj2 (Z.ltb_lt _ _) Hidx). reflexivity.
Qed.

Lemma X11_generateObstacles_throws_witness :
  Circuit.generateObstacles 7 (repeat (createVector 500 350) 10) 118 zeroDraws 0 = None.
Proof.
  apply X11_generateObstacles_throws.
  - exact zeroDraws_uniform.
  - lia.
  - simpl. lia.
  - unfold zeroDraws. rewrite repeat_length. rewrite INR_IZR_INZ. simpl Z.of_nat. lra.
Defined.

(** ** A new track *)

Lemma new_track_ok (level : Z) (rnd : Random) (draws : nat) :
  uniform rnd ->
  exists tr,
    Circuit.new level rnd draws
      = Some (tr, (draws + 2 * length (Track.obstacles tr))%nat)
    /\ Track.level tr = level
    /\ length (Track.waypoints tr) = 80%nat
    /\ Track.trackWidth tr = IZR (Track.getTrackWidth level)
    /\ Z.of_nat (length (Track.obstacles tr))
       = (Z.max 0 (Circuit.numCones level) + Circuit.numBarriers level
          + Circuit.numOilSlicks level)%Z
    /\ Forall (fun o => (5 <= o_waypointIndex o <= 75)%nat) (Track.obstacles tr).
Proof.
  intros Hu. unfold Circuit.new.
  destruct (generateObstacles_ok level (Circuit.generateCircuit level)
              (IZR (Track.getTrackWidth level)) rnd draws Hu)
    as [cones [barriers [oils [Hg [Lc [Lb [Lo [Fc [Fb Fo]]]]]]]]];
    [rewrite generateCircuit_length; lia |].
  rewrite generateCircuit_length in Fc, Fb, Fo.
  destruct (calculateEdges_ok (Circuit.generateCircuit level)
              (IZR (Track.getTrackWidth level))) as [inner [outer [He _]]].
  cbv zeta. rewrite He. cbv beta iota zeta delta [bind]. rewrite Hg.
  cbv beta iota zeta delta [bind fst snd].
  exists (Track.mk level (Circuit.generateCircuit level)
            (IZR (Track.getTrackWidth level)) (cones ++ barriers ++ oils)).
  split.
  - simpl Track.obstacles. rewrite !length_app. do 3 f_equal. lia.
  - simpl. split; [reflexivity |]. split; [apply (generateCircuit_length level) |].
    split; [reflexivity |]. split.
    + rewrite !length_app, !Nat2Z.inj_add, Lc, Lb, Lo.
      unfold Circuit.numCones, Circuit.numBarriers, Circuit.numOilSlicks. lia.
    + rewrite !Forall_app. repeat split.
      * eapply Forall_impl; [| exact Fc]. intros o [_ [_ [_ Hi]]]. simpl in Hi. lia.
      * eapply Forall_impl; [| exact Fb]. intros o [_ [_ [_ Hi]]]. simpl in Hi. lia.
      * eapply Forall_impl; [| exact Fo]. intros o [_ [_ [_ Hi]]]. simpl in Hi. lia.
Qed.

(** X12: with draws in [0, 1), [new Track(level)] never fails, at any
    level.  The track has 80 waypoints and the width of its level, its
    obstacles are counted by the level as in X10, each sits at a waypoint
    index of the track, and the constructor has made two draws per
    obstacle. *)
Theorem X12_new_track (level : Z) (rnd : Random) (draws : nat) :
  uniform rnd ->
  exists tr,
    Circuit.new level rnd draws
      = Some (tr, (draws + 2 * length (Track.obstacles tr))%nat)
    /\ Track.level tr = level
    /\ length (Track.waypoints tr) = 80%nat
    /\ Track.trackWidth tr = IZR (Track.getTrackWidth level)
    /\ Z.of_nat (length (Track.obstacles tr))
       = (Z.max 0 (Circuit.numCones level) + Circuit.numBarriers level
          + Circuit.numOilSlicks level)%Z
    /\ Forall (fun o => (5 <= o_waypointIndex o <= 75)%nat) (Track.obstacles tr).
Proof.
  exact (new_track_ok level rnd draws).
Qed.

Lemma X12_new_track_witness :
  exists tr, Circuit.new 10 zeroDraws 0
               = Some (tr, (0 + 2 * length (Track.obstacles tr))%nat)
             /\ length (Track.waypoints tr) = 80%nat
             /\ length (Track.obstacles tr) = 22%nat.
Proof.
  destruct (X12_new_track 10 zeroDraws 0 zeroDraws_uniform)
    as [tr [H1 [_ [H2 [_ [H3 _]]]]]].
  exists tr. split; [exact H1 |]. split; [exact H2 |].
  change (Z.max 0 (Circuit.numCones 10) + Circuit.numBarriers 10
          + Circuit.numOilSlicks 10)%Z with 22%Z in H3. lia.
Defined.

(** ** The start of a level *)

Lemma createAICar_onGrid (level : Z) (tr : Track.t) (startPos startDir perpDir : Vector)
    (rnd : Random) (draws i : nat) :
  uniform rnd ->
  (0 < length (Track.waypoints tr))%nat ->
  onGrid level tr (fst (createAICar level tr startPos startDir perpDir rnd draws i))
  /\ snd (createAICar level tr startPos startDir perpDir rnd draws i) = (draws + 3)%nat.
Proof.
  intros Hu Hn. unfold createAICar, onGrid, followerInv.
  cbv beta iota zeta delta [fst snd FollowerCar.new FollowerCar.set_base
    FollowerCar.set_currentWaypointIndex FollowerCar.set_laps
    FollowerCar.set_checkpointsReached FollowerCar.set_lastCheckpoint
    FollowerCar.base FollowerCar.track FollowerCar.currentWaypointIndex
    FollowerCar.laps FollowerCar.checkpointsReached FollowerCar.lastCheckpoint
    FollowerCar.finished FollowerCar.maxspeed FollowerCar.maxforce
    Vehicule.maxspeed Vehicule.maxforce].
  split; [| lia].
  split; [split; [reflexivity |]; split; [reflexivity |]; split; [reflexivity | exact Hn] |].
  do 4 (split; [reflexivity |]).
  destruct (randomBetween_range (rnd (S (S draws))) (Ropp 0.25) 0.25 (Hu _)) as [[L U] S'].
  rewrite Rmin_left in L by lra. rewrite Rmax_right in S' by lra.
  assert (S'' := S' ltac:(lra)). lra.
Qed.

Lemma createAICars_loop_ok (level : Z) (tr : Track.t) (startPos startDir perpDir : Vector)
    (rnd : Random) (todo : nat) :
  uniform rnd ->
  (0 < length (Track.waypoints tr))%nat ->
  forall draws i,
    length (fst (createAICars_loop level tr startPos startDir perpDir rnd draws i todo))
      = todo
    /\ snd (createAICars_loop level tr startPos startDir perpDir rnd draws i todo)
       = (draws + 3 * todo)%nat
    /\ Forall (onGrid level tr)
         (fst (createAICars_loop level tr startPos startDir perpDir rnd draws i todo)).
Proof.
  intros Hu Hn. induction todo as [| todo IH]; intros draws i.
  - simpl. split; [reflexivity |]. split; [lia | constructor].
  - cbn [createAICars_loop].
    destruct (createAICar_onGrid level tr startPos startDir perpDir rnd draws i Hu Hn)
      as [Hg Hd].
    destruct (createAICar level tr startPos startDir perpDir rnd draws i) as [ai d].
    simpl in Hg, Hd. subst d.
    destruct (IH (draws + 3)%nat (S i)) as [Hl [Hs Hf]].
    destruct (createAICars_loop level tr startPos startDir perpDir rnd (draws + 3) (S i) todo)
      as [rest d].
    simpl in *. split; [lia |]. split; [lia |]. now constructor.
Qed.

Lemma initLevel_ok (level unlocked : Z) (rnd : Random) (draws : nat) :
  uniform rnd ->
  exists g draws',
    initLevel level unlocked rnd draws = Some (g, draws')
    /\ gameState g = playing /\ raceFinished g = false /\ winner g = None
    /\ currentLevel g = level /\ unlockedLevel g = unlocked
    /\ Track.level (track g) = level
    /\ length (Track.waypoints (track g)) = 80%nat
    /\ playerInv (track g) (playerCar g)
    /\ PlayerCar.laps (playerCar g) = 0%nat
    /\ PlayerCar.lastCheckpoint (playerCar g) = 0%nat
    /\ PlayerCar.finished (playerCar g) = false
    /\ PlayerCar.nitroFuel (playerCar g) = PlayerCar.nitroMaxFuel
    /\ Z.of_nat (length (aiCars g)) = Z.max 0 (numCars level)
    /\ Forall (onGrid level (track g)) (aiCars g).
Proof.
  intros Hu. unfold initLevel.
  destruct (new_track_ok level rnd draws Hu) as [tr [Hnew [Hlv [Hlen _]]]].
  rewrite Hnew. cbv beta iota zeta delta [bind].
  destruct (Track.waypoints tr) as [| w0 [| w1 rest]] eqn:Ew;
    [discriminate Hlen | discriminate Hlen |].
  cbn [nth_error]. unfold createAICars. rewrite Ew. cbn [nth_error].
  cbv beta iota zeta delta [bind].
  assert (Hn : (0 < length (Track.waypoints tr))%nat) by (rewrite Ew; simpl; lia).
  destruct (createAICars_loop_ok level tr w0 (p5.normalize (p5.sub w1 w0))
              (createVector (- vy (p5.normalize (p5.sub w1 w0)))
                 (vx (p5.normalize (p5.sub w1 w0))))
              rnd (Z.to_nat (numCars level)) Hu Hn
              (draws + 2 * length (Track.obstacles tr))%nat 0%nat) as [Hl [Hs Hf]].
  destruct (createAICars_loop level tr w0 _ _ rnd _ 0 (Z.to_nat (numCars level)))
    as [cars d].
  simpl in Hl, Hs, Hf.
  eexists. eexists. split; [reflexivity |].
  cbn [gameState raceFinished winner currentLevel unlockedLevel track playerCar aiCars].
  do 5 (split; [reflexivity |]).
  split; [exact Hlv |]. split; [rewrite Ew; exact Hlen |].
  split.
  { unfold playerInv, PlayerCar.new, PlayerCar.set_velocity, PlayerCar.set_base.
    cbn [PlayerCar.track PlayerCar.checkpointsReached PlayerCar.lastCheckpoint].
    split; [reflexivity |]. split; [reflexivity |]. rewrite Ew. simpl. lia. }
  do 4 (split; [reflexivity |]).
  split; [lia | exact Hf].
Qed.

(** X13: with draws in [0, 1), [initLevel] never fails, at any level.
    It leaves the game in the state [playing] with the race not finished
    and no winner, on a track of 80 waypoints of that level.  The player
    starts with no lap, at checkpoint 0, not finished, with a full nitro
    tank, and in the state of the counters that the lap rule keeps.  The
    opponents are [min(3 + level, 10)], each at waypoint 0 with no lap,
    with the steering force [0.18 + 0.025 level] and a top speed within
    0.25 of [2.5 + 0.35 level]. *)
Theorem X13_initLevel (level unlocked : Z) (rnd : Random) (draws : nat) :
  uniform rnd ->
  exists g draws',
    initLevel level unlocked rnd draws = Some (g, draws')
    /\ gameState g = playing /\ raceFinished g = false /\ winner g = None
    /\ currentLevel g = level /\ unlockedLevel g = unlocked
    /\ Track.level (track g) = level
    /\ length (Track.waypoints (track g)) = 80%nat
    /\ playerInv (track g) (playerCar g)
    /\ PlayerCar.laps (playerCar g) = 0%nat
    /\ PlayerCar.lastCheckpoint (playerCar g) = 0%nat
    /\ PlayerCar.finished (playerCar g) = false
    /\ PlayerCar.nitroFuel (playerCar g) = PlayerCar.nitroMaxFuel
    /\ Z.of_nat (length (aiCars g)) = Z.max 0 (numCars level)
    /\ Forall (onGrid level (track g)) (aiCars g).
Proof.
  exact (initLevel_ok level unlocked rnd draws).
Qed.

Lemma X13_initLevel_witness :
  exists g draws',
    initLevel 3 1 zeroDraws 0 = Some (g, draws')
    /\ gameState g = playing /\ length (aiCars g) = 6%nat.
Proof.
  destruct (X13_initLevel 3 1 zeroDraws 0 zeroDraws_uniform)
    as [g [d [H1 [H2 [_ [_ [_ [_ [_ [_ [_ [_ [_ [_ [_ [H3 _]]]]]]]]]]]]]]]].
  exists g, d. split; [exact H1 |]. split; [exact H2 |].
  change (Z.max 0 (numCars 3)) with 6%Z in H3. lia.
Defined.

(** ** The obstacle effects on the player *)













(** ** The autopilot *)












(** ** The controls of the player *)

Lemma mag_fromAngle (a : R) : p5.mag (p5.fromAngle a) = 1.
Proof.
  unfold p5.mag, p5.magSq, p5.fromAngle. simpl.
  replace (cos a * cos a + sin a * sin a) with 1.
  - apply sqrt_1.
  - pose proof (sin2_cos2 a) as H. unfold Rsqr in H. lra.
Qed.

Lemma thrust_bound (v : Vector) (a c : R) :
  Rabs c <= 0.18 ->
  p5.mag (p5.sub (p5.add v (p5.mult (p5.fromAngle a) c)) v) <= 0.18.
Proof.
  intros Hc.
  replace (p5.sub (p5.add v (p5.mult (p5.fromAngle a) c)) v)
    with (p5.mult (p5.fromAngle a) c) by (apply Vector_eq; simpl; ring).
  rewrite mag_mult, mag_fromAngle. lra.
Qed.

Lemma steering_turn (q : PlayerCar.t) (s : R) (left right : bool) :
  let q' :=
    if Rgtb s 0.5 then
      let p :=
        if left
        then PlayerCar.set_angle q (PlayerCar.angle q - PlayerCar.turn_speed * Rmin (s / 3) 1)
        else q in
      if right
      then PlayerCar.set_angle p (PlayerCar.angle p + PlayerCar.turn_speed * Rmin (s / 3) 1)
      else p
    else q in
  Rabs (PlayerCar.angle q' - PlayerCar.angle q) <= PlayerCar.turn_speed
  /\ (s <= 0.5 -> PlayerCar.angle q' = PlayerCar.angle q)
  /\ (left = right -> PlayerCar.angle q' = PlayerCar.angle q)
  /\ PlayerCar.velocity q' = PlayerCar.velocity q
  /\ PlayerCar.position q' = PlayerCar.position q.
Proof.
  unfold PlayerCar.turn_speed. cbv zeta.
  destruct (Rgtb s 0.5) eqn:Es;
    [apply Rgtb_true_iff in Es | apply Rgtb_false_iff in Es].
  - assert (Ht : 0 <= 0.065 * Rmin (s / 3) 1 <= 0.065).
    { unfold Rmin. destruct (Rle_dec _ _); lra. }
    destruct left, right; cbn [PlayerCar.set_angle PlayerCar.angle];
      (split; [unfold Rabs; destruct (Rcase_abs _); lra |]);
      (split; [intros Hs; lra |]);
      (split; [intros Hk; first [discriminate Hk | lra] |]);
      split; reflexivity.
  - split; [| repeat split].
    replace (PlayerCar.angle q - PlayerCar.angle q) with 0 by ring.
    rewrite Rabs_R0. lra.
Qed.

Lemma thrust_velocity (p : PlayerCar.t) (up down : bool) :
  let p1 :=
    if up
    then PlayerCar.set_velocity p
           (p5.add (PlayerCar.velocity p)
              (p5.mult (p5.fromAngle (PlayerCar.angle p)) PlayerCar.acceleration_power))
    else p in
  let p2 :=
    if down
    then PlayerCar.set_velocity p1
           (p5.add (PlayerCar.velocity p1)
              (p5.mult (p5.fromAngle (PlayerCar.angle p1)) (- PlayerCar.brake_power)))
    else p1 in
  p5.mag (p5.sub (PlayerCar.velocity p2) (PlayerCar.velocity p))
    <= PlayerCar.acceleration_power
  /\ PlayerCar.angle p2 = PlayerCar.angle p
  /\ PlayerCar.position p2 = PlayerCar.position p.
Proof.
  unfold PlayerCar.acceleration_power, PlayerCar.brake_power. cbv zeta.
  destruct up, down;
    cbn [PlayerCar.set_velocity PlayerCar.set_base PlayerCar.velocity PlayerCar.angle
         PlayerCar.position PlayerCar.base Vehicule.set_velocity Vehicule.velocity
         Vehicule.position];
    (split; [| split; reflexivity]).
  - replace (p5.add (p5.add (PlayerCar.velocity p)
                       (p5.mult (p5.fromAngle (PlayerCar.angle p)) 0.18))
               (p5.mult (p5.fromAngle (PlayerCar.angle p)) (Ropp 0.12)))
      with (p5.add (PlayerCar.velocity p) (p5.mult (p5.fromAngle (PlayerCar.angle p)) 0.06))
      by (apply Vector_eq; simpl; lra).
    apply thrust_bound. rewrite Rabs_of_pos; lra.
  - apply thrust_bound. rewrite Rabs_of_pos; lra.
  - apply thrust_bound. rewrite Rabs_Ropp, Rabs_of_pos; lra.
  - rewrite sub_self, mag_zero. lra.
Qed.

(** X16: the steering of [handleInput].  For a player that has not
    finished, one frame of input turns the car by at most [turn_speed],
    and not at all while the speed, the throttle and the brake of the
    frame included, is 0.5 or less, or when the left and the right key are
    both held or both released.  It changes the velocity by at most
    [acceleration_power] and leaves the position alone. *)
Theorem X16_steering (p : PlayerCar.t) (k : Keys) :
  PlayerCar.finished p = false ->
  Rabs (PlayerCar.angle (PlayerCar.handleInput p k) - PlayerCar.angle p)
    <= PlayerCar.turn_speed
  /\ (p5.mag (PlayerCar.velocity (PlayerCar.handleInput p k)) <= 0.5 ->
      PlayerCar.angle (PlayerCar.handleInput p k) = PlayerCar.angle p)
  /\ (key_left k = key_right k ->
      PlayerCar.angle (PlayerCar.handleInput p k) = PlayerCar.angle p)
  /\ p5.mag (p5.sub (PlayerCar.velocity (PlayerCar.handleInput p k)) (PlayerCar.velocity p))
     <= PlayerCar.acceleration_power
  /\ PlayerCar.position (PlayerCar.handleInput p k) = PlayerCar.position p.
Proof.
  intros Hf. unfold PlayerCar.handleInput. rewrite Hf.
  pose proof (thrust_velocity p (key_up k) (key_down k)) as T. cbv zeta in T.
  lazy zeta.
  match goal with
  | |- context [Rgtb (p5.mag (PlayerCar.velocity ?q)) _] => set (p2 := q) in *
  end.
  pose proof (steering_turn p2 (p5.mag (PlayerCar.velocity p2)) (key_left k) (key_right k))
    as S. cbv zeta in S.
  match type of S with
  | Rabs (PlayerCar.angle ?q - _) <= _ /\ _ => set (p3 := q) in *
  end.
  destruct T as [T1 [T2 T3]]. destruct S as [S1 [S2 [S3 [S4 S5]]]].
  change (PlayerCar.angle (PlayerCar.set_nitroActive p3 _)) with (PlayerCar.angle p3).
  change (PlayerCar.velocity (PlayerCar.set_nitroActive p3 _)) with (PlayerCar.velocity p3).
  change (PlayerCar.position (PlayerCar.set_nitroActive p3 _)) with (PlayerCar.position p3).
  rewrite S4, S5, T3, <- T2.
  split; [exact S1 |]. split; [exact S2 |]. split; [exact S3 |].
  split; [exact T1 | reflexivity].
Qed.

Lemma X16_steering_witness :
  PlayerCar.angle (PlayerCar.handleInput
                     (playerAt (createVector 500 350) (createVector 0 0) 0 100)
                     (mkKeys false false true false false)) = 0.
Proof.
  destruct (X16_steering (playerAt (createVector 500 350) (createVector 0 0) 0 100)
              (mkKeys false false true false false) eq_refl) as [_ [H _]].
  rewrite H; [reflexivity |].
  unfold PlayerCar.handleInput, playerAt. records. rewrite mag_zero.
  rewrite (proj2 (Rgtb_false_iff 0 0.5)) by lra. records. rewrite mag_zero. lra.
Defined.

(** ** The separation forces of an opponent *)

Lemma mag_div (a : Vector) (d : R) : d <> 0 -> p5.mag (p5.div a d) = p5.mag a / Rabs d.
Proof.
  intros Hd. unfold p5.div. rewrite (Reqb_neq _ _ Hd).
  replace (createVector (vx a / d) (vy a / d)) with (p5.mult a (1 / d))
    by (apply Vector_eq; simpl; field; exact Hd).
  rewrite mag_mult. unfold Rdiv at 1. rewrite Rmult_1_l, Rabs_inv. reflexivity.
Qed.

Lemma dist_sym (a b : Vector) : p5.dist a b = p5.dist b a.
Proof.
  unfold p5.dist, p5.mag, p5.magSq, p5.sub. simpl. f_equal. ring.
Qed.

(** X17: [avoidCar] pushes an opponent away from a car in range with a
    force of magnitude 1 over the distance, along the line between the
    two: the closer the car, the stronger the push, from 0.02 at the edge
    of the range up.  Out of range, and on top of the car, the force is
    zero. *)
Theorem X17_avoidCar (f : FollowerCar.t) (car : Vector) :
  (inRange (FollowerCar.position f) car = true ->
   FollowerCar.avoidCar f car
   = p5.mult (p5.sub (FollowerCar.position f) car)
       (1 / (p5.dist (FollowerCar.position f) car * p5.dist (FollowerCar.position f) car))
   /\ p5.mag (FollowerCar.avoidCar f car) = 1 / p5.dist (FollowerCar.position f) car
   /\ 0.02 < p5.mag (FollowerCar.avoidCar f car))
  /\ (inRange (FollowerCar.position f) car = false ->
      FollowerCar.avoidCar f car = createVector 0 0).
Proof.
  unfold FollowerCar.avoidCar, inRange. cbv zeta.
  set (d := p5.dist (FollowerCar.position f) car).
  split; intros H; rewrite H; [| reflexivity].
  apply andb_true_iff in H. destruct H as [H0 H1].
  apply Rgtb_true_iff in H0. apply Rltb_true_iff in H1.
  unfold FollowerCar.desiredSeparation in H1.
  assert (Hm : p5.mag (p5.sub (FollowerCar.position f) car) = d).
  { unfold d. rewrite dist_sym. reflexivity. }
  assert (Hmag : p5.mag (p5.div (p5.normalize (p5.sub (FollowerCar.position f) car)) d)
                 = 1 / d).
  { rewrite mag_div by lra. rewrite mag_normalize by (rewrite Hm; lra).
    rewrite Rabs_of_pos by lra. reflexivity. }
  split; [| split; [exact Hmag |]].
  - unfold p5.normalize. rewrite Hm. rewrite (Reqb_neq d 0) by lra.
    unfold p5.div. rewrite (Reqb_neq d 0) by lra.
    apply Vector_eq; simpl; field; lra.
  - rewrite Hmag.
    assert (1 / 50 < 1 / d).
    { unfold Rdiv. rewrite !Rmult_1_l. apply Rinv_lt_contravar; nra. }
    lra.
Qed.

Lemma inRange_on_row (x c y : R) :
  0 < Rabs (c - x) < 50 -> inRange (createVector x y) (createVector c y) = true.
Proof.
  intros H. unfold inRange, FollowerCar.desiredSeparation. rewrite dist_on_row.
  apply andb_true_iff. split; [apply Rgtb_true_iff | apply Rltb_true_iff]; lra.
Qed.

Lemma X17_avoidCar_witness :
  p5.mag (FollowerCar.avoidCar (followerAt (createVector 500 350) (createVector 0 0) 0)
            (createVector 510 350))
  = 1 / p5.dist (createVector 500 350) (createVector 510 350).
Proof.
  apply (X17_avoidCar (followerAt (createVector 500 350) (createVector 0 0) 0)
           (createVector 510 350)).
  apply inRange_on_row. rewrite Rabs_of_pos; lra.
Defined.

(** The loop of [separate] adds nothing for the cars out of range. *)
Lemma separate_loop_alone (f : FollowerCar.t) (self : nat) (vehicles : list FollowerCar.t) :
  forall i steer count,
    (forall j other, nth_error vehicles j = Some other -> (i + j)%nat <> self ->
       inRange (FollowerCar.position f) (FollowerCar.position other) = false) ->
    FollowerCar.separate_loop f self vehicles i steer count = (steer, count).
Proof.
  induction vehicles as [| other rest IH]; intros i steer count H; [reflexivity |].
  cbn [FollowerCar.separate_loop].
  assert (Hrest : forall j o, nth_error rest j = Some o -> (S i + j)%nat <> self ->
            inRange (FollowerCar.position f) (FollowerCar.position o) = false).
  { intros j o Hj Hne. apply (H (S j) o Hj). lia. }
  destruct (i =? self)%nat eqn:E.
  - now apply IH.
  - apply Nat.eqb_neq in E.
    assert (Ho := H 0%nat other eq_refl ltac:(lia)). unfold inRange in Ho.
    cbv zeta. rewrite Ho. now apply IH.
Qed.

(** X18: the separation force of an opponent is at most twice its
    steering force, however many cars crowd it; and it is zero when every
    other car of the array is out of range, at 50 or more away or on the
    same spot.  The car itself is skipped by its index. *)
Theorem X18_separate (f : FollowerCar.t) (self : nat) (vehicles : list FollowerCar.t) :
  0 <= FollowerCar.maxforce f ->
  p5.mag (FollowerCar.separate f self vehicles) <= FollowerCar.maxforce f * 2
  /\ ((forall j other, nth_error vehicles j = Some other -> j <> self ->
         inRange (FollowerCar.position f) (FollowerCar.position other) = false) ->
      FollowerCar.separate f self vehicles = createVector 0 0).
Proof.
  intros Hm. unfold FollowerCar.separate. split.
  - destruct (FollowerCar.separate_loop f self vehicles 0 (createVector 0 0) 0)
      as [steer count].
    cbv zeta.
    set (s := if (0 <? count)%nat then p5.div steer (INR count) else steer).
    destruct (Rgtb (p5.mag s) 0) eqn:E.
    + apply mag_limit. lra.
    + apply Rgtb_false_iff in E. lra.
  - intros H. rewrite (separate_loop_alone f self vehicles 0 (createVector 0 0) 0 H).
    cbv zeta. change (0 <? 0)%nat with false. cbv iota.
    rewrite mag_zero. now rewrite (proj2 (Rgtb_false_iff 0 0)) by lra.
Qed.

Lemma X18_separate_witness :
  FollowerCar.separate (followerAt (createVector 500 350) (createVector 0 0) 0) 0
    [followerAt (createVector 500 350) (createVector 0 0) 0;
     followerAt (createVector 500 350) (createVector 0 0) 1]
  = createVector 0 0.
Proof.
  apply X18_separate.
  - unfold followerAt. records. lra.
  - intros j other Hj Hne.
    destruct j as [| [| j]]; [now elim Hne | | now destruct j].
    inversion Hj; subst other. unfold inRange, followerAt. records.
    rewrite dist_same. now rewrite (proj2 (Rgtb_false_iff 0 0)) by lra.
Defined.

(** ** The ranking *)

Lemma insertRacer_perm (x : Racer) (l : list Racer) : Permutation (x :: l) (insertRacer x l).
Proof.
  induction l as [| y rest IH]; simpl; [apply Permutation_refl |].
  destruct (r_progress y <=? r_progress x)%nat; [apply Permutation_refl |].
  eapply Permutation_trans; [apply perm_swap |]. now apply perm_skip.
Qed.

Lemma sortRacers_perm (l : list Racer) : Permutation l (sortRacers l).
Proof.
  induction l as [| x rest IH]; simpl; [constructor |].
  eapply Permutation_trans; [| apply insertRacer_perm]. now apply perm_skip.
Qed.

Lemma insertRacer_sorted (x : Racer) (l : list Racer) :
  StronglySorted byProgress l -> StronglySorted byProgress (insertRacer x l).
Proof.
  induction l as [| y rest IH]; intros Hs; simpl.
  - constructor; constructor.
  - inversion Hs as [| ? ? Hrest Hall]; subst.
    destruct (r_progress y <=? r_progress x)%nat eqn:E.
    + apply Nat.leb_le in E. constructor; [exact Hs |].
      constructor; [exact E |].
      eapply Forall_impl; [| exact Hall]. unfold byProgress. intros; lia.
    + apply Nat.leb_gt in E. constructor; [now apply IH |].
      apply (Permutation_Forall (insertRacer_perm x rest)).
      constructor; [unfold byProgress; lia | exact Hall].
Qed.

Lemma sortRacers_sorted (l : list Racer) : StronglySorted byProgress (sortRacers l).
Proof.
  induction l as [| x rest IH]; simpl; [constructor |]. now apply insertRacer_sorted.
Qed.

Lemma countAbove_perm (n : nat) (l l' : list Racer) :
  Permutation l l' -> countAbove n l = countAbove n l'.
Proof.
  intros H. unfold countAbove. induction H; simpl.
  - reflexivity.
  - destruct (n <? r_progress x)%nat; simpl; congruence.
  - destruct (n <? r_progress x)%nat, (n <? r_progress y)%nat; reflexivity.
  - congruence.
Qed.

Lemma countAbove_zero (n : nat) (l : list Racer) :
  Forall (fun z => (r_progress z <= n)%nat) l -> countAbove n l = 0%nat.
Proof.
  unfold countAbove. induction 1 as [| z rest Hz _ IH]; simpl; [reflexivity |].
  now rewrite (proj2 (Nat.ltb_ge _ _) Hz).
Qed.

Lemma findPlayer_insert (x : Racer) (l : list Racer) :
  r_type x = racer_player ->
  Forall isAI l -> StronglySorted byProgress l ->
  forall i, findPlayer (insertRacer x l) i = Some (i + countAbove (r_progress x) l + 1)%nat.
Proof.
  intros Hx. induction l as [| y rest IH]; intros Hai Hs i; simpl.
  - rewrite Hx. f_equal. unfold countAbove. simpl. lia.
  - inversion Hai as [| ? ? Hy Hrest]; subst.
    inversion Hs as [| ? ? Hsr Hall]; subst.
    destruct (r_progress y <=? r_progress x)%nat eqn:E.
    + apply Nat.leb_le in E. simpl. rewrite Hx. f_equal.
      rewrite (countAbove_zero (r_progress x) (y :: rest)); [lia |].
      constructor; [exact E |].
      eapply Forall_impl; [| exact Hall]. unfold byProgress. intros; lia.
    + apply Nat.leb_gt in E. simpl.
      unfold isAI in Hy. destruct (r_type y); [now elim Hy |].
      rewrite (IH Hrest Hsr). f_equal.
      unfold countAbove. simpl. rewrite (proj2 (Nat.ltb_lt _ _) E). simpl. lia.
Qed.

Lemma aiRacers_isAI (tr : Track.t) (cars : list FollowerCar.t) (i : nat) :
  Forall isAI (aiRacers tr cars i).
Proof.
  revert i. induction cars as [| ai rest IH]; intros i; simpl; constructor.
  - exact I.
  - apply IH.
Qed.

Lemma aiRacers_countAbove (tr : Track.t) (n : nat) (cars : list FollowerCar.t) (i : nat) :
  countAbove n (aiRacers tr cars i)
  = length (filter (fun ai => (n <? aiProgress tr ai)%nat) cars).
Proof.
  revert i. unfold countAbove. induction cars as [| ai rest IH]; intros i; simpl;
    [reflexivity |].
  destruct (n <? aiProgress tr ai)%nat; simpl; now rewrite IH.
Qed.

Lemma aiRacers_length (tr : Track.t) (cars : list FollowerCar.t) (i : nat) :
  length (aiRacers tr cars i) = length cars.
Proof.
  revert i. induction cars as [| ai rest IH]; intros i; simpl; [reflexivity |].
  now rewrite IH.
Qed.

(** X19: [updateRacePositions] ranks every racer once, in the order of
    decreasing progress, and always finds the player.  The position of the
    player is one more than the number of opponents with strictly more
    progress: an opponent level with the player is ranked behind, the
    player being first in the array and the sort stable.  So the position
    lies between 1 and the number of cars, and the old position is never
    kept. *)
Theorem X19_ranking (g : Game) (playerPosition : nat) :
  Permutation (racers g) (fst (updateRacePositions g playerPosition))
  /\ StronglySorted byProgress (fst (updateRacePositions g playerPosition))
  /\ snd (updateRacePositions g playerPosition) = (aheadOfPlayer g + 1)%nat
  /\ (1 <= snd (updateRacePositions g playerPosition) <= length (aiCars g) + 1)%nat.
Proof.
  unfold updateRacePositions. cbn [fst snd].
  assert (Hpos : findPlayer (sortRacers (racers g)) 0 = Some (aheadOfPlayer g + 1)%nat).
  { unfold racers. cbn [sortRacers].
    rewrite findPlayer_insert;
      [| reflexivity
       | apply (Permutation_Forall (sortRacers_perm _)), aiRacers_isAI
       | apply sortRacers_sorted].
    f_equal. cbn [r_progress Nat.add].
    rewrite <- (countAbove_perm _ _ _ (sortRacers_perm _)).
    rewrite aiRacers_countAbove. reflexivity. }
  rewrite Hpos.
  split; [apply sortRacers_perm |]. split; [apply sortRacers_sorted |].
  split; [reflexivity |].
  unfold aheadOfPlayer.
  pose proof (filter_length_le
                (fun ai => (playerProgress (track g) (playerCar g) <? aiProgress (track g) ai)%nat)
                (aiCars g)).
  lia.
Qed.

(** ** A whole race *)

Ltac boundary Hne :=
  match goal with
  | |- context [Track.getTrackBoundaryForce ?tr ?a ?b] =>
      let F := fresh "F" in
      let HF := fresh "HF" in
      destruct (boundary_total tr a b Hne) as [F HF]; rewrite HF
  end.

Lemma handleAutoPilot_total (p : PlayerCar.t) (tr : Track.t) :
  PlayerCar.track p = Some tr -> Track.waypoints tr <> [] ->
  exists q, PlayerCar.handleAutoPilot p = Some q.
Proof.
  intros Ht Hne. unfold PlayerCar.handleAutoPilot. rewrite Ht.
  assert (Hn : length (Track.waypoints tr) <> 0%nat)
    by (destruct (Track.waypoints tr); [contradiction | discriminate]).
  rewrite (proj2 (Nat.eqb_neq _ _) Hn).
  pose proof (Nat.mod_upper_bound (PlayerCar.lastCheckpoint p + 1) _ Hn) as Hlt.
  apply nth_error_Some in Hlt.
  destruct (nth_error _ _) as [wp |]; [| contradiction].
  cbv beta iota zeta delta [bind]. boundary Hne.
  break_if; eexists; reflexivity.
Qed.

Lemma integrate_total (p : PlayerCar.t) (k : Keys) (tr : Track.t) :
  PlayerCar.track p = Some tr -> Track.waypoints tr <> [] ->
  exists q, PlayerCar.integrate p k = Some q.
Proof.
  intros Ht Hne. unfold PlayerCar.integrate.
  destruct (PlayerCar.autoMode p).
  - destruct (handleAutoPilot_total p tr Ht Hne) as [q Hq]. rewrite Hq.
    eexists. reflexivity.
  - eexists. reflexivity.
Qed.

Lemma handleBoundary_total (p : PlayerCar.t) (tr : Track.t) :
  PlayerCar.track p = Some tr -> Track.waypoints tr <> [] ->
  exists q, PlayerCar.handleBoundary p = Some q.
Proof.
  intros Ht Hne. unfold PlayerCar.handleBoundary. rewrite Ht. boundary Hne.
  cbv beta iota zeta delta [bind]. break_if; eexists; reflexivity.
Qed.

Lemma playerInv_waypoints (tr : Track.t) (p : PlayerCar.t) :
  playerInv tr p -> Track.waypoints tr <> [].
Proof.
  intros [_ [_ H]] E. rewrite E in H. simpl in H. lia.
Qed.

Lemma PlayerCar_update_total (tr : Track.t) (p : PlayerCar.t) (k : Keys) :
  playerInv tr p -> exists p', PlayerCar.update p k = Some p'.
Proof.
  intros Hinv. pose proof (playerInv_waypoints tr p Hinv) as Hne.
  destruct Hinv as [Ht _]. unfold PlayerCar.update.
  destruct (PlayerCar.finished p); [eexists; reflexivity |].
  destruct (integrate_total p k tr Ht Hne) as [q Hq]. rewrite Hq.
  cbv beta iota delta [bind]. unfold PlayerCar.afterIntegration.
  destruct (integrate_race _ _ _ Hq) as [T1 _].
  destruct (handleBoundary_total q tr (eq_trans T1 Ht) Hne) as [q1 Hq1]. rewrite Hq1.
  cbv beta iota delta [bind].
  destruct (handleBoundary_race _ _ Hq1) as [[T2 _] _].
  destruct (handleObstacles_race q1) as [T3 _].
  destruct (checkWaypoints_total (PlayerCar.handleObstacles q1) tr) as [q2 Hq2];
    [congruence | exact Hne |].
  rewrite Hq2. eexists. reflexivity.
Qed.

Lemma PlayerCar_update_inv (tr : Track.t) (p p' : PlayerCar.t) (k : Keys) :
  playerInv tr p -> PlayerCar.update p k = Some p' ->
  playerInv tr p' /\ (playerProgress tr p <= playerProgress tr p')%nat.
Proof.
  intros Hinv H. destruct (PlayerCar.finished p) eqn:Hf.
  - unfold PlayerCar.update in H. rewrite Hf in H. inversion H; subst.
    split; [exact Hinv | lia].
  - destruct (update_race p p' k Hf H) as [q [q' [Hpq [Hc Hq']]]].
    destruct Hpq as [A1 [A2 [A3 [A4 _]]]]. destruct Hq' as [B1 [B2 [B3 [B4 _]]]].
    assert (Hq : playerInv tr q).
    { destruct Hinv as [I1 [I2 I3]]. unfold playerInv. rewrite A1, A3, A4. tauto. }
    destruct (checkWaypoints_progress tr q q' Hq Hc) as [[J1 [J2 J3]] [Hp Hs]].
    unfold playerInv, playerProgress in *.
    rewrite B1, B2, B3, B4. rewrite <- A2, <- A4. tauto.
Qed.

Lemma followerInv_waypoints (tr : Track.t) (f : FollowerCar.t) :
  followerInv tr f -> Track.waypoints tr <> [].
Proof.
  intros [_ [_ [_ H]]] E. rewrite E in H. simpl in H. lia.
Qed.

Lemma followerFrame_total (tr : Track.t) (f : FollowerCar.t) (self : nat)
    (vehicles : list FollowerCar.t) (target : Vector) :
  followerInv tr f -> exists f', followerFrame f self vehicles target = Some f'.
Proof.
  intros Hinv. pose proof (followerInv_waypoints tr f Hinv) as Hne.
  destruct Hinv as [Ht [_ [_ Hl]]].
  unfold followerFrame, FollowerCar.applyBehaviors.
  destruct (FollowerCar.finished f); [eexists; reflexivity |].
  destruct (followPath_total f tr Ht Hl) as [g [F Hg]]. rewrite Hg.
  cbv beta iota zeta delta [bind].
  destruct (followPath_cases f g F tr Ht Hg) as [Htg _].
  unfold FollowerCar.avoidBoundary. rewrite Htg. boundary Hne.
  eexists. reflexivity.
Qed.

Lemma followerFrame_inv (tr : Track.t) (f f' : FollowerCar.t) (self : nat)
    (vehicles : list FollowerCar.t) (target : Vector) :
  followerInv tr f -> followerFrame f self vehicles target = Some f' ->
  followerInv tr f' /\ (aiProgress tr f <= aiProgress tr f')%nat.
Proof.
  intros Hinv H. unfold followerFrame in H. break_bind.
  inversion H; subst; clear H.
  pose proof (FollowerCar_update_counters t) as [U1 [U2 [U3 [U4 [U5 _]]]]].
  destruct (FollowerCar.finished f) eqn:Hf.
  - unfold FollowerCar.applyBehaviors in E. rewrite Hf in E. inversion E; subst.
    unfold followerInv, aiProgress in *. rewrite U1, U2, U3, U4, U5.
    split; [exact Hinv | lia].
  - destruct (applyBehaviors_follows f t self vehicles target Hf E)
      as [h [F [Hfp [G1 [G2 [G3 [G4 [G5 _]]]]]]]].
    destruct (followPath_progress tr f h F Hinv Hfp) as [[J1 [J2 [J3 J4]]] [_ [_ [Hp Hs]]]].
    unfold followerInv, aiProgress in *.
    rewrite U1, U2, U3, U4, U5, G1, G2, G3, G4, G5. tauto.
Qed.

Lemma replace_at_Forall {A : Type} (P : A -> Prop) (l : list A) (i : nat) (a : A) :
  Forall P l -> P a -> Forall P (replace_at l i a).
Proof.
  intros Hl Ha. revert i. induction Hl as [| x rest Hx Hrest IH]; intros i; simpl.
  - destruct i; constructor.
  - destruct i; constructor; auto.
Qed.

Lemma replace_at_length {A : Type} (l : list A) (i : nat) (a : A) :
  length (replace_at l i a) = length l.
Proof.
  revert i. induction l as [| x rest IH]; intros i; simpl; [now destruct i |].
  destruct i; simpl; [reflexivity | now rewrite IH].
Qed.

Lemma replace_at_Forall2 {A : Type} (R : A -> A -> Prop) (l : list A) (i : nat) (x a : A) :
  (forall y, R y y) -> nth_error l i = Some x -> R x a ->
  Forall2 R l (replace_at l i a).
Proof.
  intros Hrefl. revert i. induction l as [| y rest IH]; intros i Hi Hxa.
  - destruct i; discriminate Hi.
  - destruct i; simpl in *.
    + inversion Hi; subst. constructor; [exact Hxa |].
      clear - Hrefl. induction rest; constructor; auto.
    + constructor; [apply Hrefl | now apply IH].
Qed.

Lemma Forall2_le_trans {A : Type} (m : A -> nat) (l1 l2 l3 : list A) :
  Forall2 (fun a b => (m a <= m b)%nat) l1 l2 ->
  Forall2 (fun a b => (m a <= m b)%nat) l2 l3 ->
  Forall2 (fun a b => (m a <= m b)%nat) l1 l3.
Proof.
  intros H. revert l3. induction H as [| a b r1 r2 Hab _ IH]; intros l3 H3.
  - inversion H3. constructor.
  - inversion H3; subst. constructor; [lia | now apply IH].
Qed.

Lemma Forall2_le_refl {A : Type} (m : A -> nat) (l : list A) :
  Forall2 (fun a b => (m a <= m b)%nat) l l.
Proof. induction l; constructor; auto. Qed.

Lemma updateAI_ok (tr : Track.t) (player : PlayerCar.t) (todo : nat) :
  forall i cars,
    Forall (followerInv tr) cars -> (i + todo = length cars)%nat ->
    exists cars',
      updateAI cars player i todo = Some cars'
      /\ Forall (followerInv tr) cars'
      /\ Forall2 (fun a a' => (aiProgress tr a <= aiProgress tr a')%nat) cars cars'.
Proof.
  induction todo as [| todo IH]; intros i cars Hall Hlen.
  - exists cars. split; [reflexivity |]. split; [exact Hall | apply Forall2_le_refl].
  - cbn [updateAI].
    assert (Hi : (i < length cars)%nat) by lia.
    apply nth_error_Some in Hi.
    destruct (nth_error cars i) as [ai |] eqn:Eai; [clear Hi | contradiction].
    cbv beta iota delta [bind].
    assert (Hai : followerInv tr ai).
    { apply (proj1 (Forall_forall _ _) Hall). eapply nth_error_In. exact Eai. }
    destruct (followerFrame_total tr ai i cars (PlayerCar.position player) Hai)
      as [ai' Hfr].
    destruct (followerFrame_inv tr ai ai' i cars (PlayerCar.position player) Hai Hfr)
      as [Hinv' Hprog].
    unfold followerFrame in Hfr.
    destruct (FollowerCar.applyBehaviors ai i cars (PlayerCar.position player))
      as [b |]; [| discriminate Hfr].
    cbv beta iota delta [bind] in Hfr |- *. inversion Hfr; subst ai'; clear Hfr.
    destruct (IH (S i) (replace_at cars i (FollowerCar.update b)))
      as [cars' [Hu [Hall' Hle]]].
    + now apply replace_at_Forall.
    + rewrite replace_at_length. lia.
    + exists cars'. split; [exact Hu |]. split; [exact Hall' |].
      eapply Forall2_le_trans; [| exact Hle].
      apply (replace_at_Forall2 _ cars i ai); [intros; lia | exact Eai | exact Hprog].
Qed.

Lemma checkRaceFinished_ai_keeps (g : Game) (cars : list FollowerCar.t) :
  track (checkRaceFinished_ai g cars) = track g
  /\ currentLevel (checkRaceFinished_ai g cars) = currentLevel g
  /\ unlockedLevel (checkRaceFinished_ai g cars) = unlockedLevel g.
Proof.
  induction cars as [| ai rest IH]; [repeat split |].
  rewrite checkRaceFinished_ai_cons. break_if; [repeat split | exact IH].
Qed.

Lemma unlockLevel_max (unlocked level : Z) : unlockLevel unlocked level = Z.max unlocked level.
Proof.
  unfold unlockLevel. destruct (Z.gtb_spec level unlocked); lia.
Qed.

Lemma checkRaceFinished_keeps (g : Game) :
  track (checkRaceFinished g) = track g
  /\ currentLevel (checkRaceFinished g) = currentLevel g
  /\ aiCars (checkRaceFinished g) = aiCars g
  /\ (unlockedLevel g <= unlockedLevel (checkRaceFinished g))%Z
  /\ (playerCar (checkRaceFinished g) = playerCar g
      \/ playerCar (checkRaceFinished g) = PlayerCar.set_finished (playerCar g) true).
Proof.
  unfold checkRaceFinished. break_if.
  - cbn [track currentLevel aiCars unlockedLevel playerCar].
    rewrite unlockLevel_max. repeat split; [lia | now right].
  - destruct (checkRaceFinished_ai_keeps g (aiCars g)) as [H1 [H2 H3]].
    destruct (checkRaceFinished_ai_cars g (aiCars g)) as [H4 H5].
    rewrite H1, H2, H3, H4, H5. repeat split; [lia | now left].
Qed.

Lemma draw_ok (g : Game) (k : Keys) :
  raceInv g -> exists g', draw g k = Some g' /\ raceInv g' /\ progressed g g'.
Proof.
  intros [Hp Hai].
  assert (Hsame : raceInv g /\ progressed g g).
  { split; [split; assumption |]. unfold progressed.
    repeat split; try lia. apply Forall2_le_refl. }
  unfold draw. destruct (gameState g); try (exists g; split; [reflexivity | exact Hsame]).
  clear Hsame. unfold updateGame.
  destruct (PlayerCar_update_total (track g) (playerCar g) k Hp) as [p' Hp'].
  destruct (PlayerCar_update_inv (track g) (playerCar g) p' k Hp Hp') as [Hinv' Hprog].
  rewrite Hp'. cbv beta iota delta [bind].
  destruct (updateAI_ok (track g) p' (length (aiCars g)) 0 (aiCars g) Hai eq_refl)
    as [cars' [Hu [Hall' Hle]]].
  rewrite Hu. cbv beta iota delta [bind].
  set (g0 := mkGame (gameState g) (currentLevel g) (track g) p' cars'
               (raceFinished g) (winner g) (unlockedLevel g)).
  destruct (checkRaceFinished_keeps g0) as [K1 [K2 [K3 [K4 K5]]]].
  exists (checkRaceFinished g0). split; [reflexivity |].
  assert (Hpl : playerInv (track g) (playerCar (checkRaceFinished g0))
                /\ (playerProgress (track g) (playerCar g)
                    <= playerProgress (track g) (playerCar (checkRaceFinished g0)))%nat).
  { destruct K5 as [K5 | K5]; rewrite K5; split; assumption. }
  destruct Hpl as [Hpl1 Hpl2].
  unfold raceInv, progressed. rewrite K1, K2, K3.
  split; [split; assumption |].
  split; [reflexivity |]. split; [reflexivity |]. split; [exact K4 |].
  split; assumption.
Qed.

Lemma progressed_trans (g1 g2 g3 : Game) :
  progressed g1 g2 -> progressed g2 g3 -> progressed g1 g3.
Proof.
  intros [A1 [A2 [A3 [A4 A5]]]] [B1 [B2 [B3 [B4 B5]]]]. rewrite A1 in *.
  unfold progressed. split; [congruence |]. split; [congruence |].
  split; [lia |]. split; [lia |].
  eapply (Forall2_le_trans (aiProgress (track g1))); eassumption.
Qed.

Lemma frames_ok (ks : list Keys) :
  forall g, raceInv g -> exists g', frames g ks = Some g' /\ raceInv g' /\ progressed g g'.
Proof.
  induction ks as [| k rest IH]; intros g Hinv.
  - exists g. split; [reflexivity |]. split; [exact Hinv |].
    unfold progressed. repeat split; try lia. apply Forall2_le_refl.
  - destruct (draw_ok g k Hinv) as [g1 [Hd [Hinv1 Hpr1]]].
    destruct (IH g1 Hinv1) as [g2 [Hf [Hinv2 Hpr2]]].
    exists g2. cbn [frames]. rewrite Hd. cbv beta iota delta [bind].
    split; [exact Hf |]. split; [exact Hinv2 |].
    eapply progressed_trans; eassumption.
Qed.

(** X20: a race never throws.  From a state in which the player and
    every opponent drive on the track of the game with their counters in
    order, as [initLevel] leaves them, every run of frames, whatever the
    keys, produces a state, and that state is again in order.  Along the
    run the track and the level stay the same, the unlocked level never
    goes down, and neither the player nor any opponent loses progress. *)
Theorem X20_race (g : Game) (ks : list Keys) :
  raceInv g ->
  exists g', frames g ks = Some g' /\ raceInv g' /\ progressed g g'.
Proof.
  apply frames_ok.
Qed.

Lemma X20_race_witness :
  exists g', frames lastFrame [noKeys; noKeys] = Some g'
             /\ (1 <= playerProgress centreTrack (playerCar g'))%nat.
Proof.
  destruct (X20_race lastFrame [noKeys; noKeys]) as [g' [Hf [_ [_ [_ [_ [Hp _]]]]]]].
  - unfold raceInv, lastFrame, playerInv, followerInv, playerAt, followerAt, centreTrack.
    cbn. repeat split; try lia. constructor; [| constructor].
    cbn. repeat split; lia.
  - exists g'. split; [exact Hf |]. exact Hp.
Defined.

(** X21: the verdict of [checkRaceFinished] on a race not yet decided.
    The player is checked first and so wins a tie: with the laps to win
    the player is the winner whatever the opponents have, is flagged
    finished, and the next level is unlocked if it was not; the game is
    over at the last level and the level complete below it.  Otherwise the
    first opponent with the laps to win makes the race lost: nothing is
    unlocked and no car is flagged finished.  With nobody at the laps to
    win, and once the race is decided, nothing changes. *)
Theorem X21_verdict (g : Game) :
  (raceFinished g = false ->
   (LAPS_TO_WIN <= PlayerCar.laps (playerCar g))%nat ->
   checkRaceFinished g
   = mkGame (if (currentLevel g >=? MAX_LEVEL)%Z then gameOver else levelComplete)
       (currentLevel g) (track g) (PlayerCar.set_finished (playerCar g) true) (aiCars g)
       true (Some winner_player) (Z.max (unlockedLevel g) (currentLevel g + 1)))
  /\ (raceFinished g = false ->
      (PlayerCar.laps (playerCar g) < LAPS_TO_WIN)%nat ->
      (exists ai, In ai (aiCars g) /\ (LAPS_TO_WIN <= FollowerCar.laps ai)%nat) ->
      checkRaceFinished g
      = mkGame raceLost (currentLevel g) (track g) (playerCar g) (aiCars g)
          true (Some winner_ai) (unlockedLevel g))
  /\ (raceFinished g = true \/ ~ someoneFinished g -> checkRaceFinished g = g).
Proof.
  assert (Hloop : forall cars,
            raceFinished g = false ->
            (exists ai, In ai cars /\ (LAPS_TO_WIN <= FollowerCar.laps ai)%nat) ->
            checkRaceFinished_ai g cars
            = mkGame raceLost (currentLevel g) (track g) (playerCar g) (aiCars g)
                true (Some winner_ai) (unlockedLevel g)).
  { intros cars Hr. induction cars as [| ai rest IH]; intros [a [Hin Hl]].
    - destruct Hin.
    - rewrite checkRaceFinished_ai_cons, Hr. cbv [negb]. rewrite andb_true_r.
      destruct (LAPS_TO_WIN <=? FollowerCar.laps ai)%nat eqn:E; [reflexivity |].
      apply IH. destruct Hin as [-> | Hin].
      + apply Nat.leb_gt in E. lia.
      + exists a. split; assumption. }
  assert (Hnone : forall cars,
            (raceFinished g = true
             \/ ~ exists ai, In ai cars /\ (LAPS_TO_WIN <= FollowerCar.laps ai)%nat) ->
            checkRaceFinished_ai g cars = g).
  { intros cars. induction cars as [| ai rest IH]; intros H; [reflexivity |].
    rewrite checkRaceFinished_ai_cons.
    destruct H as [Hr | Hno].
    - rewrite Hr. cbv [negb]. rewrite andb_false_r. apply IH. now left.
    - destruct (LAPS_TO_WIN <=? FollowerCar.laps ai)%nat eqn:E.
      + apply Nat.leb_le in E. exfalso. apply Hno. exists ai. split; [now left | exact E].
      + cbv [andb]. apply IH. right. intros [a [Hin Hl]]. apply Hno.
        exists a. split; [now right | exact Hl]. }
  unfold checkRaceFinished. split; [| split].
  - intros Hr Hl. rewrite Hr, (proj2 (Nat.leb_le _ _) Hl). cbv [negb andb].
    now rewrite unlockLevel_max.
  - intros Hr Hl Hex. rewrite Hr, (proj2 (Nat.leb_gt _ _) Hl). cbv [andb].
    now apply Hloop.
  - intros [Hr | Hno].
    + rewrite Hr. cbv [negb]. rewrite andb_false_r. apply Hnone. now left.
    + destruct (LAPS_TO_WIN <=? PlayerCar.laps (playerCar g))%nat eqn:E.
      * apply Nat.leb_le in E. exfalso. apply Hno. now left.
      * cbv [andb]. apply Hnone. right. intros Hex. apply Hno. now right.
Qed.

Lemma X21_verdict_witness :
  checkRaceFinished
    (mkGame playing 10 centreTrack
       (playerAt (createVector 500 350) (createVector 0 0) 2 100)
       [followerAt (createVector 500 350) (createVector 0 0) 2] false None 4)
  = mkGame gameOver 10 centreTrack
      (PlayerCar.set_finished (playerAt (createVector 500 350) (createVector 0 0) 2 100) true)
      [followerAt (createVector 500 350) (createVector 0 0) 2] true (Some winner_player) 11.
Proof.
  apply (X21_verdict
           (mkGame playing 10 centreTrack
              (playerAt (createVector 500 350) (createVector 0 0) 2 100)
              [followerAt (createVector 500 350) (createVector 0 0) 2] false None 4)).
  - reflexivity.
  - cbn. unfold LAPS_TO_WIN. lia.
Defined.

(** ** The leader car *)



(** ** The level menu *)

Lemma Rleb_true_iff (x y : R) : Rleb x y = true <-> x <= y.
Proof. unfold Rleb. apply Rgeb_true_iff. Qed.

Lemma onCard_bounds (s : LevelSelect.t) (mx my : R) (i : nat) :
  LevelSelect.onCard s mx my i = true ->
  LevelSelect.startX s + INR (i mod 5) * 180 <= mx
     <= LevelSelect.startX s + INR (i mod 5) * 180 + 160
  /\ LevelSelect.startY s + INR (i / 5) * 140 <= my
     <= LevelSelect.startY s + INR (i / 5) * 140 + 120.
Proof.
  unfold LevelSelect.onCard, LevelSelect.cols, LevelSelect.cardWidth,
    LevelSelect.cardHeight, LevelSelect.padding.
  cbv zeta. intros H.
  apply andb_true_iff in H. destruct H as [H H4].
  apply andb_true_iff in H. destruct H as [H H3].
  apply andb_true_iff in H. destruct H as [H1 H2].
  apply Rgeb_true_iff in H1, H3. apply Rleb_true_iff in H2, H4. lra.
Qed.

Lemma INR_apart (a b : nat) : (a < b)%nat -> INR a + 1 <= INR b.
Proof.
  intros H. rewrite <- S_INR. apply le_INR. lia.
Qed.

(** The cards do not overlap: a point is on one card at most. *)
Lemma onCard_unique (s : LevelSelect.t) (mx my : R) (i j : nat) :
  LevelSelect.onCard s mx my i = true -> LevelSelect.onCard s mx my j = true -> i = j.
Proof.
  intros Hi Hj.
  apply onCard_bounds in Hi, Hj. destruct Hi as [Xi Yi]. destruct Hj as [Xj Yj].
  assert (Hc : (i mod 5 = j mod 5)%nat).
  { destruct (Nat.lt_trichotomy (i mod 5) (j mod 5)) as [L | [E | L]];
      [| exact E |]; apply INR_apart in L; lra. }
  assert (Hr : (i / 5 = j / 5)%nat).
  { destruct (Nat.lt_trichotomy (i / 5) (j / 5)) as [L | [E | L]];
      [| exact E |]; apply INR_apart in L; lra. }
  rewrite (Nat.div_mod_eq i 5), (Nat.div_mod_eq j 5). now rewrite Hc, Hr.
Qed.

Lemma firstCard_hit (s : LevelSelect.t) (mx my : R) (k : nat) :
  LevelSelect.onCard s mx my k = true ->
  forall todo i, (i <= k < i + todo)%nat ->
    LevelSelect.firstCard s mx my i todo = Some (Z.of_nat k + 1)%Z.
Proof.
  intros Hk. induction todo as [| todo IH]; intros i Hi; [lia |].
  cbn [LevelSelect.firstCard].
  destruct (LevelSelect.onCard s mx my i) eqn:E.
  - now rewrite (onCard_unique s mx my i k E Hk).
  - apply IH. assert (i <> k) by (intros ->; congruence). lia.
Qed.

Lemma firstCard_miss (s : LevelSelect.t) (mx my : R) :
  forall todo i,
    (forall j, (i <= j < i + todo)%nat -> LevelSelect.onCard s mx my j = false) ->
    LevelSelect.firstCard s mx my i todo = None.
Proof.
  induction todo as [| todo IH]; intros i H; [reflexivity |].
  cbn [LevelSelect.firstCard]. rewrite (H i) by lia. apply IH.
  intros j Hj. apply H. lia.
Qed.

(** X23: a click in the level menu.  The cards do not overlap, so a
    click on the card of a level selects that level and returns it, and a
    click on no card returns -1 and selects nothing; the card the mouse
    hovers over is the one a click would select.  The unlocked level is
    not touched.  In [mousePressed] the click has already selected the
    level when the selection is compared with it, so the comparison never
    fails: a single click on the card of an unlocked level starts it, and
    no click starts a locked one. *)
Theorem X23_level_click (s : LevelSelect.t) (mx my : R) :
  LevelSelect.hoveredLevel (LevelSelect.handleMouseMove s mx my)
    = snd (LevelSelect.handleClick s mx my)
  /\ LevelSelect.unlockedLevel (fst (LevelSelect.handleClick s mx my))
     = LevelSelect.unlockedLevel s
  /\ (forall i, (i < 10)%nat -> LevelSelect.onCard s mx my i = true ->
        LevelSelect.handleClick s mx my
        = (LevelSelect.mk (LevelSelect.unlockedLevel s) (Z.of_nat i + 1)
             (LevelSelect.hoveredLevel s) (LevelSelect.startX s) (LevelSelect.startY s),
           (Z.of_nat i + 1)%Z))
  /\ ((forall i, (i < 10)%nat -> LevelSelect.onCard s mx my i = false) ->
      LevelSelect.handleClick s mx my = (s, (-1)%Z))
  /\ snd (mousePressed_levelSelect s mx my)
     = (if (0 <? snd (LevelSelect.handleClick s mx my))%Z
           && (snd (LevelSelect.handleClick s mx my) <=? LevelSelect.unlockedLevel s)%Z
        then Some (snd (LevelSelect.handleClick s mx my))
        else None).
Proof.
  unfold mousePressed_levelSelect, LevelSelect.handleClick, LevelSelect.handleMouseMove.
  split; [destruct (LevelSelect.firstCard s mx my 0 10); reflexivity |].
  split; [destruct (LevelSelect.firstCard s mx my 0 10); reflexivity |].
  split; [| split].
  - intros i Hi Hon. rewrite (firstCard_hit s mx my i Hon 10 0) by lia. reflexivity.
  - intros Hno. rewrite (firstCard_miss s mx my 10 0); [reflexivity |].
    intros j Hj. apply Hno. lia.
  - destruct (LevelSelect.firstCard s mx my 0 10) as [level |];
      cbn [fst snd LevelSelect.unlockedLevel LevelSelect.selectedLevel].
    + rewrite Z.eqb_refl, Z.gtb_ltb. now destruct (_ && _).
    + reflexivity.
Qed.

Lemma X23_level_click_witness :
  LevelSelect.handleClick menu3 100 300
  = (LevelSelect.mk 3 1 (-1) (LevelSelect.startX menu3) (LevelSelect.startY menu3), 1%Z).
Proof.
  destruct (X23_level_click menu3 100 300) as [_ [_ [H _]]].
  apply (H 0%nat); [lia |].
  unfold LevelSelect.onCard, menu3, LevelSelect.calculateLayout, LevelSelect.cols,
    LevelSelect.rows, LevelSelect.cardWidth, LevelSelect.cardHeight, LevelSelect.padding,
    width, height.
  cbn [LevelSelect.startX LevelSelect.startY Nat.modulo Nat.div Nat.divmod fst snd Nat.sub].
  rewrite !INR_IZR_INZ. cbn [Z.of_nat Pos.of_succ_nat Pos.succ].
  apply andb_true_iff. split; [apply andb_true_iff; split;
                               [apply andb_true_iff; split |] |];
    first [apply Rgeb_true_iff | apply Rleb_true_iff]; lra.
Defined.

(** ** The resets *)

(** X24: [reset] of the player.  On the track it was built for, a new
    player reset to a start position is the player the constructor builds
    there, and a second reset to the same place changes nothing.  On a
    track with waypoints the reset leaves the counters in the state the
    lap rule keeps, with no lap, a full tank and the nitro off.  It does
    not touch the autopilot flag nor the obstacle effects: a car reset
    while it slides on oil keeps sliding. *)
Theorem X24_player_reset (p : PlayerCar.t) (x y : R) (startPos : Vector)
    (tr : option Track.t) (t : Track.t) :
  PlayerCar.reset (PlayerCar.new x y tr) startPos tr
    = PlayerCar.new (vx startPos) (vy startPos) tr
  /\ PlayerCar.reset (PlayerCar.reset p startPos tr) startPos tr
     = PlayerCar.reset p startPos tr
  /\ sameGrip p (PlayerCar.reset p startPos tr)
  /\ PlayerCar.autoMode (PlayerCar.reset p startPos tr) = PlayerCar.autoMode p
  /\ (Track.waypoints t <> [] ->
      playerInv t (PlayerCar.reset p startPos (Some t))
      /\ PlayerCar.laps (PlayerCar.reset p startPos (Some t)) = 0%nat
      /\ PlayerCar.finished (PlayerCar.reset p startPos (Some t)) = false
      /\ PlayerCar.nitroActive (PlayerCar.reset p startPos (Some t)) = false
      /\ PlayerCar.nitroFuel (PlayerCar.reset p startPos (Some t)) = PlayerCar.nitroMaxFuel
      /\ PlayerCar.position (PlayerCar.reset p startPos (Some t)) = startPos
      /\ PlayerCar.velocity (PlayerCar.reset p startPos (Some t)) = createVector 0 0).
Proof.
  unfold PlayerCar.reset, PlayerCar.new, sameGrip, playerInv, PlayerCar.nitroMaxFuel.
  destruct startPos as [sx sy]. destruct p as [[pos vel acc r mf ms] tk df an la cr lc fi au nf na oo ot st].
  split; [| split; [| split; [| split]]].
  - destruct tr as [tk' |]; [destruct (Track.waypoints tk') as [| w0 [| w1 rest]] |];
      reflexivity.
  - destruct tr as [tk' |]; [destruct (Track.waypoints tk') as [| w0 [| w1 rest]] |];
      reflexivity.
  - destruct tr as [tk' |]; [destruct (Track.waypoints tk') as [| w0 [| w1 rest]] |];
      repeat split.
  - destruct tr as [tk' |]; [destruct (Track.waypoints tk') as [| w0 [| w1 rest]] |];
      reflexivity.
  - intros Hne.
    destruct (Track.waypoints t) as [| w0 [| w1 rest]] eqn:E; [now elim Hne | |];
      cbn; rewrite ?E; cbn; repeat split; lia.
Qed.

Lemma X24_player_reset_witness :
  PlayerCar.position (PlayerCar.reset (playerAt (createVector 0 0) (createVector 3 0) 1 50)
                        (createVector 500 350) (Some centreTrack))
  = createVector 500 350.
Proof.
  apply (X24_player_reset (playerAt (createVector 0 0) (createVector 3 0) 1 50) 0 0
           (createVector 500 350) None centreTrack).
  discriminate.
Defined.

(** X25: [reset] of an opponent.  It succeeds exactly on a track with
    waypoints, whatever the waypoint index.  The car then stands at the
    spawn position with no lap, its progress is the waypoint index, and it
    moves at speed 2 towards the waypoint after that index, unless it
    stands on it.  The checkpoints are counted from 0 while the last
    checkpoint is the index, so the counters are in the state the lap rule
    keeps only for the index 0; and an index past the end of the track is
    accepted, after which [followPath] throws. *)
Theorem X25_follower_reset (f : FollowerCar.t) (spawnPos : Vector) (waypointIndex : nat)
    (t : Track.t) :
  FollowerCar.reset f spawnPos waypointIndex None = None
  /\ (Track.waypoints t = [] -> FollowerCar.reset f spawnPos waypointIndex (Some t) = None)
  /\ (Track.waypoints t <> [] ->
      exists f' next,
        FollowerCar.reset f spawnPos waypointIndex (Some t) = Some f'
        /\ nth_error (Track.waypoints t)
             ((waypointIndex + 1) mod length (Track.waypoints t)) = Some next
        /\ FollowerCar.position f' = spawnPos
        /\ FollowerCar.velocity f' = p5.mult (p5.normalize (p5.sub next spawnPos)) 2
        /\ (next <> spawnPos -> p5.mag (FollowerCar.velocity f') = 2)
        /\ FollowerCar.laps f' = 0%nat
        /\ FollowerCar.finished f' = false
        /\ FollowerCar.getRaceProgress f' = waypointIndex
        /\ (followerInv t f' <-> waypointIndex = 0%nat)
        /\ ((length (Track.waypoints t) <= waypointIndex)%nat ->
            FollowerCar.followPath f' = None)).
Proof.
  split; [reflexivity |]. split.
  - intros E. unfold FollowerCar.reset. cbv beta iota zeta delta [bind]. rewrite E.
    destruct ((waypointIndex + 1) mod length (@nil Vector))%nat; reflexivity.
  - intros Hne.
    assert (Hn : length (Track.waypoints t) <> 0%nat)
      by (destruct (Track.waypoints t); [contradiction | discriminate]).
    pose proof (Nat.mod_upper_bound (waypointIndex + 1) _ Hn) as Hm.
    apply nth_error_Some in Hm.
    destruct (nth_error (Track.waypoints t)
                ((waypointIndex + 1) mod length (Track.waypoints t))) as [next |] eqn:E;
      [clear Hm | contradiction].
    unfold FollowerCar.reset. cbv beta iota zeta delta [bind]. rewrite E.
    eexists. exists next. split; [reflexivity |]. split; [reflexivity |].
    unfold FollowerCar.getRaceProgress, followerInv, FollowerCar.followPath,
      FollowerCar.position, FollowerCar.velocity.
    cbn [FollowerCar.set_base FollowerCar.set_laps FollowerCar.set_checkpointsReached
         FollowerCar.base FollowerCar.track FollowerCar.currentWaypointIndex
         FollowerCar.laps FollowerCar.checkpointsReached FollowerCar.lastCheckpoint
         FollowerCar.finished Vehicule.set_position Vehicule.set_velocity
         Vehicule.position Vehicule.velocity].
    split; [reflexivity |]. split; [reflexivity |]. split.
    { intros Hd. rewrite mag_mult, mag_normalize by now apply mag_sub_ne.
      rewrite Rabs_of_pos; lra. }
    split; [reflexivity |]. split; [reflexivity |]. split; [lia |]. split.
    + split.
      * intros [_ [Hc _]]. now symmetry.
      * intros ->. repeat split. lia.
    + intros Hge. apply nth_error_None in Hge. rewrite Hge. reflexivity.
Qed.

Lemma X25_follower_reset_witness :
  exists f', FollowerCar.reset (followerAt (createVector 0 0) (createVector 0 0) 1)
               (createVector 400 350) 0 (Some centreTrack) = Some f'
             /\ p5.mag (FollowerCar.velocity f') = 2.
Proof.
  destruct (X25_follower_reset (followerAt (createVector 0 0) (createVector 0 0) 1)
              (createVector 400 350) 0 centreTrack) as [_ [_ H]].
  destruct H as [f' [next [H1 [H2 [_ [_ [H3 _]]]]]]]; [discriminate |].
  exists f'. split; [exact H1 |]. apply H3.
  cbn in H2. inversion H2; subst next.
  intros E. apply (f_equal vx) in E. simpl in E. lra.
Defined.

(** ** The gauges of the player *)

(** X26: the two gauges of the player are percentages.  With the
    counters in the state the lap rule keeps, the lap progress is a
    number between 0 and 100 that never reaches 100, and it is 0 exactly
    at checkpoint 0; with the fuel in its range the nitro gauge lies
    between 0 and 100. *)
Theorem X26_gauges (tr : Track.t) (p : PlayerCar.t) :
  (playerInv tr p ->
   exists progress,
     PlayerCar.getLapProgress p = Some progress
     /\ 0 <= progress < 100
     /\ (progress = 0 <-> PlayerCar.lastCheckpoint p = 0%nat))
  /\ (fuelInRange p -> 0 <= PlayerCar.getNitroPercent p <= 100).
Proof.
  split.
  - intros [Ht [_ Hl]]. unfold PlayerCar.getLapProgress. rewrite Ht.
    rewrite (proj2 (Nat.eqb_neq _ 0)) by lia.
    eexists. split; [reflexivity |].
    set (n := length (Track.waypoints tr)) in *.
    assert (Hn : 0 < INR n) by (apply lt_0_INR; lia).
    assert (Hc : 0 <= INR (PlayerCar.lastCheckpoint p) < INR n).
    { split; [apply pos_INR | now apply lt_INR]. }
    assert (Hq : 0 <= INR (PlayerCar.lastCheckpoint p) / INR n < 1).
    { split.
      - apply Rmult_le_pos; [lra |]. apply Rlt_le, Rinv_0_lt_compat, Hn.
      - apply (Rmult_lt_reg_r (INR n)); [exact Hn |].
        unfold Rdiv. rewrite Rmult_assoc, Rinv_l by lra. lra. }
    split; [lra |]. split.
    + intros H0.
      assert (Hz : INR (PlayerCar.lastCheckpoint p) / INR n = 0) by lra.
      unfold Rdiv in Hz. apply Rmult_integral in Hz. destruct Hz as [Hz | Hz].
      * now apply INR_eq.
      * pose proof (Rinv_0_lt_compat _ Hn). lra.
    + intros ->. simpl INR. unfold Rdiv. ring.
  - unfold fuelInRange, PlayerCar.getNitroPercent, PlayerCar.nitroMaxFuel. intros H. lra.
Qed.

Lemma X26_gauges_witness :
  (exists progress,
      PlayerCar.getLapProgress (player80 0 40 40) = Some progress /\ 0 <= progress < 100)
  /\ 0 <= PlayerCar.getNitroPercent (player80 0 40 40) <= 100.
Proof.
  destruct (X26_gauges track80 (player80 0 40 40)) as [H1 H2]. split.
  - destruct H1 as [x [Hx [Hr _]]].
    + unfold playerInv, player80, track80. cbn. repeat split. lia.
    + exists x. split; assumption.
  - apply H2. unfold fuelInRange, player80, PlayerCar.nitroMaxFuel. cbn. lra.
Defined.

(** ** The cards of the level menu *)

(** X27: the level cards.  [calculateLayout] centres the grid of cards
    across the canvas, 60 from either side, and every card lies on the
    canvas.  The card of a level announces the two laps of a race, but up
    to level 6 one opponent more than [createAICars] puts on the grid;
    from level 7 on both say 10. *)
Theorem X27_cards (s : LevelSelect.t) (mx my : R) (i : nat) (level : Z) :
  LevelSelect.startX (LevelSelect.calculateLayout s) = 60
  /\ LevelSelect.startY (LevelSelect.calculateLayout s) = 250
  /\ ((i < 10)%nat -> LevelSelect.onCard (LevelSelect.calculateLayout s) mx my i = true ->
      60 <= mx <= width - 60 /\ 250 <= my <= height - 60)
  /\ LevelSelect.levelInfo_laps = LAPS_TO_WIN
  /\ ((level <= 6)%Z -> LevelSelect.levelInfo_aiCount level = (numCars level + 1)%Z)
  /\ ((7 <= level)%Z -> LevelSelect.levelInfo_aiCount level = numCars level).
Proof.
  assert (HX : LevelSelect.startX (LevelSelect.calculateLayout s) = 60).
  { unfold LevelSelect.calculateLayout, LevelSelect.cols, LevelSelect.cardWidth,
      LevelSelect.padding, width. cbn [LevelSelect.startX].
    rewrite INR_IZR_INZ. cbn [Z.of_nat Pos.of_succ_nat Pos.succ]. lra. }
  assert (HY : LevelSelect.startY (LevelSelect.calculateLayout s) = 250).
  { unfold LevelSelect.calculateLayout, LevelSelect.rows, LevelSelect.cardHeight,
      LevelSelect.padding, height. cbn [LevelSelect.startY].
    rewrite INR_IZR_INZ. cbn [Z.of_nat Pos.of_succ_nat Pos.succ]. lra. }
  split; [exact HX |]. split; [exact HY |]. split; [| split; [reflexivity | split]].
  - intros Hi Hon. apply onCard_bounds in Hon. rewrite HX, HY in Hon.
    assert (Hc : 0 <= INR (i mod 5) <= 4).
    { split; [apply pos_INR |].
      replace 4 with (INR 4) by (rewrite INR_IZR_INZ; reflexivity).
      apply le_INR. pose proof (Nat.mod_upper_bound i 5). lia. }
    assert (Hr : 0 <= INR (i / 5) <= 1).
    { split; [apply pos_INR |].
      replace 1 with (INR 1) by reflexivity.
      apply le_INR. apply Nat.lt_succ_r. apply Nat.Div0.div_lt_upper_bound. lia. }
    unfold width, height. lra.
  - intros H. unfold LevelSelect.levelInfo_aiCount, numCars. lia.
  - intros H. unfold LevelSelect.levelInfo_aiCount, numCars. lia.
Qed.

Lemma X27_cards_witness :
  LevelSelect.levelInfo_aiCount 1 = (numCars 1 + 1)%Z.
Proof.
  apply (X27_cards (LevelSelect.mk 1 1 (-1) 0 0) 0 0 0 1). lia.
Defined.
